(** * react-gui-tool: serial frame assembly, packet decoding, waveform window

    A shallow embedding of the TypeScript sources
      - [src/lib/packet/types.ts], [src/lib/packet/parser.ts]
      - [src/lib/serial/serialService.ts]
      - [src/components/WaveformChart.tsx]
    followed by the properties established about them.

    Conventions.  A JavaScript [number] holding an integer is a [Z]; a
    [Uint8Array] / [ArrayBuffer] is a [list byte]; a [number[]] is a
    [list Z].  A function that may [throw] returns a [Result].  The
    arithmetic of [computeYDomain], which leaves the integers, is written
    once over an interface [JsNumber] and instantiated with IEEE binary64
    ([PrimFloat]), for which its properties are proved, and with exact
    rationals ([Q]). *)

From Stdlib Require Import ZArith String Strings.Byte List Lia Bool QArith.
From Stdlib Require Import Uint63 PrimFloat FloatClass SpecFloat FloatOps FloatAxioms.
From Equations Require Import Equations.
Import ListNotations.

Set Implicit Arguments.
Open Scope Z_scope.

(* ===================================================================== *)
(** ** JavaScript values shared by the modules *)
(* ===================================================================== *)

Module Js.

(** Where a [RangeError] was raised. *)
Inductive RangeOrigin : Type :=
| FrameTooShort (offset byteLength : Z)  (* the [throw] of parsePacket *)
| ViewBounds                         (* DataView constructor or accessor *)
| SetSource.                         (* TypedArray.prototype.set: source too long *)

Inductive JsError : Type :=
| RangeError (origin : RangeOrigin)
| DOMException (name : string)
| Error (message : string)
| OutOfBoundsRead.   (* a read outside an ArrayBuffer; no JavaScript
                        program can observe it, the model keeps it
                        apart so that its absence can be stated *)

Inductive Result (A : Type) : Type :=
| Ok (a : A)
| Throw (e : JsError).
Arguments Ok {A} a.
Arguments Throw {A} e.

Definition bind {A B} (r : Result A) (k : A -> Result B) : Result B :=
  match r with
  | Ok a => k a
  | Throw e => Throw e
  end.

Definition isOk {A} (r : Result A) : bool :=
  match r with Ok _ => true | Throw _ => false end.

(** [err instanceof RangeError] *)
Definition isRangeError (e : JsError) : bool :=
  match e with RangeError _ => true | _ => false end.

Definition Uint8Array := list byte.
Definition ArrayBuffer := list byte.

Definition byteLength (buffer : ArrayBuffer) : Z := Z.of_nat (length buffer).

(** The number stored in one element of a [Uint8Array]. *)
Definition byte_to_Z (b : byte) : Z := Z.of_N (Byte.to_N b).

(** ToUint8: the element stored when a number is written to a
    [Uint8Array]. *)
Definition Z_to_byte (z : Z) : byte :=
  match Byte.of_N (Z.to_N (z mod 256)) with
  | Some b => b
  | None => x00
  end.

(** [new ArrayBuffer(n)]: [n] zero bytes. *)
Definition new_ArrayBuffer (n : Z) : ArrayBuffer := repeat x00 (Z.to_nat n).

(** [new Uint8Array(target).set(source)]: copies [source] to the front
    of [target]; a source longer than the target is a [RangeError]. *)
Definition Uint8Array_set (target : ArrayBuffer) (source : list Z)
  : Result ArrayBuffer :=
  if (length target <? length source)%nat
  then Throw (RangeError SetSource)
  else Ok (map Z_to_byte source ++ skipn (length source) target).

(** *** DataView *)

Record DataView : Type := mkDataView {
  dv_buffer : ArrayBuffer;
  dv_byteOffset : Z;
  dv_byteLength : Z
}.

(** [new DataView(buffer, byteOffset, byteLength)] for integral
    arguments: ToIndex refuses a negative offset or length, and the
    window has to lie inside the buffer. *)
Definition new_DataView (buffer : ArrayBuffer) (byteOffset viewLength : Z)
  : Result DataView :=
  if byteOffset <? 0 then Throw (RangeError ViewBounds)
  else if byteLength buffer <? byteOffset then Throw (RangeError ViewBounds)
  else if viewLength <? 0 then Throw (RangeError ViewBounds)
  else if byteLength buffer <? byteOffset + viewLength then Throw (RangeError ViewBounds)
  else Ok (mkDataView buffer byteOffset viewLength).

(** The [n] bytes of [buffer] starting at index [i], if they exist. *)
Definition rawBytes (buffer : ArrayBuffer) (i : Z) (n : nat) : option (list byte) :=
  if i <? 0 then None
  else
    let bytes := firstn n (skipn (Z.to_nat i) buffer) in
    if (length bytes =? n)%nat then Some bytes else None.

(** The unsigned number denoted by bytes given least significant first. *)
Fixpoint numericLE (bytes : list byte) : Z :=
  match bytes with
  | [] => 0
  | b :: rest => byte_to_Z b + 256 * numericLE rest
  end.

(** [view.getUint32(requestIndex, littleEndian)] *)
Definition getUint32 (view : DataView) (requestIndex : Z) (littleEndian : bool)
  : Result Z :=
  if requestIndex <? 0 then Throw (RangeError ViewBounds)
  else if dv_byteLength view <? requestIndex + 4 then Throw (RangeError ViewBounds)
  else
    match rawBytes (dv_buffer view) (dv_byteOffset view + requestIndex) 4 with
    | Some bytes => Ok (numericLE (if littleEndian then bytes else rev bytes))
    | None => Throw OutOfBoundsRead
    end.

(** The bytes [view.setUint32(_, value, true)] stores: ToUint32 of the
    value, least significant byte first. *)
Definition bytesLE32 (value : Z) : list byte :=
  let v := value mod 2 ^ 32 in
  [Z_to_byte v; Z_to_byte (v / 2 ^ 8); Z_to_byte (v / 2 ^ 16); Z_to_byte (v / 2 ^ 24)].

(** [view.setUint32(requestIndex, value, littleEndian)], returning the
    updated view. *)
Definition setUint32 (view : DataView) (requestIndex value : Z) (littleEndian : bool)
  : Result DataView :=
  if requestIndex <? 0 then Throw (RangeError ViewBounds)
  else if dv_byteLength view <? requestIndex + 4 then Throw (RangeError ViewBounds)
  else
    let i := Z.to_nat (dv_byteOffset view + requestIndex) in
    let bytes := if littleEndian then bytesLE32 value else rev (bytesLE32 value) in
    let buffer := dv_buffer view in
    Ok (mkDataView (firstn i buffer ++ bytes ++ skipn (i + 4) buffer)
                   (dv_byteOffset view) (dv_byteLength view)).

End Js.

Import Js.

Declare Scope js_scope.
Notation "x <- r ;; k" := (bind r (fun x => k))
  (at level 61, r at next level, right associativity) : js_scope.
Open Scope js_scope.

(* ===================================================================== *)
(** ** src/lib/packet: packet format and parser *)
(* ===================================================================== *)

Module Packet.

(** Bytes per packet. *)
Definition PACKET_SIZE : Z := 16.
(** Channels per packet (ch0..ch3). *)
Definition CHANNEL_COUNT : Z := 4.
(** Bytes per channel (32 bit). *)
Definition BYTES_PER_CHANNEL : Z := 4.

Record PacketData : Type := mkPacketData {
  ch0 : Z;
  ch1 : Z;
  ch2 : Z;
  ch3 : Z
}.

(** [parsePacket(buffer, offset = 0)], for an integral [offset]: the
    default 0 and byte positions are what callers pass.  A fractional
    offset, which the DataView constructor would truncate, has no
    counterpart in [Z] and is not covered. *)
Definition parsePacket (buffer : ArrayBuffer) (offset : Z) : Result PacketData :=
  if byteLength buffer <? offset + PACKET_SIZE
  then Throw (RangeError (FrameTooShort offset (byteLength buffer)))
  else
    view <- new_DataView buffer offset PACKET_SIZE ;;
    c0 <- getUint32 view 0 true ;;
    c1 <- getUint32 view BYTES_PER_CHANNEL true ;;
    c2 <- getUint32 view (BYTES_PER_CHANNEL * 2) true ;;
    c3 <- getUint32 view (BYTES_PER_CHANNEL * 3) true ;;
    Ok (mkPacketData c0 c1 c2 c3).

End Packet.

Import Packet.

(* ===================================================================== *)
(** ** src/lib/serial/serialService.ts: the read loop *)
(* ===================================================================== *)

Module Serial.

(** The object [{ value, done }] a fulfilled [reader.read()] yields. *)
Record ReadResult : Type := mkReadResult {
  value : option Uint8Array;
  done : bool
}.

(** What ends one [await reader.read()].  The loop is synchronous
    between two awaits, so everything the outside world does to it
    happens at an await: the read is fulfilled, it is rejected, or the
    abort signal fires while it is pending. *)
Inductive Event : Type :=
| ReadFulfilled (r : ReadResult)
| ReadRejected (err : JsError)
| AbortSignalled.

(** The readable side of a port, given by what its reader will deliver. *)
Record SerialPort : Type := mkSerialPort {
  readable : option (list Event)
}.

(** What the loop does to its collaborators, in program order. *)
Inductive Effect : Type :=
| CallOnPacket (data : PacketData)
| CallOnError (err : JsError)
| ReaderCancel
| AddAbortListener
| RemoveAbortListener
| ReleaseLock.

Inductive Status : Type :=
| Returned        (* the promise of startReadLoop is settled *)
| AwaitingRead.   (* suspended at [await reader.read()] *)

Record Outcome : Type := mkOutcome {
  log : list Effect;
  carry : list Z;      (* the local [buffer] *)
  status : Status
}.

Definition prepend (fx : list Effect) (o : Outcome) : Outcome :=
  mkOutcome (fx ++ log o) (carry o) (status o).

(** [onError?.(e)] *)
Definition callOnError (hasOnError : bool) (e : JsError) : list Effect :=
  if hasOnError then [CallOnError e] else [].

(** Result of the inner [while]: its effects, the buffer it leaves and
    the exception that left it, if any. *)
Record Drained : Type := mkDrained {
  d_log : list Effect;
  d_buffer : list Z;
  d_exn : option JsError
}.

Definition andThen (fx : list Effect) (d : Drained) : Drained :=
  mkDrained (fx ++ d_log d) (d_buffer d) (d_exn d).

Definition inspect {A} (a : A) : {b : A | a = b} := exist _ a eq_refl.

(** [array.splice(0, deleteCount)]: the removed elements and the array
    that stays behind. *)
Definition splice0 {A} (deleteCount : Z) (array : list A) : list A * list A :=
  (firstn (Z.to_nat deleteCount) array, skipn (Z.to_nat deleteCount) array).
#[global] Arguments splice0 : simpl never.

(** [[
    while (buffer.length >= PACKET_SIZE) {
      const slice = buffer.splice(0, PACKET_SIZE);
      const ab = new ArrayBuffer(PACKET_SIZE);
      new Uint8Array(ab).set(slice);
      try { const data = parsePacket(ab); onPacket(data); }
      catch (e) { onError?.(e); }
    }
    ]] *)
Equations? drainPackets (hasOnError : bool) (buffer : list Z) : Drained
  by wf (length buffer) lt :=
  drainPackets hasOnError buffer
    with inspect (PACKET_SIZE <=? Z.of_nat (length buffer)) := {
    | exist _ false _ := mkDrained [] buffer None
    | exist _ true Hge :=
        let slice := fst (splice0 PACKET_SIZE buffer) in
        let rest := snd (splice0 PACKET_SIZE buffer) in
        match Uint8Array_set (new_ArrayBuffer PACKET_SIZE) slice with
        | Throw e => mkDrained [] rest (Some e)
        | Ok ab =>
            andThen
              (match parsePacket ab 0 with
               | Ok data => [CallOnPacket data]
               | Throw e => callOnError hasOnError e
               end)
              (drainPackets hasOnError rest)
        end }.
Proof.
  apply Z.leb_le in Hge. unfold PACKET_SIZE in Hge.
  change (length (skipn 16 buffer) < length buffer)%nat.
  rewrite length_skipn. lia.
Qed.

(** [err instanceof DOMException && err.name === 'AbortError'] *)
Definition isAbort (err : JsError) : bool :=
  match err with
  | DOMException name => String.eqb name "AbortError"
  | _ => false
  end.

(** The [finally] block. *)
Definition finally (signal : option bool) (buffer : list Z) : Outcome :=
  mkOutcome
    ((match signal with
      | Some false => [RemoveAbortListener]
      | _ => []
      end) ++ [ReleaseLock])
    buffer Returned.

(** The outer [catch (err)] followed by [finally]. *)
Definition catch (hasOnError : bool) (signal : option bool) (err : JsError)
           (buffer : list Z) : Outcome :=
  prepend (if negb (isAbort err) && hasOnError then [CallOnError err] else [])
          (finally signal buffer).

(** The [while (true)] loop inside [try], one iteration per event.
    [signal] is [None] when no signal was passed and [Some aborted]
    otherwise.  When the signal fires during a pending read, the
    listener [onAbort] cancels the reader; cancelling a
    ReadableStreamDefaultReader closes the stream, which fulfils the
    pending read with [{ value: undefined, done: true }]. *)
Fixpoint readLoop (hasOnError : bool) (signal : option bool)
         (events : list Event) (buffer : list Z) : Outcome :=
  match signal with
  | Some true => finally signal buffer              (* if (signal?.aborted) break; *)
  | _ =>
      match events with
      | [] => mkOutcome [] buffer AwaitingRead
      | ReadFulfilled r :: events' =>
          if done r then finally signal buffer      (* if (done) break; *)
          else
            match value r with
            | None => readLoop hasOnError signal events' buffer
            | Some chunk =>
                let d := drainPackets hasOnError (buffer ++ map byte_to_Z chunk) in
                match d_exn d with
                | Some err =>
                    prepend (d_log d) (catch hasOnError signal err (d_buffer d))
                | None =>
                    prepend (d_log d)
                            (readLoop hasOnError signal events' (d_buffer d))
                end
            end
      | ReadRejected err :: _ => catch hasOnError signal err buffer
      | AbortSignalled :: events' =>
          match signal with
          | None => readLoop hasOnError signal events' buffer
          | Some _ => prepend [ReaderCancel] (finally (Some true) buffer)
          end
      end
  end.

(** [startReadLoop(port, onPacket, onError?, signal?)].  The callbacks
    are observers: each call is recorded in the log and returns. *)
Definition startReadLoop (port : SerialPort) (hasOnError : bool)
           (signal : option bool) : Outcome :=
  match readable port with
  | None =>
      mkOutcome (callOnError hasOnError (Error "port.readable is not available"))
                [] Returned
  | Some events =>
      prepend
        (match signal with
         | Some true => [ReaderCancel]
         | Some false => [AddAbortListener]
         | None => []
         end)
        (readLoop hasOnError signal events [])
  end.

(** The samples handed to [onPacket], in call order. *)
Fixpoint packets (fx : list Effect) : list PacketData :=
  match fx with
  | [] => []
  | CallOnPacket data :: fx' => data :: packets fx'
  | _ :: fx' => packets fx'
  end.

(** The errors handed to [onError], in call order. *)
Fixpoint errors (fx : list Effect) : list JsError :=
  match fx with
  | [] => []
  | CallOnError err :: fx' => err :: errors fx'
  | _ :: fx' => errors fx'
  end.

(** The reader script of a stream that delivers the given chunks. *)
Definition deliver (chunks : list Uint8Array) : list Event :=
  map (fun chunk => ReadFulfilled (mkReadResult (Some chunk) false)) chunks.

(** The end-of-stream read result. *)
Definition endOfStream : Event := ReadFulfilled (mkReadResult None true).

(** The consecutive complete frames of a byte string. *)
Equations? frames (bytes : list byte) : list (list byte)
  by wf (length bytes) lt :=
  frames bytes with inspect (PACKET_SIZE <=? Z.of_nat (length bytes)) := {
    | exist _ false _ := []
    | exist _ true Hge :=
        fst (splice0 PACKET_SIZE bytes)
          :: frames (snd (splice0 PACKET_SIZE bytes)) }.
Proof.
  apply Z.leb_le in Hge. unfold PACKET_SIZE in Hge.
  change (length (skipn 16 bytes) < length bytes)%nat.
  rewrite length_skipn. lia.
Qed.

(** The bytes after the last complete frame. *)
Definition remainder (bytes : list byte) : list byte :=
  skipn (length (concat (frames bytes))) bytes.

End Serial.

Import Serial.

(* ===================================================================== *)
(** ** The read loop with callbacks that act *)
(* ===================================================================== *)

Module Callbacks.

(** [Serial.startReadLoop] records the calls of [onPacket] and [onError]
    and lets them return.  Here the callbacks act on the loop in the two
    ways open to them: a call may abort the signal, through the
    AbortController whose signal was passed, and it may throw.  A
    callback is given by its reaction to a call; the reaction may depend
    on everything the loop has done before the call. *)

Record Reaction : Type := mkReaction {
  aborts : bool;                (* [controller.abort()] during the call *)
  throws : option JsError       (* the exception that ends the call *)
}.

Definition Callback (A : Type) : Type := list Effect -> A -> Reaction.

Record Handlers : Type := mkHandlers {
  onPacket : Callback PacketData;
  onError : option (Callback JsError)       (* [onError?: ...] *)
}.

(** How the promise returned by startReadLoop stands. *)
Inductive Promise : Type :=
| Fulfilled
| Rejected (reason : JsError)
| Pending.         (* suspended at [await reader.read()] *)

Record Run : Type := mkRun {
  effects : list Effect;
  leftover : list Z;      (* the local [buffer] *)
  promise : Promise
}.

Definition before (fx : list Effect) (r : Run) : Run :=
  mkRun (fx ++ effects r) (leftover r) (promise r).

(** What one call leaves behind: its effects, the state of the signal
    and the exception that ended it. *)
Record Called : Type := mkCalled {
  c_log : list Effect;
  c_signal : option bool;
  c_exn : option JsError
}.

(** A call of [f] on [arg].  When the callback aborts a signal that was
    passed and is not aborted yet, the signal turns aborted and its
    listener [onAbort] runs at once: [reader.cancel()]. *)
Definition call {A} (f : Callback A) (entry : A -> Effect)
           (history : list Effect) (signal : option bool) (arg : A) : Called :=
  let r := f history arg in
  match aborts r, signal with
  | true, Some false => mkCalled [entry arg; ReaderCancel] (Some true) (throws r)
  | _, _ => mkCalled [entry arg] signal (throws r)
  end.

(** The body of the inner loop for one block:
    [[
    try { const data = parsePacket(ab); onPacket(data); }
    catch (e) { onError?.(e); }
    ]] *)
Definition handleBlock (h : Handlers) (history : list Effect)
           (signal : option bool) (ab : ArrayBuffer) : Called :=
  let attempt :=
    match parsePacket ab 0 with
    | Ok data => call (onPacket h) CallOnPacket history signal data
    | Throw e => mkCalled [] signal (Some e)
    end in
  match c_exn attempt, onError h with
  | None, _ => attempt
  | Some e, None => mkCalled (c_log attempt) (c_signal attempt) None
  | Some e, Some f =>
      let report :=
        call f CallOnError (history ++ c_log attempt) (c_signal attempt) e in
      mkCalled (c_log attempt ++ c_log report) (c_signal report) (c_exn report)
  end.

(** Result of the inner [while]. *)
Record Drain : Type := mkDrain {
  dr_log : list Effect;
  dr_buffer : list Z;
  dr_signal : option bool;
  dr_exn : option JsError
}.

(** The inner [while (buffer.length >= PACKET_SIZE)]: an exception that
    leaves the [catch] of one block leaves the loop. *)
Equations? drainPackets (h : Handlers) (history : list Effect)
           (signal : option bool) (buffer : list Z) : Drain
  by wf (length buffer) lt :=
  drainPackets h history signal buffer
    with inspect (PACKET_SIZE <=? Z.of_nat (length buffer)) := {
    | exist _ false _ := mkDrain [] buffer signal None
    | exist _ true Hge :=
        let slice := fst (splice0 PACKET_SIZE buffer) in
        let rest := snd (splice0 PACKET_SIZE buffer) in
        match Uint8Array_set (new_ArrayBuffer PACKET_SIZE) slice with
        | Throw e => mkDrain [] rest signal (Some e)
        | Ok ab =>
            let c := handleBlock h history signal ab in
            match c_exn c with
            | Some e => mkDrain (c_log c) rest (c_signal c) (Some e)
            | None =>
                let d := drainPackets h (history ++ c_log c) (c_signal c) rest in
                mkDrain (c_log c ++ dr_log d) (dr_buffer d) (dr_signal d) (dr_exn d)
            end
        end }.
Proof.
  apply Z.leb_le in Hge. unfold PACKET_SIZE in Hge.
  change (length (skipn 16 buffer) < length buffer)%nat.
  rewrite length_skipn. lia.
Qed.

(** The [finally] block, and the promise it leaves. *)
Definition finally (signal : option bool) (buffer : list Z) (p : Promise) : Run :=
  mkRun
    ((match signal with
      | Some false => [RemoveAbortListener]
      | _ => []
      end) ++ [ReleaseLock])
    buffer p.

(** The outer [catch (err)] followed by [finally]; an exception thrown
    by [onError] here rejects the promise once [finally] has run. *)
Definition catch (h : Handlers) (history : list Effect) (signal : option bool)
           (err : JsError) (buffer : list Z) : Run :=
  match isAbort err, onError h with
  | false, Some f =>
      let report := call f CallOnError history signal err in
      before (c_log report)
             (finally (c_signal report) buffer
                      (match c_exn report with
                       | Some thrown => Rejected thrown
                       | None => Fulfilled
                       end))
  | _, _ => finally signal buffer Fulfilled
  end.

(** The [while (true)] loop inside [try], one iteration per event; the
    signal is looked at only at the top of an iteration. *)
Fixpoint readLoop (h : Handlers) (history : list Effect) (signal : option bool)
         (events : list Event) (buffer : list Z) : Run :=
  match signal with
  | Some true => finally signal buffer Fulfilled    (* if (signal?.aborted) break; *)
  | _ =>
      match events with
      | [] => mkRun [] buffer Pending
      | ReadFulfilled r :: events' =>
          if done r then finally signal buffer Fulfilled      (* if (done) break; *)
          else
            match value r with
            | None => readLoop h history signal events' buffer
            | Some chunk =>
                let d := drainPackets h history signal
                                      (buffer ++ map byte_to_Z chunk) in
                match dr_exn d with
                | Some err =>
                    before (dr_log d)
                           (catch h (history ++ dr_log d) (dr_signal d) err
                                  (dr_buffer d))
                | None =>
                    before (dr_log d)
                           (readLoop h (history ++ dr_log d) (dr_signal d) events'
                                     (dr_buffer d))
                end
            end
      | ReadRejected err :: _ => catch h history signal err buffer
      | AbortSignalled :: events' =>
          match signal with
          | None => readLoop h history signal events' buffer
          | Some _ => before [ReaderCancel] (finally (Some true) buffer Fulfilled)
          end
      end
  end.

(** [startReadLoop(port, onPacket, onError?, signal?)] *)
Definition startReadLoop (port : SerialPort) (h : Handlers)
           (signal : option bool) : Run :=
  match readable port with
  | None =>
      match onError h with
      | None => mkRun [] [] Fulfilled
      | Some f =>
          let e := Error "port.readable is not available" in
          mkRun [CallOnError e] []
                (match throws (f [] e) with
                 | Some thrown => Rejected thrown
                 | None => Fulfilled
                 end)
      end
  | Some events =>
      let setup :=
        match signal with
        | Some true => [ReaderCancel]
        | Some false => [AddAbortListener]
        | None => []
        end in
      before setup (readLoop h setup signal events [])
  end.

(** A callback that returns normally and leaves the signal alone,
    whatever it is called with. *)
Definition returns {A} (f : Callback A) : Prop :=
  forall history arg, f history arg = mkReaction false None.

(** Callbacks that only take what they are given. *)
Definition passive (h : Handlers) : Prop :=
  returns (onPacket h) /\ forall f, onError h = Some f -> returns f.

Definition hasOnError (h : Handlers) : bool :=
  match onError h with Some _ => true | None => false end.

(** A run of [Serial.startReadLoop] as a run of this loop. *)
Definition observed (o : Outcome) : Run :=
  mkRun (Serial.log o) (Serial.carry o)
        (match Serial.status o with
         | Returned => Fulfilled
         | AwaitingRead => Pending
         end).

(** The callback that does nothing. *)
Definition ignore {A} : Callback A := fun _ _ => mkReaction false None.

(** The callback that always throws [e]. *)
Definition failing {A} (e : JsError) : Callback A :=
  fun _ _ => mkReaction false (Some e).

(** The callback that aborts the signal on every call. *)
Definition aborting {A} : Callback A := fun _ _ => mkReaction true None.

(** A callback that never aborts the signal; one that never throws. *)
Definition neverAborts {A} (f : Callback A) : Prop :=
  forall history arg, aborts (f history arg) = false.

Definition neverThrows {A} (f : Callback A) : Prop :=
  forall history arg, throws (f history arg) = None.

End Callbacks.


(* ===================================================================== *)
(** ** JavaScript numbers outside the integers *)
(* ===================================================================== *)

(** The operations [computeYDomain] applies to values of type [number]. *)
Class JsNumber (num : Type) : Type := {
  fromZ : Z -> num;              (* an integral literal or sample *)
  lit_0_05 : num;                (* the literal 0.05 *)
  nadd : num -> num -> num;      (* a + b *)
  nsub : num -> num -> num;      (* a - b *)
  nmul : num -> num -> num;      (* a * b *)
  nlt : num -> num -> bool;      (* a < b *)
  truthy : num -> bool;          (* ToBoolean: neither zero nor NaN *)
  Math_max : num -> num -> num;
  Math_min : num -> num -> num
}.

Module Binary64.

(** IEEE 754 binary64, the arithmetic JavaScript runs. *)

Definition isNaN (x : float) : bool := negb (PrimFloat.eqb x x).

(** Exact for integers of magnitude at most 2^53. *)
Definition ofZ (z : Z) : float :=
  if z <? 0
  then PrimFloat.opp (PrimFloat.of_uint63 (Uint63.of_Z (- z)))
  else PrimFloat.of_uint63 (Uint63.of_Z z).

(** [Math.max(a, b)]: NaN if either is NaN, the larger otherwise, +0
    counting as larger than -0. *)
Definition max (a b : float) : float :=
  if isNaN a || isNaN b then PrimFloat.nan
  else if PrimFloat.ltb a b then b
  else if PrimFloat.ltb b a then a
  else match PrimFloat.classify a with
       | FloatClass.NZero => b
       | _ => a
       end.

(** [Math.min(a, b)]: NaN if either is NaN, the smaller otherwise, -0
    counting as smaller than +0. *)
Definition min (a b : float) : float :=
  if isNaN a || isNaN b then PrimFloat.nan
  else if PrimFloat.ltb a b then a
  else if PrimFloat.ltb b a then b
  else match PrimFloat.classify a with
       | FloatClass.PZero => b
       | _ => a
       end.

#[global] Instance number : JsNumber float := {
  fromZ := ofZ;
  lit_0_05 := 0x1.999999999999ap-5%float;   (* the double nearest to 0.05 *)
  nadd := PrimFloat.add;
  nsub := PrimFloat.sub;
  nmul := PrimFloat.mul;
  nlt := PrimFloat.ltb;
  truthy := fun x => negb (isNaN x || PrimFloat.eqb x 0%float);
  Math_max := max;
  Math_min := min
}.

End Binary64.

Module Exact.

(** Exact rational arithmetic: the same operations without rounding,
    overflow or NaN. *)

Definition ltb (a b : Q) : bool :=
  match Qcompare a b with Lt => true | _ => false end.

#[global] Instance number : JsNumber Q := {
  fromZ := inject_Z;
  lit_0_05 := Qmake 5 100;
  nadd := Qplus;
  nsub := Qminus;
  nmul := Qmult;
  nlt := ltb;
  truthy := fun x => negb (Qeq_bool x 0);
  Math_max := fun a b => if ltb a b then b else a;
  Math_min := fun a b => if ltb a b then a else b
}.

End Exact.

(* ===================================================================== *)
(** ** src/components/WaveformChart.tsx: window buffers and axis range *)
(* ===================================================================== *)

Module Chart.

(** Number of points on the horizontal axis. *)
Definition POINTS : nat := 20.

(** Largest value of the vertical axis (32 bit unsigned): [2 ** 32]. *)
Definition Y_MAX {num} `{JsNumber num} : num := fromZ (2 ^ 32).

(** One point of a channel's chart; [value = None] is [null]. *)
Record ChartDatum (A : Type) : Type := mkChartDatum {
  point : nat;
  value : option A
}.

(** [buildChartData(buffer)] *)
Definition buildChartData {A} (buffer : list A) : list (ChartDatum A) :=
  map (fun i =>
         mkChartDatum i (if (i <? length buffer)%nat then nth_error buffer i else None))
      (seq 0 POINTS).

Section YDomain.
Context {num : Type} `{JsNumber num}.

(** The [for] loop of [computeYDomain]: running minimum and maximum. *)
Definition scan (acc : num * num) (v : num) : num * num :=
  let (min, max) := acc in
  (if nlt v min then v else min, if nlt max v then v else max).

(** [computeYDomain(buffer, autoScale)] *)
Definition computeYDomain (buffer : list num) (autoScale : bool) : num * num :=
  if negb autoScale || (length buffer =? 0)%nat then (fromZ 0, Y_MAX)
  else
    match buffer with
    | [] => (fromZ 0, Y_MAX)          (* excluded by the test above *)
    | first :: others =>
        let (min, max) := fold_left scan others (first, first) in
        let pad :=
          let p := nmul (nsub max min) lit_0_05 in
          if truthy p then p else fromZ 1 in          (* p || 1 *)
        (Math_max (fromZ 0) (nsub min pad), Math_min Y_MAX (nadd max pad))
    end.

End YDomain.

(** [b.push(v)] *)
Definition push {A} (b : list A) (v : A) : list A := b ++ [v].

(** [b.shift()]: removes the first element. *)
Definition shift {A} (b : list A) : list A := tl b.

(** [if (b.length > POINTS) b.shift();] *)
Definition trim {A} (b : list A) : list A :=
  if (POINTS <? length b)%nat then shift b else b.

(** What one received packet does to one channel's buffer. *)
Definition pushSample {A} (b : list A) (v : A) : list A := trim (push b v).

(** [buffersRef.current]: the four channel buffers. *)
Record Buffers : Type := mkBuffers {
  buf0 : list Z;
  buf1 : list Z;
  buf2 : list Z;
  buf3 : list Z
}.

(** [useRef<number[][]>([[], [], [], []])] *)
Definition initialBuffers : Buffers := mkBuffers [] [] [] [].

(** The effect run when [packet] changes. *)
Definition onPacketChange (buffers : Buffers) (packet : option PacketData) : Buffers :=
  match packet with
  | None => buffers                                   (* if (packet == null) return; *)
  | Some p =>
      let b0 := push (buf0 buffers) (ch0 p) in
      let b1 := push (buf1 buffers) (ch1 p) in
      let b2 := push (buf2 buffers) (ch2 p) in
      let b3 := push (buf3 buffers) (ch3 p) in
      mkBuffers (trim b0) (trim b1) (trim b2) (trim b3)
  end.

(** The buffer of channel [ch], [buffers[ch]]. *)
Definition channel (buffers : Buffers) (ch : nat) : option (list Z) :=
  match ch with
  | 0%nat => Some (buf0 buffers)
  | 1%nat => Some (buf1 buffers)
  | 2%nat => Some (buf2 buffers)
  | 3%nat => Some (buf3 buffers)
  | _ => None
  end.

(** The field [ch<n>] of a packet. *)
Definition sample (p : PacketData) (ch : nat) : Z :=
  match ch with
  | 0%nat => ch0 p
  | 1%nat => ch1 p
  | 2%nat => ch2 p
  | _ => ch3 p
  end.

End Chart.

Import Chart.

(* ===================================================================== *)
(** ** src/components/WaveformChart.tsx, uPlot variant *)
(* ===================================================================== *)

Module Uplot.

(** [buildX()] *)
Definition buildX : list nat := seq 0 POINTS.

(** The series handed to [u.setData] by the effect on [packet]:
    [[
    for (let i = 0; i < POINTS; i++) y.push(i < b.length ? b[i]! : null);
    ]] *)
Definition buildY {A} (b : list A) : list (option A) :=
  map (fun i => if (i <? length b)%nat then nth_error b i else None) (seq 0 POINTS).

Section Scale.
Context {num : Type} `{JsNumber num}.

(** The range both effects compute inline once they know that the buffer
    is not empty: scan for minimum and maximum, pad, clamp. *)
Definition autoRange (arr : list num) : num * num :=
  match arr with
  | [] => (fromZ 0, Y_MAX)          (* excluded by [arr.length > 0] *)
  | first :: others =>
      let (min, max) := fold_left scan others (first, first) in
      let pad :=
        let p := nmul (nsub max min) lit_0_05 in
        if truthy p then p else fromZ 1 in
      (Math_max (fromZ 0) (nsub min pad), Math_min Y_MAX (nadd max pad))
  end.

(** The effect on [autoScale]: the [{ min, max }] given to
    [u.setScale('y', _)] for a chart with buffer [arr]. *)
Definition scaleOnAutoScaleChange (arr : list num) (autoScale : bool) : num * num :=
  if autoScale && (0 <? length arr)%nat then autoRange arr else (fromZ 0, Y_MAX).

(** The effect on [packet]: the scale set after [setData]; [None] when
    [setScale] is not called. *)
Definition scaleOnPacket (b : list num) (autoScale : bool) : option (num * num) :=
  if autoScale && (0 <? length b)%nat then Some (autoRange b) else None.

End Scale.

(** *** The component between renders *)

(** What the component has last told one uPlot instance: the x and y
    series of [u.setData([x, y], false)] and the range of
    [u.setScale('y', { min, max })]. *)
Record Plot (num : Type) : Type := mkPlot {
  xs : list nat;
  series : list (option Z);
  yrange : num * num
}.

Record Component (num : Type) : Type := mkComponent {
  packetProp : option PacketData;     (* the [packet] prop of the last render *)
  autoScaleState : bool;              (* [const [autoScale, setAutoScale] = useState(false)] *)
  buffersRef : Buffers;               (* [buffersRef.current] *)
  plotRefs : nat -> Plot num          (* [plotRefs.current[ch]], for ch = 0..3 *)
}.

(** What makes the component render again. *)
Inductive Render : Type :=
| NewPacket (p : PacketData)       (* the parent passes a new packet object *)
| SetAutoScale (checked : bool).   (* the checkbox: [setAutoScale(e.target.checked)] *)

Section Effects.
Context {num : Type} `{JsNumber num}.

(** The effect with dependencies [[autoScale]]: every chart is given
    the range that fits its buffer as it is. *)
Definition autoScaleEffect (c : Component num) : Component num :=
  mkComponent (packetProp c) (autoScaleState c) (buffersRef c)
    (fun ch =>
       match channel (buffersRef c) ch with
       | Some arr =>
           mkPlot (xs (plotRefs c ch)) (series (plotRefs c ch))
                  (scaleOnAutoScaleChange (map fromZ arr) (autoScaleState c))
       | None => plotRefs c ch
       end).

(** The effect with dependencies [[packet, autoScale]]: the packet is
    pushed onto the four buffers, then every chart is given its series
    and, with autoscale on, its range. *)
Definition packetEffect (c : Component num) : Component num :=
  match packetProp c with
  | None => c                                         (* if (packet == null) return; *)
  | Some packet =>
      let b0 := push (buf0 (buffersRef c)) (ch0 packet) in
      let b1 := push (buf1 (buffersRef c)) (ch1 packet) in
      let b2 := push (buf2 (buffersRef c)) (ch2 packet) in
      let b3 := push (buf3 (buffersRef c)) (ch3 packet) in
      let buffers := mkBuffers (trim b0) (trim b1) (trim b2) (trim b3) in
      mkComponent (packetProp c) (autoScaleState c) buffers
        (fun ch =>
           match channel buffers ch with
           | Some b =>
               mkPlot buildX (buildY b)
                      (match scaleOnPacket (map fromZ b) (autoScaleState c) with
                       | Some range => range
                       | None => yrange (plotRefs c ch)
                       end)
           | None => plotRefs c ch
           end)
  end.

(** The component once mounted with [packet = null]: the charts are
    created with a series of nulls, the autoscale effect sets the full
    range and the packet effect returns at once. *)
Definition mounted : Component num :=
  mkComponent None false initialBuffers
              (fun _ => mkPlot buildX (repeat None POINTS) (fromZ 0, Y_MAX)).

(** One render and the effects it triggers, in the order they are
    declared: an effect runs when one of its dependencies has changed.
    Setting the state to the value it has does not render. *)
Definition render (c : Component num) (r : Render) : Component num :=
  match r with
  | NewPacket p =>
      packetEffect (mkComponent (Some p) (autoScaleState c) (buffersRef c) (plotRefs c))
  | SetAutoScale checked =>
      if Bool.eqb checked (autoScaleState c) then c
      else packetEffect
             (autoScaleEffect
                (mkComponent (packetProp c) checked (buffersRef c) (plotRefs c)))
  end.

End Effects.

(** The values of [packet] for which the packet effect runs: every new
    packet, and the packet of the last render again whenever autoscale
    is switched. *)
Fixpoint effectRuns (packet : option PacketData) (autoScale : bool)
         (renders : list Render) : list (option PacketData) :=
  match renders with
  | [] => []
  | NewPacket p :: rest => Some p :: effectRuns (Some p) autoScale rest
  | SetAutoScale checked :: rest =>
      if Bool.eqb checked autoScale then effectRuns packet autoScale rest
      else packet :: effectRuns packet checked rest
  end.

End Uplot.

(* ===================================================================== *)
(** ** src/App.tsx and the channel toggles *)
(* ===================================================================== *)

Module App.

(** A [boolean[]] as JavaScript has it: a slot may be empty and then
    reads as [undefined] ([None]). *)
Definition BoolArray : Type := list (option bool).

(** [array[index]] *)
Definition element (array : BoolArray) (index : Z) : option bool :=
  if index <? 0 then None
  else match nth_error array (Z.to_nat index) with
       | Some slot => slot
       | None => None
       end.

(** [array[index] = v] for an integral index: inside the array the slot
    is replaced, beyond its end the array grows and the slots in between
    stay empty; a negative index names a property, not an element. *)
Definition assign (array : BoolArray) (index : Z) (v : bool) : BoolArray :=
  if index <? 0 then array
  else
    let i := Z.to_nat index in
    if (i <? length array)%nat
    then firstn i array ++ Some v :: skipn (S i) array
    else array ++ repeat None (i - length array) ++ [Some v].

(** [useState<boolean[]>([true, true, true, true])] *)
Definition initialChannelVisible : BoolArray :=
  [Some true; Some true; Some true; Some true].

(** [[
    setChannelVisible((prev) => {
      const next = [...prev]; next[index] = visible; return next; })
    ]] *)
Definition handleChannelVisibleChange (prev : BoolArray) (index : Z) (visible : bool)
  : BoolArray :=
  let next := prev in
  assign next index visible.

(** SerialControl renders the toggles when
    [channelVisible.length >= 4]. *)
Definition togglesRendered (channelVisible : BoolArray) : bool :=
  (4 <=? length channelVisible)%nat.

(** The toggle of channel [ch]:
    [onClick={() => onChannelVisibleChange(ch, !channelVisible[ch])}] *)
Definition clickToggle (channelVisible : BoolArray) (ch : nat) : BoolArray :=
  handleChannelVisibleChange channelVisible (Z.of_nat ch)
    (match element channelVisible (Z.of_nat ch) with
     | Some b => negb b
     | None => true                     (* !undefined *)
     end).

(** WaveformChart shows the chart of channel [ch] unless
    [channelVisible[ch] !== false] fails. *)
Definition chartDisplayed (channelVisible : BoolArray) (ch : nat) : bool :=
  match element channelVisible (Z.of_nat ch) with
  | Some false => false
  | _ => true
  end.

End App.

(* ===================================================================== *)
(** ** Reference notions used in the statements *)
(* ===================================================================== *)

(** The wire format: channel [i] occupies bytes [4*i .. 4*i+3] of a
    frame, least significant byte first. *)
Definition decode (frame : list byte) : PacketData :=
  mkPacketData (numericLE (firstn 4 frame))
               (numericLE (firstn 4 (skipn 4 frame)))
               (numericLE (firstn 4 (skipn 8 frame)))
               (numericLE (firstn 4 (skipn 12 frame))).

(** The bytes of [buffer] at indices [offset .. offset+15]. *)
Definition window (buffer : ArrayBuffer) (offset : Z) : list byte :=
  firstn 16 (skipn (Z.to_nat offset) buffer).

(** A block as a test builds it: four values written little-endian at
    offsets 0, 4, 8 and 12 of [block]. *)
Definition writeChannels (block : ArrayBuffer) (a b c d : Z) : Result ArrayBuffer :=
  view <- new_DataView block 0 (byteLength block) ;;
  view <- setUint32 view 0 a true ;;
  view <- setUint32 view 4 b true ;;
  view <- setUint32 view 8 c true ;;
  view <- setUint32 view 12 d true ;;
  Ok (dv_buffer view).

(** A port whose reader follows the given script. *)
Definition portOf (events : list Event) : SerialPort := mkSerialPort (Some events).

(** How often an effect of a given kind occurs in a log. *)
Definition occurrences (kind : Effect -> bool) (fx : list Effect) : nat :=
  length (filter kind fx).

Definition isReleaseLock (e : Effect) : bool :=
  match e with ReleaseLock => true | _ => false end.

Definition isReaderCancel (e : Effect) : bool :=
  match e with ReaderCancel => true | _ => false end.

Definition isAddAbortListener (e : Effect) : bool :=
  match e with AddAbortListener => true | _ => false end.

Definition isRemoveAbortListener (e : Effect) : bool :=
  match e with RemoveAbortListener => true | _ => false end.

(** The events at which the loop stops reading. *)
Definition stopsLoop (signal : option bool) (ev : Event) : bool :=
  match ev with
  | ReadFulfilled r => Serial.done r
  | ReadRejected _ => true
  | AbortSignalled => match signal with Some _ => true | None => false end
  end.

(** The packets among the successive values of the [packet] prop. *)
Fixpoint nonNull (packets : list (option PacketData)) : list PacketData :=
  match packets with
  | [] => []
  | Some p :: rest => p :: nonNull rest
  | None :: rest => nonNull rest
  end.

(** Least and greatest element of a non-empty list of integers. *)
Definition least (first : Z) (others : list Z) : Z := fold_left Z.min others first.
Definition greatest (first : Z) (others : list Z) : Z := fold_left Z.max others first.

(** The ways a run of the read loop can stand once its calls of
    onPacket are made: suspended at a read; returned through [finally],
    possibly after reporting one error; or returned after the abort
    listener has cancelled the reader. *)
Inductive Ending (hasOnError : bool) (signal : option bool)
  : Status -> list Effect -> Prop :=
| EndAwaiting :
    signal <> Some true -> Ending hasOnError signal AwaitingRead []
| EndBreak :
    Ending hasOnError signal Returned (log (finally signal []))
| EndError (err : JsError) :
    isAbort err = false -> hasOnError = true ->
    Ending hasOnError signal Returned (CallOnError err :: log (finally signal []))
| EndAbort :
    signal = Some false ->
    Ending hasOnError signal Returned (ReaderCancel :: log (finally (Some true) [])).

(** What startReadLoop does to the signal before it enters the loop. *)
Definition setup (signal : option bool) : list Effect :=
  match signal with
  | Some true => [ReaderCancel]
  | Some false => [AddAbortListener]
  | None => []
  end.

(** What the loop does with one frame when [onPacket], called after
    [history], does not abort: the call, and the report of what it threw
    if an onError was passed. *)
Definition frameCalls (h : Callbacks.Handlers) (history : list Effect) (frame : list byte)
  : list Effect :=
  CallOnPacket (decode frame)
  :: match Callbacks.throws (Callbacks.onPacket h history (decode frame)),
           Callbacks.onError h with
     | Some e, Some _ => [CallOnError e]
     | _, _ => []
     end.

(** Every chart of the uPlot component has been given the series and
    the range of its buffer. *)
Definition upToDate {num : Type} `{JsNumber num} (c : Uplot.Component num) : Prop :=
  forall ch b,
    channel (Uplot.buffersRef c) ch = Some b ->
    Uplot.xs (Uplot.plotRefs c ch) = Uplot.buildX /\
    Uplot.series (Uplot.plotRefs c ch) = Uplot.buildY b /\
    Uplot.yrange (Uplot.plotRefs c ch)
    = computeYDomain (map fromZ b) (Uplot.autoScaleState c).

(* ===================================================================== *)
(** ** Values of binary64 numbers *)
(* ===================================================================== *)

(** The properties of [computeYDomain] in binary64 are stated on the
    primitive operations and proved from their specification
    ([FloatAxioms]) over [SpecFloat].  Values are compared as integers on
    one scale: a finite number [m * 2^e] is the integer
    [m * 2^(e + 2148)], which also holds the exact product of any two
    finite numbers. *)

(** The weight of exponent [e] on that scale. *)
Definition weight (e : Z) : Z := 2 ^ (e + 2148).

(** The scaled value of a finite number; infinities and NaN have none. *)
Definition scaledValue (x : spec_float) : option Z :=
  match x with
  | S754_zero _ => Some 0
  | S754_finite s m e => Some (cond_Zopp s (Zpos m * weight e))
  | _ => None
  end.

(** [x] is a finite binary64 number of value [v / 2^2148]. *)
Definition HasValue (x : float) (v : Z) : Prop := scaledValue (Prim2SF x) = Some v.

(** A number the format holds exactly: at most 53 significant bits at
    an exponent of the format. *)
Definition Representable (W : Z) : Prop :=
  exists c ec, 0 <= c < 2 ^ 53 /\ -1074 <= ec <= 971 /\ Z.abs W = c * weight ec.

(** The state of the right shift of [SpecFloat] after [j] steps on [k]:
    the quotient, and no round or sticky bit when nothing was lost. *)
Definition shiftedBy (k : Z) (j : Z) (mrs : shr_record) : Prop :=
  shr_m mrs = k / 2 ^ j /\
  (k mod 2 ^ j = 0 -> shr_r mrs = false /\ shr_s mrs = false).

(* ===================================================================== *)
(** * Properties *)
(* ===================================================================== *)

(** ** Bytes and numbers *)

Lemma byte_to_Z_range (b : byte) : 0 <= byte_to_Z b < 256.
Proof.
  unfold byte_to_Z. pose proof (Byte.to_N_bounded b) as Hb. lia.
Qed.

Lemma Z_to_byte_to_Z (b : byte) : Z_to_byte (byte_to_Z b) = b.
Proof.
  unfold Z_to_byte. pose proof (byte_to_Z_range b) as Hb.
  rewrite Z.mod_small by exact Hb.
  unfold byte_to_Z. rewrite N2Z.id, Byte.of_to_N. reflexivity.
Qed.

Lemma byte_to_Z_to_byte (z : Z) : byte_to_Z (Z_to_byte z) = z mod 256.
Proof.
  unfold Z_to_byte, byte_to_Z.
  pose proof (Z.mod_pos_bound z 256 eq_refl) as Hm.
  destruct (Byte.of_N (Z.to_N (z mod 256))) as [b|] eqn:Hof.
  - apply Byte.to_of_N in Hof. rewrite Hof. lia.
  - apply Byte.of_N_None_iff in Hof. lia.
Qed.

Lemma map_Z_to_byte_to_Z (bytes : list byte) :
  map Z_to_byte (map byte_to_Z bytes) = bytes.
Proof.
  induction bytes as [|b bytes IH]; simpl; [reflexivity|].
  now rewrite Z_to_byte_to_Z, IH.
Qed.

(** Little-endian decoding inverts little-endian encoding, up to ToUint32. *)
Lemma numericLE_bytesLE32 (v : Z) : numericLE (bytesLE32 v) = v mod 2 ^ 32.
Proof.
  unfold bytesLE32. cbn [numericLE].
  rewrite !byte_to_Z_to_byte.
  set (w := v mod 2 ^ 32).
  assert (Hw : 0 <= w < 2 ^ 32) by (apply Z.mod_pos_bound; reflexivity).
  change (2 ^ 8) with 256. change (2 ^ 16) with (256 * 256).
  change (2 ^ 24) with (256 * (256 * 256)). change (2 ^ 32) with 4294967296 in Hw.
  rewrite <- !Z.div_div by lia.
  pose proof (Z.div_mod w 256 ltac:(lia)) as H0.
  pose proof (Z.div_mod (w / 256) 256 ltac:(lia)) as H1.
  pose proof (Z.div_mod (w / 256 / 256) 256 ltac:(lia)) as H2.
  assert (H3 : (w / 256 / 256 / 256) mod 256 = w / 256 / 256 / 256).
  { apply Z.mod_small. split.
    - repeat apply Z.div_pos; lia.
    - repeat (apply Z.div_lt_upper_bound; [lia|]). lia. }
  lia.
Qed.

(** ** parsePacket *)

Lemma window_length (buffer : ArrayBuffer) (offset : Z) :
  0 <= offset -> offset + PACKET_SIZE <= byteLength buffer ->
  length (window buffer offset) = 16%nat.
Proof.
  unfold window, byteLength, PACKET_SIZE. intros Ho Hlen.
  rewrite length_firstn, length_skipn. lia.
Qed.

Lemma rawBytes_window (buffer : ArrayBuffer) (offset k : Z) :
  0 <= offset -> offset + PACKET_SIZE <= byteLength buffer ->
  0 <= k -> k + 4 <= 16 ->
  rawBytes buffer (offset + k) 4
  = Some (firstn 4 (skipn (Z.to_nat k) (window buffer offset))).
Proof.
  unfold byteLength, PACKET_SIZE. intros Ho Hlen Hk Hk4.
  unfold rawBytes, window.
  destruct (offset + k <? 0) eqn:Hneg; [apply Z.ltb_lt in Hneg; lia|].
  replace (Z.to_nat (offset + k)) with (Z.to_nat k + Z.to_nat offset)%nat by lia.
  rewrite <- skipn_skipn, skipn_firstn_comm, firstn_firstn.
  replace (Nat.min 4 (16 - Z.to_nat k)) with 4%nat by lia.
  rewrite length_firstn, !length_skipn.
  replace (Nat.min 4 (length buffer - Z.to_nat offset - Z.to_nat k)) with 4%nat by lia.
  reflexivity.
Qed.

(** Inside its bounds parsePacket returns the decoding of the sixteen
    bytes at [offset]. *)
Lemma parsePacket_window (buffer : ArrayBuffer) (offset : Z) :
  0 <= offset -> offset + PACKET_SIZE <= byteLength buffer ->
  parsePacket buffer offset = Ok (decode (window buffer offset)).
Proof.
  intros Ho Hlen. unfold parsePacket.
  destruct (byteLength buffer <? offset + PACKET_SIZE) eqn:Hg;
    [apply Z.ltb_lt in Hg; lia|].
  unfold new_DataView.
  destruct (offset <? 0) eqn:H1; [apply Z.ltb_lt in H1; lia|].
  destruct (byteLength buffer <? offset) eqn:H2;
    [apply Z.ltb_lt in H2; unfold PACKET_SIZE in *; lia|].
  change (PACKET_SIZE <? 0) with false. cbv iota.
  rewrite Hg. cbn [bind].
  unfold getUint32. cbn [dv_byteLength dv_buffer dv_byteOffset].
  change (0 <? 0) with false.
  change (BYTES_PER_CHANNEL <? 0) with false.
  change (BYTES_PER_CHANNEL * 2 <? 0) with false.
  change (BYTES_PER_CHANNEL * 3 <? 0) with false.
  change (PACKET_SIZE <? 0 + 4) with false.
  change (PACKET_SIZE <? BYTES_PER_CHANNEL + 4) with false.
  change (PACKET_SIZE <? BYTES_PER_CHANNEL * 2 + 4) with false.
  change (PACKET_SIZE <? BYTES_PER_CHANNEL * 3 + 4) with false.
  cbv iota.
  rewrite !rawBytes_window by (unfold BYTES_PER_CHANNEL; lia).
  reflexivity.
Qed.

(** The explicit guard is the only thing that depends on the length
    alone: it fires exactly on a buffer that ends before [offset + 16]. *)
Lemma parsePacket_guard (buffer : ArrayBuffer) (offset : Z) :
  byteLength buffer < offset + PACKET_SIZE ->
  parsePacket buffer offset
  = Throw (RangeError (FrameTooShort offset (byteLength buffer))).
Proof.
  intros Hlt. unfold parsePacket.
  apply Z.ltb_lt in Hlt. rewrite Hlt. reflexivity.
Qed.

(** A negative offset that passes the guard is refused by the DataView
    constructor. *)
Lemma parsePacket_negative (buffer : ArrayBuffer) (offset : Z) :
  offset < 0 -> offset + PACKET_SIZE <= byteLength buffer ->
  parsePacket buffer offset = Throw (RangeError ViewBounds).
Proof.
  intros Hneg Hlen. unfold parsePacket.
  destruct (byteLength buffer <? offset + PACKET_SIZE) eqn:Hg;
    [apply Z.ltb_lt in Hg; lia|].
  unfold new_DataView. apply Z.ltb_lt in Hneg. rewrite Hneg. reflexivity.
Qed.

Lemma window_length_inv (buffer : ArrayBuffer) (offset : Z) :
  0 <= offset -> length (window buffer offset) = 16%nat ->
  offset + PACKET_SIZE <= byteLength buffer.
Proof.
  unfold window, byteLength, PACKET_SIZE. intros Ho.
  rewrite length_firstn, length_skipn. lia.
Qed.

Lemma window_app (pre frame post : list byte) :
  length frame = 16%nat ->
  window (pre ++ frame ++ post) (Z.of_nat (length pre)) = frame.
Proof.
  intros Hf. unfold window. rewrite Nat2Z.id.
  rewrite skipn_app, skipn_all, Nat.sub_diag. cbn [app skipn].
  rewrite <- Hf. rewrite firstn_app, firstn_all, Nat.sub_diag, firstn_O.
  apply app_nil_r.
Qed.

(** Destructs a list whose length is a known numeral into its elements. *)
Ltac explode l H :=
  repeat (destruct l as [|? l]; cbn [length] in H; try discriminate H;
          try (exfalso; lia)).

Lemma writeChannels_block (block : ArrayBuffer) (a b c d : Z) :
  length block = 16%nat ->
  writeChannels block a b c d
  = Ok (bytesLE32 a ++ bytesLE32 b ++ bytesLE32 c ++ bytesLE32 d).
Proof.
  intros Hlen. explode block Hlen. reflexivity.
Qed.

Lemma decode_bytesLE32 (a b c d : Z) :
  decode (bytesLE32 a ++ bytesLE32 b ++ bytesLE32 c ++ bytesLE32 d)
  = mkPacketData (a mod 2 ^ 32) (b mod 2 ^ 32) (c mod 2 ^ 32) (d mod 2 ^ 32).
Proof.
  unfold decode.
  change (firstn 4 (bytesLE32 a ++ bytesLE32 b ++ bytesLE32 c ++ bytesLE32 d))
    with (bytesLE32 a).
  change (firstn 4 (skipn 4 (bytesLE32 a ++ bytesLE32 b ++ bytesLE32 c ++ bytesLE32 d)))
    with (bytesLE32 b).
  change (firstn 4 (skipn 8 (bytesLE32 a ++ bytesLE32 b ++ bytesLE32 c ++ bytesLE32 d)))
    with (bytesLE32 c).
  change (firstn 4 (skipn 12 (bytesLE32 a ++ bytesLE32 b ++ bytesLE32 c ++ bytesLE32 d)))
    with (bytesLE32 d).
  now rewrite !numericLE_bytesLE32.
Qed.

(** C2. Round trip: for four unsigned 32-bit values, decoding the
    16-byte block obtained by writing them little-endian at offsets 0,
    4, 8 and 12 returns exactly those four values. *)
Theorem parsePacket_roundtrip (block : ArrayBuffer) (a b c d : Z) :
  length block = 16%nat ->
  0 <= a < 2 ^ 32 -> 0 <= b < 2 ^ 32 -> 0 <= c < 2 ^ 32 -> 0 <= d < 2 ^ 32 ->
  exists encoded,
    writeChannels block a b c d = Ok encoded /\
    length encoded = 16%nat /\
    parsePacket encoded 0 = Ok (mkPacketData a b c d).
Proof.
  intros Hlen Ha Hb Hc Hd.
  exists (bytesLE32 a ++ bytesLE32 b ++ bytesLE32 c ++ bytesLE32 d).
  split; [now apply writeChannels_block|]. split; [reflexivity|].
  rewrite parsePacket_window by (cbv; congruence).
  change (window (bytesLE32 a ++ bytesLE32 b ++ bytesLE32 c ++ bytesLE32 d) 0)
    with (bytesLE32 a ++ bytesLE32 b ++ bytesLE32 c ++ bytesLE32 d).
  rewrite decode_bytesLE32.
  now rewrite !Z.mod_small by assumption.
Qed.

Lemma parsePacket_roundtrip_witness :
  exists encoded,
    writeChannels (new_ArrayBuffer 16) 1 4294967295 0 305419896 = Ok encoded /\
    length encoded = 16%nat /\
    parsePacket encoded 0 = Ok (mkPacketData 1 4294967295 0 305419896).
Proof.
  apply (@parsePacket_roundtrip (new_ArrayBuffer 16) 1 4294967295 0 305419896);
    [reflexivity | lia | lia | lia | lia].
Defined.

(** Claim C5 as stated fails at the integer offset -1: a 16-byte buffer
    satisfies byteLength >= offset + 16 there, yet parsePacket throws
    (the DataView constructor refuses the negative offset). *)
Lemma parsePacket_negative_offset_throws :
  byteLength (new_ArrayBuffer 16) >= (-1) + PACKET_SIZE /\
  parsePacket (new_ArrayBuffer 16) (-1) = Throw (RangeError ViewBounds).
Proof. split; [cbv; congruence | reflexivity]. Qed.

(** C5 (amended). For an integral offset >= 0, parsePacket fails if and
    only if byteLength < offset + 16, and the failure is its own
    too-short RangeError; under byteLength >= offset + 16 it does not
    fail, returns the decoding of bytes offset .. offset+15 and never
    reads out of bounds; a failure carries no PacketData. *)
Theorem parsePacket_failure (buffer : ArrayBuffer) (offset : Z) :
  0 <= offset ->
  (isOk (parsePacket buffer offset) = false
   <-> byteLength buffer < offset + PACKET_SIZE) /\
  (parsePacket buffer offset
   = Throw (RangeError (FrameTooShort offset (byteLength buffer)))
   <-> byteLength buffer < offset + PACKET_SIZE) /\
  (offset + PACKET_SIZE <= byteLength buffer ->
   parsePacket buffer offset = Ok (decode (window buffer offset))) /\
  parsePacket buffer offset <> Throw OutOfBoundsRead /\
  (forall e, parsePacket buffer offset = Throw e ->
             forall data, parsePacket buffer offset <> Ok data).
Proof.
  intros Hpos.
  destruct (Z.lt_ge_cases (byteLength buffer) (offset + PACKET_SIZE)) as [Hlt|Hge].
  - pose proof (parsePacket_guard buffer offset Hlt) as Hg.
    rewrite Hg. repeat split; intros; try congruence; try lia; try reflexivity.
  - rewrite (parsePacket_window buffer Hpos Hge).
    repeat split; intros; try congruence; try lia; try discriminate.
Qed.

Lemma parsePacket_failure_witness :
  isOk (parsePacket (new_ArrayBuffer 15) 0) = false /\
  parsePacket (new_ArrayBuffer 20) 4 = Ok (mkPacketData 0 0 0 0).
Proof.
  pose proof (@parsePacket_failure (new_ArrayBuffer 15) 0 ltac:(lia)) as H15.
  pose proof (@parsePacket_failure (new_ArrayBuffer 20) 4 ltac:(lia)) as H20.
  split.
  - apply (proj1 H15). cbv. reflexivity.
  - apply (proj1 (proj2 (proj2 H20))). cbv. congruence.
Defined.

(** Claim C10 as stated fails at the integer offset -4: a 32-byte
    buffer satisfies byteLength >= offset + 16 there and is rejected. *)
Lemma parsePacket_long_block_negative_offset :
  byteLength (new_ArrayBuffer 32) >= (-4) + PACKET_SIZE /\
  isOk (parsePacket (new_ArrayBuffer 32) (-4)) = false.
Proof. split; [cbv; congruence | reflexivity]. Qed.

(** C10 (amended). For an integral offset >= 0 parsePacket accepts
    every buffer with byteLength >= offset + 16, however long: it
    succeeds, its result is the decoding of bytes offset .. offset+15,
    and it is the same for every buffer that agrees on those sixteen
    bytes. *)
Theorem parsePacket_long_block (buffer : ArrayBuffer) (offset : Z) :
  0 <= offset -> offset + PACKET_SIZE <= byteLength buffer ->
  parsePacket buffer offset = Ok (decode (window buffer offset)) /\
  (forall buffer' : ArrayBuffer,
      window buffer' offset = window buffer offset ->
      parsePacket buffer' offset = parsePacket buffer offset) /\
  (forall pre frame post : list byte,
      length frame = 16%nat ->
      parsePacket (pre ++ frame ++ post) (Z.of_nat (length pre)) = Ok (decode frame)).
Proof.
  intros Ho Hlen. split; [|split].
  - now apply parsePacket_window.
  - intros buffer' Hw.
    rewrite (parsePacket_window buffer Ho Hlen).
    rewrite parsePacket_window; [now rewrite Hw | exact Ho |].
    apply window_length_inv; [exact Ho|].
    rewrite Hw. now apply window_length.
  - intros pre frame post Hf.
    rewrite parsePacket_window.
    + now rewrite window_app.
    + lia.
    + unfold byteLength, PACKET_SIZE. rewrite !length_app. lia.
Qed.

Lemma parsePacket_long_block_witness :
  parsePacket (new_ArrayBuffer 40) 8 = Ok (mkPacketData 0 0 0 0).
Proof.
  apply (proj1 (@parsePacket_long_block (new_ArrayBuffer 40) 8
                  ltac:(lia) ltac:(cbv; congruence))).
Defined.

(** ** computeYDomain *)

(** C4. With autoscale on, in binary64 arithmetic, the window
    [10, 20, 30] has pad (30 - 10) * 0.05 = 1 and range (9, 31), and the
    window [5] has pad 0 replaced by 1 and range (4, 6); exact arithmetic
    gives the same numbers. *)
Theorem computeYDomain_examples :
  nmul (nsub (fromZ 30) (fromZ 10)) lit_0_05 = (fromZ 1 : float) /\
  computeYDomain (num:=float) (map fromZ [10; 20; 30]) true = (fromZ 9, fromZ 31) /\
  nmul (nsub (fromZ 5) (fromZ 5)) lit_0_05 = (fromZ 0 : float) /\
  computeYDomain (num:=float) (map fromZ [5]) true = (fromZ 4, fromZ 6) /\
  Qeq (fst (computeYDomain (num:=Q) (map fromZ [10; 20; 30]) true)) (fromZ 9) /\
  Qeq (snd (computeYDomain (num:=Q) (map fromZ [10; 20; 30]) true)) (fromZ 31) /\
  Qeq (fst (computeYDomain (num:=Q) (map fromZ [5]) true)) (fromZ 4) /\
  Qeq (snd (computeYDomain (num:=Q) (map fromZ [5]) true)) (fromZ 6).
Proof.
  repeat split; vm_compute; reflexivity.
Qed.

(** *** Rounding in binary64 *)

(** [FloatAxioms] specifies each primitive operation as the exact
    operation followed by the rounding of [SpecFloat].  What the range
    needs from rounding is that it never crosses a number the format
    holds: when the exact result is on one side of such a number, the
    rounded result is on the same side or on the number itself.  This is
    proved here from the definitions of [SpecFloat], first for the shift
    and the rounding of a mantissa, then for the operations. *)

Lemma some_eq {A} (a b : A) : Some a = Some b -> a = b.
Proof. congruence. Qed.

Lemma fexp_eq (e : Z) : fexp prec emax e = Z.max (e - 53) (-1074).
Proof. reflexivity. Qed.

(** A positive number of [d] binary digits lies between [2^(d-1)] and
    [2^d]. *)
Lemma digits2_pos_bounds (p : positive) :
  2 ^ (Zpos (digits2_pos p) - 1) <= Zpos p < 2 ^ Zpos (digits2_pos p).
Proof.
  induction p as [p IH | p IH |]; cbn [digits2_pos].
  - rewrite Pos2Z.inj_succ.
    replace (Z.succ (Zpos (digits2_pos p)) - 1) with (Z.succ (Zpos (digits2_pos p) - 1)) by lia.
    rewrite !Z.pow_succ_r by lia. lia.
  - rewrite Pos2Z.inj_succ.
    replace (Z.succ (Zpos (digits2_pos p)) - 1) with (Z.succ (Zpos (digits2_pos p) - 1)) by lia.
    rewrite !Z.pow_succ_r by lia. lia.
  - cbn. lia.
Qed.

(** An invariant indexed by the number of steps survives the iteration
    the right shift uses. *)
Lemma iter_pos_inv {A} (f : A -> A) (Inv : Z -> A -> Prop) :
  (forall j x, 0 <= j -> Inv j x -> Inv (j + 1) (f x)) ->
  forall p j x, 0 <= j -> Inv j x -> Inv (j + Zpos p) (iter_pos f p x).
Proof.
  intros Hstep. induction p as [p IH | p IH |]; intros j x Hj Hx; cbn [iter_pos].
  - replace (j + Zpos p~1) with (j + 1 + Zpos p + Zpos p) by lia.
    apply IH; [lia|]. apply IH; [lia|]. now apply Hstep.
  - replace (j + Zpos p~0) with (j + Zpos p + Zpos p) by lia.
    apply IH; [lia|]. now apply IH.
  - now apply Hstep.
Qed.

(** One step of the right shift halves the mantissa, keeps the bit
    that falls off as round bit and folds the old round bit into the
    sticky bit. *)
Lemma shr_1_spec (mrs : shr_record) :
  0 <= shr_m mrs ->
  shr_m (shr_1 mrs) = shr_m mrs / 2 /\
  shr_r (shr_1 mrs) = Z.odd (shr_m mrs) /\
  shr_s (shr_1 mrs) = shr_r mrs || shr_s mrs.
Proof.
  destruct mrs as [m r s]. cbn [shr_m shr_r shr_s]. intros Hm.
  destruct m as [|p|p]; [| |lia].
  - cbn. auto.
  - destruct p as [p|p|]; cbn [shr_1 shr_m shr_r shr_s].
    + split; [|split; reflexivity].
      rewrite Pos2Z.inj_xI. apply Z.div_unique with (r := 1); lia.
    + split; [|split; reflexivity].
      rewrite Pos2Z.inj_xO. apply Z.div_unique with (r := 0); lia.
    + split; [reflexivity | split; reflexivity].
Qed.

Lemma shiftedBy_step (k : Z) (j : Z) (mrs : shr_record) :
  0 <= k -> 0 <= j -> shiftedBy k j mrs -> shiftedBy k (j + 1) (shr_1 mrs).
Proof.
  intros Hk Hj [Hm Hex].
  assert (Hpos : 0 < 2 ^ j) by (apply Z.pow_pos_nonneg; lia).
  assert (Hm0 : 0 <= shr_m mrs) by (rewrite Hm; apply Z.div_pos; lia).
  destruct (@shr_1_spec mrs Hm0) as (H1 & H2 & H3).
  assert (Hpow : 2 ^ (j + 1) = 2 ^ j * 2) by (rewrite Z.pow_add_r by lia; reflexivity).
  split.
  - rewrite H1, Hm, Hpow. rewrite Z.div_div by lia. reflexivity.
  - intros Hz. rewrite Hpow in Hz.
    apply Z.mod_divide in Hz; [|lia]. destruct Hz as [a Ha].
    assert (Hz' : k mod 2 ^ j = 0).
    { apply Z.mod_divide; [lia|]. exists (a * 2). lia. }
    destruct (Hex Hz') as [Hr Hs].
    rewrite H2, H3, Hr, Hs, Hm. split; [|reflexivity].
    replace k with ((a * 2) * 2 ^ j) by lia.
    rewrite Z.div_mul by lia. rewrite Z.mul_comm, Z.odd_mul. reflexivity.
Qed.

(** A right shift by [n] leaves the quotient by [2^n]. *)
Lemma shr_spec (k e n : Z) :
  0 <= k -> 0 <= n ->
  snd (shr (Build_shr_record k false false) e n) = e + n /\
  shiftedBy k n (fst (shr (Build_shr_record k false false) e n)).
Proof.
  intros Hk Hn. destruct n as [|p|p]; [| |lia]; cbn [shr fst snd].
  - split; [lia|]. split; cbn [shr_m shr_r shr_s].
    + now rewrite Z.pow_0_r, Z.div_1_r.
    + auto.
  - split; [reflexivity|].
    change (Z.pos p) with (0 + Z.pos p).
    apply (@iter_pos_inv _ shr_1 (shiftedBy k)).
    + intros j x Hj Hx. now apply shiftedBy_step.
    + lia.
    + split; cbn [shr_m shr_r shr_s].
      * now rewrite Z.pow_0_r, Z.div_1_r.
      * auto.
Qed.

(** Rounding to nearest even moves the quotient up by at most one, and
    not at all when the shift lost nothing. *)
Lemma round_nearest_even_spec (mrs : shr_record) (k n : Z) :
  shiftedBy k n mrs ->
  let mr := round_nearest_even (shr_m mrs) (loc_of_shr_record mrs) in
  k / 2 ^ n <= mr <= k / 2 ^ n + 1 /\
  (k mod 2 ^ n = 0 -> mr = k / 2 ^ n).
Proof.
  intros [Hm Hex]. destruct mrs as [m r s]. cbn [shr_m shr_r shr_s] in *.
  subst m. cbv zeta. split.
  - destruct r, s; cbn [loc_of_shr_record round_nearest_even]; try lia.
    destruct (Z.even (k / 2 ^ n)); lia.
  - intros Hz. destruct (Hex Hz) as [-> ->]. reflexivity.
Qed.

(** Outcome of the rounding of a positive number whose exponent is not
    above the exponent of its format. *)
Lemma binary_round_aux_spec (k : positive) (e : Z) :
  let t := fexp prec emax (Zpos (digits2_pos k) + e) in
  e <= t ->
  exists mr : Z,
    Zpos k / 2 ^ (t - e) <= mr <= Zpos k / 2 ^ (t - e) + 1 /\
    (Zpos k mod 2 ^ (t - e) = 0 -> mr = Zpos k / 2 ^ (t - e)) /\
    (-1074 < t -> 2 ^ 52 <= Zpos k / 2 ^ (t - e)) /\
    ((mr = 0 /\
      binary_round_aux prec emax false (Zpos k) e loc_Exact = S754_zero false) \/
     (exists m' e',
         Zpos m' * 2 ^ (e' - t) = mr /\ t <= e' /\
         (-1074 < e' -> 2 ^ 52 <= Zpos m') /\
         binary_round_aux prec emax false (Zpos k) e loc_Exact
         = if e' <=? 971 then S754_finite false m' e' else S754_infinity false)).
Proof.
  intros t Het.
  pose proof (digits2_pos_bounds k) as Hd.
  set (d := Zpos (digits2_pos k)) in *.
  assert (Ht : t = Z.max (d + e - 53) (-1074)) by (unfold t; now rewrite fexp_eq).
  assert (Hdpos : 0 < d) by (unfold d; lia).
  unfold binary_round_aux, shr_fexp. cbn [Zdigits2]. fold d. fold t.
  cbn [shr_record_of_loc].
  destruct (@shr_spec (Zpos k) e (t - e) ltac:(lia) ltac:(lia)) as [He1 Hsh].
  destruct (shr {| shr_m := Z.pos k; shr_r := false; shr_s := false |} e (t - e))
    as [mrs e1]. cbn [fst snd] in He1, Hsh.
  assert (He1' : e1 = t) by lia. clear He1. subst e1.
  destruct (@round_nearest_even_spec mrs (Zpos k) (t - e) Hsh) as [Hmr Hexact].
  set (mr := round_nearest_even (shr_m mrs) (loc_of_shr_record mrs)) in *.
  set (n := t - e) in *.
  assert (Hn : 0 <= n) by (unfold n; lia).
  assert (Hpn : 0 < 2 ^ n) by (apply Z.pow_pos_nonneg; lia).
  set (q := Zpos k / 2 ^ n) in *.
  assert (Hq0 : 0 <= q) by (apply Z.div_pos; lia).
  assert (Hq53 : q < 2 ^ 53).
  { apply Z.div_lt_upper_bound; [lia|].
    rewrite <- Z.pow_add_r by lia.
    apply Z.lt_le_trans with (2 ^ d); [lia|].
    apply Z.pow_le_mono_r; lia. }
  assert (Hq52 : -1074 < t -> 2 ^ 52 <= q).
  { intros Hnorm. apply Z.div_le_lower_bound; [lia|].
    rewrite <- Z.pow_add_r by lia.
    replace (n + 52) with (d - 1) by lia. lia. }
  exists mr. split; [exact Hmr|]. split; [exact Hexact|]. split; [exact Hq52|].
  destruct mr as [|pm|pm] eqn:Hmreq; [left | right | lia].
  - split; [reflexivity|].
    cbn [Zdigits2].
    match goal with
    | |- context [shr ?r t ?n2] =>
        assert (Hres : shr r t n2 = (r, t));
        [assert (Hn2 : n2 <= 0) by (rewrite fexp_eq; lia);
         destruct n2 as [|p2|p2]; [| lia |]; reflexivity |]
    end.
    rewrite Hres. reflexivity.
  - cbn [Zdigits2].
    pose proof (digits2_pos_bounds pm) as Hd2.
    set (d2 := Zpos (digits2_pos pm)) in *.
    assert (Hd2le : d2 <= 54).
    { destruct (Z.le_gt_cases d2 54) as [H|H]; [exact H|].
      exfalso. assert (2 ^ 54 <= 2 ^ (d2 - 1)) by (apply Z.pow_le_mono_r; lia).
      assert (2 ^ 53 < 2 ^ 54) by (apply Z.pow_lt_mono_r; lia). lia. }
    destruct (Z.eq_dec d2 54) as [H54 | Hlt54].
    + (* the rounding carried into bit 54 *)
      assert (Hpm : Zpos pm = 2 ^ 53).
      { rewrite H54 in Hd2. change (54 - 1) with 53 in Hd2. lia. }
      assert (Hn2 : fexp prec emax (d2 + t) - t = 1) by (rewrite fexp_eq; lia).
      rewrite Hn2.
      assert (Hpm' : pm = 9007199254740992%positive) by (apply Pos2Z.inj; rewrite Hpm; reflexivity).
      subst pm. cbn [shr iter_pos shr_1 shr_m orb].
      exists 4503599627370496%positive, (t + 1).
      replace (t + 1 - t) with 1 by lia.
      split; [reflexivity|]. split; [lia|]. split; [intros _; cbv; congruence|].
      reflexivity.
    + assert (Hn2 : fexp prec emax (d2 + t) - t <= 0) by (rewrite fexp_eq; lia).
      assert (Hres : shr {| shr_m := Z.pos pm; shr_r := false; shr_s := false |} t
                         (fexp prec emax (d2 + t) - t)
                     = ({| shr_m := Z.pos pm; shr_r := false; shr_s := false |}, t)).
      { destruct (fexp prec emax (d2 + t) - t) as [|p2|p2]; [| lia |]; reflexivity. }
      rewrite Hres. cbn [shr_m].
      exists pm, t. rewrite Z.sub_diag, Z.pow_0_r, Z.mul_1_r.
      split; [reflexivity|]. split; [lia|]. split; [|reflexivity].
      intros Hnorm. specialize (Hq52 Hnorm). lia.
Qed.

(** ** Powers of two on a common scale *)

Lemma weight_pos (e : Z) : -2148 <= e -> 0 < weight e.
Proof. intros He. unfold weight. apply Z.pow_pos_nonneg; lia. Qed.

Lemma weight_add (e n : Z) : -2148 <= e -> 0 <= n -> weight (e + n) = weight e * 2 ^ n.
Proof.
  intros He Hn. unfold weight. rewrite <- Z.pow_add_r by lia. f_equal. lia.
Qed.

Lemma weight_split (a b : Z) : -2148 <= a <= b -> weight b = weight a * 2 ^ (b - a).
Proof.
  intros H. rewrite <- (@weight_add a (b - a)) by lia. f_equal. lia.
Qed.

Lemma weight_double (a b : Z) : -2148 <= a < b -> 2 * weight a <= weight b.
Proof.
  intros H. rewrite (@weight_split a b) by lia.
  assert (2 ^ 1 <= 2 ^ (b - a)) by (apply Z.pow_le_mono_r; lia).
  pose proof (@weight_pos a ltac:(lia)). change (2 ^ 1) with 2 in *. nia.
Qed.

Section Brackets.

Variables (k : positive) (e : Z).
Hypothesis He : -2148 <= e.
Hypothesis Hfmt : e <= fexp prec emax (Zpos (digits2_pos k) + e).

(** A number [c * 2^ec] that the format holds exactly. *)
Variables (c ec : Z).
Hypothesis Hc : 0 < c < 2 ^ 53.

(** Rounding does not fall below a representable number that the exact
    value is not below. *)
Lemma round_aux_up :
  -1074 <= ec ->
  c * weight ec <= Zpos k * weight e ->
  binary_round_aux prec emax false (Zpos k) e loc_Exact = S754_infinity false \/
  exists m' e',
    binary_round_aux prec emax false (Zpos k) e loc_Exact = S754_finite false m' e' /\
    -1074 <= e' /\ c * weight ec <= Zpos m' * weight e'.
Proof.
  intros Hec HW.
  destruct (@binary_round_aux_spec k e Hfmt) as (mr & Hmr & Hexact & Hq52 & Hres).
  set (t := fexp prec emax (Zpos (digits2_pos k) + e)) in *.
  assert (Ht : -1074 <= t) by (unfold t; rewrite fexp_eq; lia).
  set (n := t - e) in *. set (q := Zpos k / 2 ^ n) in *.
  assert (Hn : 0 <= n) by (unfold n; lia).
  assert (Hpn : 0 < 2 ^ n) by (apply Z.pow_pos_nonneg; lia).
  assert (Hpt : weight t = weight e * 2 ^ n) by (unfold n; apply weight_split; lia).
  pose proof (@weight_pos e He) as Hpe.
  pose proof (@weight_pos t ltac:(lia)) as Hptpos.
  pose proof (@weight_pos ec ltac:(lia)) as Hpec.
  assert (Hk : Zpos k < (q + 1) * 2 ^ n).
  { unfold q. pose proof (Z.mul_succ_div_gt (Zpos k) (2 ^ n) Hpn). lia. }
  assert (Hgoal : c * weight ec <= mr * weight t).
  { destruct (Z.le_gt_cases t ec) as [Hcase | Hcase].
    - rewrite (@weight_split t ec) in * by lia.
      assert (0 < 2 ^ (ec - t)) by (apply Z.pow_pos_nonneg; lia).
      assert (c * 2 ^ (ec - t) < q + 1) by nia.
      nia.
    - specialize (Hq52 ltac:(lia)).
      pose proof (@weight_double ec t ltac:(lia)). nia. }
  destruct Hres as [[Hz Hr] | (m' & e' & Hm' & He' & Hnorm & Hr)].
  - exfalso. subst mr. nia.
  - destruct (e' <=? 971) eqn:Hov; [right | now left].
    exists m', e'. split; [exact Hr|]. split; [lia|].
    rewrite (@weight_split t e') by lia. nia.
Qed.

(** Rounding does not rise above a representable number that the exact
    value is not above, and does not overflow then. *)
Lemma round_aux_down :
  -1074 <= ec <= 971 ->
  Zpos k * weight e <= c * weight ec ->
  binary_round_aux prec emax false (Zpos k) e loc_Exact = S754_zero false \/
  exists m' e',
    binary_round_aux prec emax false (Zpos k) e loc_Exact = S754_finite false m' e' /\
    -1074 <= e' /\ Zpos m' * weight e' <= c * weight ec.
Proof.
  intros Hec HW.
  destruct (@binary_round_aux_spec k e Hfmt) as (mr & Hmr & Hexact & Hq52 & Hres).
  set (t := fexp prec emax (Zpos (digits2_pos k) + e)) in *.
  assert (Ht : -1074 <= t) by (unfold t; rewrite fexp_eq; lia).
  set (n := t - e) in *. set (q := Zpos k / 2 ^ n) in *.
  assert (Hn : 0 <= n) by (unfold n; lia).
  assert (Hpn : 0 < 2 ^ n) by (apply Z.pow_pos_nonneg; lia).
  assert (Hpt : weight t = weight e * 2 ^ n) by (unfold n; apply weight_split; lia).
  pose proof (@weight_pos e He) as Hpe.
  pose proof (@weight_pos t ltac:(lia)) as Hptpos.
  pose proof (@weight_pos ec ltac:(lia)) as Hpec.
  assert (Hk : q * 2 ^ n <= Zpos k).
  { unfold q. pose proof (Z.mul_div_le (Zpos k) (2 ^ n) Hpn). lia. }
  assert (Hgoal : mr * weight t <= c * weight ec).
  { destruct (Z.le_gt_cases t ec) as [Hcase | Hcase].
    - rewrite (@weight_split t ec) in * by lia.
      assert (0 < 2 ^ (ec - t)) by (apply Z.pow_pos_nonneg; lia).
      set (C := c * 2 ^ (ec - t)) in *.
      assert (HqC : q <= C) by (unfold C; nia).
      destruct (Z.le_gt_cases mr C) as [Hle | Hgt]; [unfold C in *; nia|].
      exfalso.
      assert (HqC' : q = C) by lia.
      assert (Hkq : Zpos k = q * 2 ^ n) by (unfold C in *; nia).
      assert (Hmod : Zpos k mod 2 ^ n = 0).
      { rewrite Hkq. apply Z.mod_mul. lia. }
      specialize (Hexact Hmod). lia.
    - exfalso. specialize (Hq52 ltac:(lia)).
      pose proof (@weight_double ec t ltac:(lia)). nia. }
  destruct Hres as [[Hz Hr] | (m' & e' & Hm' & He' & Hnorm & Hr)].
  - now left.
  - assert (Hval : Zpos m' * weight e' = mr * weight t).
    { rewrite (@weight_split t e') by lia. nia. }
    destruct (e' <=? 971) eqn:Hov.
    + right. exists m', e'. split; [exact Hr|]. split; [lia|]. lia.
    + exfalso. apply Z.leb_gt in Hov.
      specialize (Hnorm ltac:(lia)).
      pose proof (@weight_double ec e' ltac:(lia)).
      pose proof (@weight_pos e' ltac:(lia)). nia.
Qed.

End Brackets.

(** ** binary_round and binary_normalize *)

Lemma iter_xO_value (m d : positive) :
  Zpos (Pos.iter xO m d) = Zpos m * 2 ^ Zpos d.
Proof.
  induction d as [|d IH] using Pos.peano_ind.
  - cbn. lia.
  - rewrite Pos.iter_succ, Pos2Z.inj_xO, IH, Pos2Z.inj_succ, Z.pow_succ_r by lia. lia.
Qed.

Lemma iter_xO_digits (m d : positive) :
  Zpos (digits2_pos (Pos.iter xO m d)) = Zpos (digits2_pos m) + Zpos d.
Proof.
  induction d as [|d IH] using Pos.peano_ind.
  - cbn [Pos.iter digits2_pos]. lia.
  - rewrite Pos.iter_succ. cbn [digits2_pos]. rewrite Pos2Z.inj_succ, IH. lia.
Qed.

Lemma shl_align_value (m : positive) (e e' : Z) :
  -2148 <= e' <= e ->
  snd (shl_align m e e') = e' /\
  Zpos (fst (shl_align m e e')) * weight e' = Zpos m * weight e /\
  Zpos (digits2_pos (fst (shl_align m e e'))) + e' = Zpos (digits2_pos m) + e.
Proof.
  intros H. unfold shl_align.
  destruct (e' - e) as [|d|d] eqn:Hd; cbn [fst snd]; [| lia |].
  - assert (e' = e) by lia. subst e'. auto.
  - split; [reflexivity|]. rewrite iter_xO_value, iter_xO_digits.
    rewrite (@weight_split e' e) by lia.
    replace (e - e') with (Zpos d) by lia. split; lia.
Qed.

Lemma binary_round_aux_opp (m e : Z) (l : location) :
  binary_round_aux prec emax true m e l
  = SFopp (binary_round_aux prec emax false m e l).
Proof.
  unfold binary_round_aux.
  destruct (shr_fexp prec emax m e l) as [mrs' e'].
  destruct (shr_fexp prec emax _ e' loc_Exact) as [mrs'' e''].
  destruct (shr_m mrs''); [reflexivity | | reflexivity].
  destruct (e'' <=? emax - prec); reflexivity.
Qed.

Lemma scaledValue_opp (x : spec_float) :
  scaledValue (SFopp x) = option_map Z.opp (scaledValue x).
Proof.
  destruct x as [s|s| |s m e]; try reflexivity.
  cbn. destruct s; cbn; f_equal; lia.
Qed.

Lemma Representable_opp (W : Z) : Representable W -> Representable (- W).
Proof. intros (c & ec & H1 & H2 & H3). exists c, ec. now rewrite Z.abs_opp. Qed.

Lemma Representable_0 : Representable 0.
Proof. exists 0, 0. cbn. lia. Qed.

(** [binary_round] first shifts left as far as the format allows, which
    keeps the value. *)
Lemma binary_round_split (s : bool) (m : positive) (e : Z) :
  -1074 <= e ->
  exists k e',
    binary_round prec emax s m e = binary_round_aux prec emax s (Zpos k) e' loc_Exact /\
    -2148 <= e' /\
    e' <= fexp prec emax (Zpos (digits2_pos k) + e') /\
    Zpos k * weight e' = Zpos m * weight e.
Proof.
  intros He. unfold binary_round.
  set (t := fexp prec emax (Zpos (digits2_pos m) + e)).
  assert (Ht : -1074 <= t) by (unfold t; rewrite fexp_eq; lia).
  destruct (Z.le_gt_cases e t) as [Hle | Hgt].
  - assert (Hsh : shl_align m e t = (m, e)).
    { unfold shl_align. destruct (t - e) eqn:Hd; try reflexivity. lia. }
    rewrite Hsh. exists m, e. split; [reflexivity|]. split; [lia|]. split; [exact Hle | reflexivity].
  - destruct (@shl_align_value m e t ltac:(lia)) as (H1 & H2 & H3).
    destruct (shl_align m e t) as [k e'] eqn:Hsh. cbn [fst snd] in *. subst e'.
    exists k, t. split; [reflexivity|]. split; [lia|]. split; [|exact H2].
    rewrite H3. fold t. lia.
Qed.

(** Between two representable numbers the rounded result is finite and
    stays between them. *)
Lemma round_aux_bracket (k : positive) (e W1 W2 : Z) :
  -2148 <= e -> e <= fexp prec emax (Zpos (digits2_pos k) + e) ->
  Representable W1 -> Representable W2 ->
  W1 <= Zpos k * weight e <= W2 ->
  exists v,
    scaledValue (binary_round_aux prec emax false (Zpos k) e loc_Exact) = Some v /\
    W1 <= v <= W2.
Proof.
  intros He Hfmt (c1 & ec1 & Hc1 & Hec1 & HW1) (c2 & ec2 & Hc2 & Hec2 & HW2) [Hlo Hhi].
  pose proof (@weight_pos e He) as Hpe.
  pose proof (@weight_pos ec1 ltac:(lia)) as Hp1.
  pose proof (@weight_pos ec2 ltac:(lia)) as Hp2.
  assert (HW2pos : 0 < W2) by nia.
  assert (HW2eq : W2 = c2 * weight ec2) by lia.
  assert (Hc2pos : 0 < c2) by nia.
  assert (Hdown := @round_aux_down k e He Hfmt c2 ec2 ltac:(lia) Hec2 ltac:(lia)).
  destruct (Z.le_gt_cases W1 0) as [HW1neg | HW1pos].
  - destruct Hdown as [-> | (m' & e'' & -> & He'' & Hle)].
    + exists 0. split; [reflexivity | lia].
    + exists (Zpos m' * weight e''). split; [reflexivity|].
      pose proof (@weight_pos e'' ltac:(lia)). split; [nia | lia].
  - assert (HW1eq : W1 = c1 * weight ec1) by lia.
    assert (Hc1pos : 0 < c1) by nia.
    assert (Hup := @round_aux_up k e He Hfmt c1 ec1 ltac:(lia) ltac:(lia) ltac:(lia)).
    destruct Hdown as [Hz | (m' & e'' & Hr & He'' & Hle)].
    + exfalso. rewrite Hz in Hup.
      destruct Hup as [Hup | (? & ? & Hup & _)]; discriminate.
    + rewrite Hr in Hup. destruct Hup as [Hup | (m2 & e2 & Hup & _ & Hge)];
        [discriminate|].
      injection Hup as <- <-.
      rewrite Hr. exists (Zpos m' * weight e''). split; [reflexivity | lia].
Qed.

Lemma round_pos_bracket (m : positive) (e W1 W2 : Z) :
  -1074 <= e -> Representable W1 -> Representable W2 ->
  W1 <= Zpos m * weight e <= W2 ->
  exists v, scaledValue (binary_round prec emax false m e) = Some v /\ W1 <= v <= W2.
Proof.
  intros He HR1 HR2 HW.
  destruct (@binary_round_split false m e He) as (k & e' & -> & He' & Hfmt & Hval).
  rewrite <- Hval in HW. now apply round_aux_bracket.
Qed.

Lemma binary_normalize_bracket (K e : Z) (szero : bool) (W1 W2 : Z) :
  -1074 <= e -> Representable W1 -> Representable W2 ->
  W1 <= K * weight e <= W2 ->
  exists v, scaledValue (binary_normalize prec emax K e szero) = Some v /\ W1 <= v <= W2.
Proof.
  intros He HR1 HR2 HW. destruct K as [|m|m]; cbn [binary_normalize].
  - exists 0. split; [reflexivity | lia].
  - now apply round_pos_bracket.
  - destruct (binary_round_split true m He) as (k & e' & Hsplit & _).
    destruct (@binary_round_split false m e He) as (k2 & e2 & Hsplit2 & _).
    assert (Hopp : binary_round prec emax true m e
                   = SFopp (binary_round prec emax false m e)).
    { unfold binary_round.
      destruct (shl_align m e _) as [mz ez]. apply binary_round_aux_opp. }
    rewrite Hopp, scaledValue_opp.
    destruct (@round_pos_bracket m e (- W2) (- W1) He (@Representable_opp _ HR2) (@Representable_opp _ HR1))
      as (v & Hv & Hb).
    { change (Z.neg m) with (- Zpos m) in HW. lia. }
    rewrite Hv. exists (- v). split; [reflexivity | lia].
Qed.

(** ** Valid numbers and their order *)

(** A valid finite number has at most 53 bits at an exponent of the
    format, and exactly 53 above the least exponent. *)
Lemma valid_finite (s : bool) (m : positive) (e : Z) :
  valid_binary (S754_finite s m e) = true ->
  -1074 <= e <= 971 /\ Zpos m < 2 ^ 53 /\ (-1074 < e -> 2 ^ 52 <= Zpos m).
Proof.
  cbn [SpecFloat.valid_binary]. unfold bounded, canonical_mantissa.
  intros H. apply andb_prop in H. destruct H as [Hcan Hle].
  apply Z.eqb_eq in Hcan. apply Z.leb_le in Hle.
  rewrite fexp_eq in Hcan. change (emax - prec) with 971 in Hle.
  pose proof (digits2_pos_bounds m) as Hd.
  set (d := Zpos (digits2_pos m)) in *.
  assert (Hd53 : d <= 53) by lia.
  split; [lia|]. split.
  - apply Z.lt_le_trans with (2 ^ d); [lia|]. apply Z.pow_le_mono_r; lia.
  - intros Hn. assert (d = 53) by lia.
    replace 52 with (d - 1) by lia. lia.
Qed.

Lemma finite_order (m1 m2 : positive) (e1 e2 : Z) :
  valid_binary (S754_finite false m1 e1) = true ->
  valid_binary (S754_finite false m2 e2) = true ->
  match Z.compare e1 e2 with
  | Lt => Lt
  | Gt => Gt
  | Eq => Pos.compare_cont Eq m1 m2
  end = (Zpos m1 * weight e1 ?= Zpos m2 * weight e2).
Proof.
  intros H1 H2.
  destruct (valid_finite _ _ _ H1) as (He1 & Hm1 & Hn1).
  destruct (valid_finite _ _ _ H2) as (He2 & Hm2 & Hn2).
  pose proof (@weight_pos e1 ltac:(lia)) as Hp1.
  pose proof (@weight_pos e2 ltac:(lia)) as Hp2.
  destruct (Z.compare_spec e1 e2) as [Heq | Hlt | Hgt]; symmetry.
  - subst e2. rewrite <- Zmult_compare_compat_r by lia. reflexivity.
  - apply Z.compare_lt_iff. specialize (Hn2 ltac:(lia)).
    pose proof (@weight_double e1 e2 ltac:(lia)).
    assert (Zpos m1 * weight e1 < 2 ^ 53 * weight e1) by (apply Z.mul_lt_mono_pos_r; lia).
    assert (2 ^ 53 * weight e1 <= 2 ^ 52 * weight e2) by (change (2 ^ 53) with 9007199254740992; change (2 ^ 52) with 4503599627370496; lia).
    assert (2 ^ 52 * weight e2 <= Zpos m2 * weight e2) by (apply Z.mul_le_mono_nonneg_r; lia).
    lia.
  - apply Z.compare_gt_iff. specialize (Hn1 ltac:(lia)).
    pose proof (@weight_double e2 e1 ltac:(lia)).
    assert (Zpos m2 * weight e2 < 2 ^ 53 * weight e2) by (apply Z.mul_lt_mono_pos_r; lia).
    assert (2 ^ 53 * weight e2 <= 2 ^ 52 * weight e1) by (change (2 ^ 53) with 9007199254740992; change (2 ^ 52) with 4503599627370496; lia).
    assert (2 ^ 52 * weight e1 <= Zpos m1 * weight e1) by (apply Z.mul_le_mono_nonneg_r; lia).
    lia.
Qed.

(** Valid finite numbers compare as their values do. *)
Lemma SFcompare_values (x y : spec_float) (vx vy : Z) :
  valid_binary x = true -> valid_binary y = true ->
  scaledValue x = Some vx -> scaledValue y = Some vy ->
  SFcompare x y = Some (vx ?= vy).
Proof.
  intros Hx Hy Hfx Hfy.
  destruct x as [sx|sx| |sx mx ex]; try discriminate;
    destruct y as [sy|sy| |sy my ey]; try discriminate;
    cbn [scaledValue] in Hfx, Hfy; apply some_eq in Hfx, Hfy; subst vx vy.
  - reflexivity.
  - destruct (valid_finite _ _ _ Hy) as (He & _ & _).
    pose proof (@weight_pos ey ltac:(lia)).
    cbn [SFcompare]. f_equal. symmetry.
    destruct sy; cbn [cond_Zopp];
      [apply Z.compare_gt_iff | apply Z.compare_lt_iff]; nia.
  - destruct (valid_finite _ _ _ Hx) as (He & _ & _).
    pose proof (@weight_pos ex ltac:(lia)).
    cbn [SFcompare]. f_equal. symmetry.
    destruct sx; cbn [cond_Zopp];
      [apply Z.compare_lt_iff | apply Z.compare_gt_iff]; nia.
  - destruct (valid_finite _ _ _ Hx) as (Hex & _ & _).
    destruct (valid_finite _ _ _ Hy) as (Hey & _ & _).
    pose proof (@weight_pos ex ltac:(lia)).
    pose proof (@weight_pos ey ltac:(lia)).
    cbn [SFcompare]. f_equal.
    destruct sx, sy; cbn [cond_Zopp].
    + rewrite Z.compare_opp, (Z.compare_antisym (Zpos mx * weight ex) (Zpos my * weight ey)).
      assert (Hx' : valid_binary (S754_finite false mx ex) = true) by exact Hx.
      assert (Hy' : valid_binary (S754_finite false my ey) = true) by exact Hy.
      rewrite <- (@finite_order mx my ex ey Hx' Hy').
      destruct (ex ?= ey); reflexivity.
    + symmetry. apply Z.compare_lt_iff. nia.
    + symmetry. apply Z.compare_gt_iff. nia.
    + apply finite_order; assumption.
Qed.

(** ** The operations on finite numbers *)

Lemma cond_Zopp_mul (s : bool) (a p : Z) : cond_Zopp s a * p = cond_Zopp s (a * p).
Proof. destruct s; cbn [cond_Zopp]; lia. Qed.

Lemma cond_Zopp_negb (s : bool) (a : Z) : cond_Zopp (negb s) a = - cond_Zopp s a.
Proof. destruct s; cbn [cond_Zopp negb]; lia. Qed.

(** Subtraction, addition and the product of positive numbers: the
    result is finite and stays between any two representable numbers
    that enclose the exact result. *)
Lemma SFsub_bracket (x y : spec_float) (vx vy W1 W2 : Z) :
  valid_binary x = true -> valid_binary y = true ->
  scaledValue x = Some vx -> scaledValue y = Some vy ->
  Representable W1 -> Representable W2 -> W1 <= vx - vy <= W2 ->
  exists v, scaledValue (SF64sub x y) = Some v /\ W1 <= v <= W2.
Proof.
  intros Hx Hy Hfx Hfy HR1 HR2 HW.
  destruct x as [sx|sx| |sx mx ex]; try discriminate;
    destruct y as [sy|sy| |sy my ey]; try discriminate;
    cbn [scaledValue] in Hfx, Hfy; apply some_eq in Hfx, Hfy; subst vx vy.
  - exists 0. split; [|exact HW]. destruct sx, sy; reflexivity.
  - exists (- cond_Zopp sy (Zpos my * weight ey)). split; [|lia].
    cbn [SF64sub SFsub scaledValue]. now rewrite cond_Zopp_negb.
  - exists (cond_Zopp sx (Zpos mx * weight ex)). split; [reflexivity | lia].
  - destruct (@valid_finite sx mx ex Hx) as (Hex & _ & _).
    destruct (@valid_finite sy my ey Hy) as (Hey & _ & _).
    unfold SF64sub, SFsub. cbv zeta.
    set (ez := Z.min ex ey).
    destruct (@shl_align_value mx ex ez ltac:(lia)) as (_ & Hax & _).
    destruct (@shl_align_value my ey ez ltac:(lia)) as (_ & Hay & _).
    apply binary_normalize_bracket; try assumption; [lia|].
    rewrite Z.mul_sub_distr_r, !cond_Zopp_mul, Hax, Hay. exact HW.
Qed.

Lemma SFadd_bracket (x y : spec_float) (vx vy W1 W2 : Z) :
  valid_binary x = true -> valid_binary y = true ->
  scaledValue x = Some vx -> scaledValue y = Some vy ->
  Representable W1 -> Representable W2 -> W1 <= vx + vy <= W2 ->
  exists v, scaledValue (SF64add x y) = Some v /\ W1 <= v <= W2.
Proof.
  intros Hx Hy Hfx Hfy HR1 HR2 HW.
  destruct x as [sx|sx| |sx mx ex]; try discriminate;
    destruct y as [sy|sy| |sy my ey]; try discriminate;
    cbn [scaledValue] in Hfx, Hfy; apply some_eq in Hfx, Hfy; subst vx vy.
  - exists 0. split; [|exact HW]. destruct sx, sy; reflexivity.
  - exists (cond_Zopp sy (Zpos my * weight ey)). split; [reflexivity | lia].
  - exists (cond_Zopp sx (Zpos mx * weight ex)). split; [reflexivity | lia].
  - destruct (@valid_finite sx mx ex Hx) as (Hex & _ & _).
    destruct (@valid_finite sy my ey Hy) as (Hey & _ & _).
    unfold SF64add, SFadd. cbv zeta.
    set (ez := Z.min ex ey).
    destruct (@shl_align_value mx ex ez ltac:(lia)) as (_ & Hax & _).
    destruct (@shl_align_value my ey ez ltac:(lia)) as (_ & Hay & _).
    apply binary_normalize_bracket; try assumption; [lia|].
    rewrite Z.mul_add_distr_r, !cond_Zopp_mul, Hax, Hay. exact HW.
Qed.

(** The exponent of an exact product is not above the exponent of its
    format, so that rounding only shifts right. *)
Lemma product_format (mx my : positive) (ex ey : Z) :
  valid_binary (S754_finite false mx ex) = true ->
  valid_binary (S754_finite false my ey) = true ->
  ex + ey <= fexp prec emax (Zpos (digits2_pos (mx * my)) + (ex + ey)).
Proof.
  intros Hx Hy.
  destruct (@valid_finite false mx ex Hx) as (Hex & Hmx & Hnx).
  destruct (@valid_finite false my ey Hy) as (Hey & Hmy & Hny).
  rewrite fexp_eq.
  pose proof (digits2_pos_bounds (mx * my)) as Hd.
  set (D := Zpos (digits2_pos (mx * my))) in *.
  rewrite Pos2Z.inj_mul in Hd.
  destruct (Z.eq_dec ex (-1074)) as [Hsx | Hsx];
    destruct (Z.eq_dec ey (-1074)) as [Hsy | Hsy]; try lia.
  - specialize (Hny ltac:(lia)).
    assert (2 ^ 52 <= Zpos mx * Zpos my) by nia.
    assert (53 <= D).
    { destruct (Z.le_gt_cases 53 D) as [H53 | H53]; [exact H53|].
      exfalso. assert (2 ^ D <= 2 ^ 52) by (apply Z.pow_le_mono_r; lia). lia. }
    lia.
  - specialize (Hnx ltac:(lia)).
    assert (2 ^ 52 <= Zpos mx * Zpos my) by nia.
    assert (53 <= D).
    { destruct (Z.le_gt_cases 53 D) as [H53 | H53]; [exact H53|].
      exfalso. assert (2 ^ D <= 2 ^ 52) by (apply Z.pow_le_mono_r; lia). lia. }
    lia.
  - specialize (Hnx ltac:(lia)).
    assert (2 ^ 52 <= Zpos mx * Zpos my) by nia.
    assert (53 <= D).
    { destruct (Z.le_gt_cases 53 D) as [H53 | H53]; [exact H53|].
      exfalso. assert (2 ^ D <= 2 ^ 52) by (apply Z.pow_le_mono_r; lia). lia. }
    lia.
Qed.

Lemma SFmul_bracket (x y : spec_float) (vx vy W1 W2 : Z) :
  valid_binary x = true -> valid_binary y = true ->
  scaledValue x = Some vx -> scaledValue y = Some vy ->
  0 < vx -> 0 < vy ->
  Representable W1 -> Representable W2 ->
  W1 * 2 ^ 2148 <= vx * vy <= W2 * 2 ^ 2148 ->
  exists v, scaledValue (SF64mul x y) = Some v /\ W1 <= v <= W2.
Proof.
  intros Hx Hy Hfx Hfy Hpx Hpy HR1 HR2 HW.
  destruct x as [sx|sx| |sx mx ex]; try discriminate;
    destruct y as [sy|sy| |sy my ey]; try discriminate;
    cbn [scaledValue] in Hfx, Hfy; apply some_eq in Hfx, Hfy; subst vx vy; try lia.
  destruct (@valid_finite sx mx ex Hx) as (Hex & _ & _).
  destruct (@valid_finite sy my ey Hy) as (Hey & _ & _).
  pose proof (@weight_pos ex ltac:(lia)) as Hpex.
  pose proof (@weight_pos ey ltac:(lia)) as Hpey.
  destruct sx; [cbn [cond_Zopp] in Hpx; nia|].
  destruct sy; [cbn [cond_Zopp] in Hpy; nia|].
  cbn [cond_Zopp] in HW.
  unfold SF64mul, SFmul. cbn [xorb].
  apply round_aux_bracket; try assumption; [lia | now apply product_format |].
  rewrite Pos2Z.inj_mul.
  assert (Hscale : Zpos mx * weight ex * (Zpos my * weight ey)
                   = Zpos mx * Zpos my * weight (ex + ey) * 2 ^ 2148).
  { assert (Hpp : weight ex * weight ey = weight (ex + ey) * 2 ^ 2148).
    { unfold weight. rewrite <- !Z.pow_add_r by lia. f_equal. lia. }
    replace (Zpos mx * weight ex * (Zpos my * weight ey))
      with (Zpos mx * Zpos my * (weight ex * weight ey)) by ring.
    rewrite Hpp. ring. }
  rewrite Hscale in HW.
  assert (Hbig : 0 < 2 ^ 2148) by (apply Z.pow_pos_nonneg; lia).
  split; apply (Z.mul_le_mono_pos_r _ _ (2 ^ 2148) Hbig); lia.
Qed.

(** *** The primitive operations on finite numbers *)

(** The comparisons of the primitive numbers, on finite numbers. *)
Lemma HasValue_compare (x y : float) (vx vy : Z) :
  HasValue x vx -> HasValue y vy ->
  PrimFloat.ltb x y = (vx <? vy) /\
  PrimFloat.leb x y = (vx <=? vy) /\
  PrimFloat.eqb x y = (vx =? vy).
Proof.
  intros Hx Hy.
  pose proof (@SFcompare_values (Prim2SF x) (Prim2SF y) vx vy
                (Prim2SF_valid x) (Prim2SF_valid y) Hx Hy) as Hc.
  rewrite ltb_spec, leb_spec, eqb_spec.
  unfold SFltb, SFleb, SFeqb. rewrite Hc.
  split; [|split].
  - unfold Z.ltb. destruct (vx ?= vy); reflexivity.
  - unfold Z.leb. destruct (vx ?= vy); reflexivity.
  - destruct (Z.compare_spec vx vy) as [Heq | Hlt | Hgt]; symmetry;
      [apply Z.eqb_eq | apply Z.eqb_neq | apply Z.eqb_neq]; lia.
Qed.

Lemma HasValue_isNaN (x : float) (v : Z) : HasValue x v -> Binary64.isNaN x = false.
Proof.
  intros Hx. unfold Binary64.isNaN.
  destruct (HasValue_compare Hx Hx) as (_ & _ & ->). now rewrite Z.eqb_refl.
Qed.

Lemma Representable_scaled (c ec : Z) :
  Z.abs c < 2 ^ 53 -> -1074 <= ec <= 971 -> Representable (c * weight ec).
Proof.
  intros Hc Hec. exists (Z.abs c), ec. split; [lia|]. split; [lia|].
  pose proof (@weight_pos ec ltac:(lia)).
  rewrite Z.abs_mul. f_equal. apply Z.abs_eq. lia.
Qed.

(** An integer below 2^53 is converted exactly. *)
Lemma HasValue_ofZ (z : Z) : 0 <= z < 2 ^ 53 -> HasValue (Binary64.ofZ z) (z * weight 0).
Proof.
  intros Hz. unfold HasValue, Binary64.ofZ.
  destruct (z <? 0) eqn:Hneg; [apply Z.ltb_lt in Hneg; lia|].
  rewrite of_uint63_spec, Uint63.of_Z_spec.
  assert (H53 : 2 ^ 53 < wB) by reflexivity.
  rewrite Z.mod_small by lia.
  destruct (@binary_normalize_bracket z 0 false (z * weight 0) (z * weight 0))
    as (v & Hv & Hb); try lia.
  - apply Representable_scaled; lia.
  - apply Representable_scaled; lia.
  - rewrite Hv. f_equal. lia.
Qed.

Lemma HasValue_sub (x y : float) (vx vy W1 W2 : Z) :
  HasValue x vx -> HasValue y vy -> Representable W1 -> Representable W2 -> W1 <= vx - vy <= W2 ->
  exists v, HasValue (x - y) v /\ W1 <= v <= W2.
Proof.
  intros Hx Hy H1 H2 HW. unfold HasValue. rewrite sub_spec.
  apply SFsub_bracket with (vx := vx) (vy := vy);
    auto using Prim2SF_valid.
Qed.

Lemma HasValue_add (x y : float) (vx vy W1 W2 : Z) :
  HasValue x vx -> HasValue y vy -> Representable W1 -> Representable W2 -> W1 <= vx + vy <= W2 ->
  exists v, HasValue (x + y) v /\ W1 <= v <= W2.
Proof.
  intros Hx Hy H1 H2 HW. unfold HasValue. rewrite add_spec.
  apply SFadd_bracket with (vx := vx) (vy := vy);
    auto using Prim2SF_valid.
Qed.

Lemma HasValue_mul (x y : float) (vx vy W1 W2 : Z) :
  HasValue x vx -> HasValue y vy -> 0 < vx -> 0 < vy -> Representable W1 -> Representable W2 ->
  W1 * weight 0 <= vx * vy <= W2 * weight 0 ->
  exists v, HasValue (x * y) v /\ W1 <= v <= W2.
Proof.
  intros Hx Hy Hpx Hpy H1 H2 HW. unfold HasValue. rewrite mul_spec.
  apply SFmul_bracket with (vx := vx) (vy := vy);
    auto using Prim2SF_valid.
Qed.

Lemma HasValue_mul_zero (x y : float) (vy : Z) :
  HasValue x 0 -> HasValue y vy -> HasValue (x * y) 0.
Proof.
  unfold HasValue. intros Hx Hy. rewrite mul_spec.
  pose proof (Prim2SF_valid x) as Hvx.
  destruct (Prim2SF x) as [sx|sx| |sx mx ex]; try discriminate.
  - destruct (Prim2SF y) as [sy|sy| |sy my ey]; try discriminate; reflexivity.
  - exfalso. destruct (@valid_finite sx mx ex Hvx) as (Hex & _ & _).
    pose proof (@weight_pos ex ltac:(lia)).
    cbn [scaledValue] in Hx. apply some_eq in Hx.
    destruct sx; cbn [cond_Zopp] in Hx; nia.
Qed.

(** [Math.max] and [Math.min] of finite numbers. *)
Lemma HasValue_max (a b : float) (va vb : Z) :
  HasValue a va -> HasValue b vb -> HasValue (Binary64.max a b) (Z.max va vb).
Proof.
  intros Ha Hb. unfold Binary64.max.
  rewrite (HasValue_isNaN Ha), (HasValue_isNaN Hb). cbn [orb].
  destruct (HasValue_compare Ha Hb) as (-> & _ & _).
  destruct (HasValue_compare Hb Ha) as (-> & _ & _).
  destruct (va <? vb) eqn:H1; [apply Z.ltb_lt in H1 | apply Z.ltb_ge in H1].
  - now replace (Z.max va vb) with vb by lia.
  - destruct (vb <? va) eqn:H2; [apply Z.ltb_lt in H2 | apply Z.ltb_ge in H2].
    + now replace (Z.max va vb) with va by lia.
    + assert (va = vb) by lia. subst vb. rewrite Z.max_id.
      destruct (classify a); assumption.
Qed.

Lemma HasValue_min (a b : float) (va vb : Z) :
  HasValue a va -> HasValue b vb -> HasValue (Binary64.min a b) (Z.min va vb).
Proof.
  intros Ha Hb. unfold Binary64.min.
  rewrite (HasValue_isNaN Ha), (HasValue_isNaN Hb). cbn [orb].
  destruct (HasValue_compare Ha Hb) as (-> & _ & _).
  destruct (HasValue_compare Hb Ha) as (-> & _ & _).
  destruct (va <? vb) eqn:H1; [apply Z.ltb_lt in H1 | apply Z.ltb_ge in H1].
  - now replace (Z.min va vb) with va by lia.
  - destruct (vb <? va) eqn:H2; [apply Z.ltb_lt in H2 | apply Z.ltb_ge in H2].
    + now replace (Z.min va vb) with vb by lia.
    + assert (va = vb) by lia. subst vb. rewrite Z.min_id.
      destruct (classify a); assumption.
Qed.

(** A finite number is truthy unless it is zero. *)
Lemma HasValue_truthy (x : float) (v : Z) :
  HasValue x v -> truthy x = negb (v =? 0).
Proof.
  intros Hx. cbn [truthy Binary64.number].
  rewrite (HasValue_isNaN Hx). cbn [orb].
  assert (H0 : HasValue 0%float 0) by reflexivity.
  now destruct (HasValue_compare Hx H0) as (_ & _ & ->).
Qed.

(** ** computeYDomain in binary64 *)

Lemma least_spec (others : list Z) :
  forall first,
    In (least first others) (first :: others) /\
    forall v, In v (first :: others) -> least first others <= v.
Proof.
  unfold least. induction others as [|w others IH]; intros first.
  - cbn. split; [now left | intros v [<- | []]; lia].
  - cbn [fold_left]. destruct (IH (Z.min first w)) as [Hin Hle]. split.
    + destruct Hin as [Heq | Hin]; [|right; now right].
      rewrite <- Heq. destruct (Z.min_spec first w) as [[_ ->] | [_ ->]];
        [now left | right; now left].
    + intros v Hv.
      pose proof (Hle (Z.min first w) (or_introl eq_refl)) as Hbase.
      destruct Hv as [<- | [<- | Hv]]; [lia | lia | apply Hle; now right].
Qed.

Lemma greatest_spec (others : list Z) :
  forall first,
    In (greatest first others) (first :: others) /\
    forall v, In v (first :: others) -> v <= greatest first others.
Proof.
  unfold greatest. induction others as [|w others IH]; intros first.
  - cbn. split; [now left | intros v [<- | []]; lia].
  - cbn [fold_left]. destruct (IH (Z.max first w)) as [Hin Hle]. split.
    + destruct Hin as [Heq | Hin]; [|right; now right].
      rewrite <- Heq. destruct (Z.max_spec first w) as [[_ ->] | [_ ->]];
        [right; now left | now left].
    + intros v Hv.
      pose proof (Hle (Z.max first w) (or_introl eq_refl)) as Hbase.
      destruct Hv as [<- | [<- | Hv]]; [lia | lia | apply Hle; now right].
Qed.

Lemma binary64_ltb_integers (a b : Z) :
  0 <= a < 2 ^ 53 -> 0 <= b < 2 ^ 53 ->
  PrimFloat.ltb (Binary64.ofZ a) (Binary64.ofZ b) = (a <? b).
Proof.
  intros Ha Hb.
  destruct (HasValue_compare (HasValue_ofZ Ha) (HasValue_ofZ Hb)) as (-> & _ & _).
  pose proof (@weight_pos 0 ltac:(lia)) as Hp.
  destruct (a <? b) eqn:Hab; [apply Z.ltb_lt in Hab | apply Z.ltb_ge in Hab].
  - apply Z.ltb_lt. nia.
  - apply Z.ltb_ge. nia.
Qed.

(** On integers below 2^53 the scan of computeYDomain is the running
    minimum and maximum. *)
Lemma scan_binary64 (others : list Z) :
  Forall (fun v => 0 <= v < 2 ^ 53) others ->
  forall min max : Z,
    0 <= min < 2 ^ 53 -> 0 <= max < 2 ^ 53 ->
    fold_left scan (map Binary64.ofZ others) (Binary64.ofZ min, Binary64.ofZ max)
    = (Binary64.ofZ (fold_left Z.min others min),
       Binary64.ofZ (fold_left Z.max others max)).
Proof.
  induction 1 as [|v others Hv _ IH]; intros min max Hmin Hmax; [reflexivity|].
  cbn [map fold_left].
  change (scan (Binary64.ofZ min, Binary64.ofZ max) (Binary64.ofZ v))
    with (if PrimFloat.ltb (Binary64.ofZ v) (Binary64.ofZ min)
          then Binary64.ofZ v else Binary64.ofZ min,
          if PrimFloat.ltb (Binary64.ofZ max) (Binary64.ofZ v)
          then Binary64.ofZ v else Binary64.ofZ max).
  rewrite !binary64_ltb_integers by assumption.
  replace (if v <? min then Binary64.ofZ v else Binary64.ofZ min)
    with (Binary64.ofZ (Z.min min v))
    by (destruct (v <? min) eqn:E; [apply Z.ltb_lt in E | apply Z.ltb_ge in E];
        f_equal; lia).
  replace (if max <? v then Binary64.ofZ v else Binary64.ofZ max)
    with (Binary64.ofZ (Z.max max v))
    by (destruct (max <? v) eqn:E; [apply Z.ltb_lt in E | apply Z.ltb_ge in E];
        f_equal; lia).
  apply IH; lia.
Qed.

(** The pad of a window with least value [m] and greatest value [M]:
    a finite number between 2^-5 and 2^28. *)
Lemma pad_binary64 (m M : Z) :
  0 <= m <= M -> M < 2 ^ 32 ->
  let p := nmul (nsub (fromZ M) (fromZ m)) lit_0_05 in
  truthy p = negb (M =? m) /\
  exists v, HasValue (if truthy p then p else fromZ (num:=float) 1) v /\
            weight (-5) <= v <= 2 ^ 28 * weight 0.
Proof.
  intros Hm HM p.
  assert (H32 : 2 ^ 32 < 2 ^ 53) by reflexivity.
  pose proof (@weight_pos 0 ltac:(lia)) as Hp0.
  pose proof (@weight_pos (-57) ltac:(lia)) as Hp57.
  assert (Hpw0 : weight 0 = weight (-57) * 2 ^ 57) by (apply weight_split; lia).
  assert (Hpw5 : weight (-5) = weight (-57) * 2 ^ 52) by (apply weight_split; lia).
  assert (HFM : HasValue (Binary64.ofZ M) (M * weight 0)) by (apply HasValue_ofZ; lia).
  assert (HFm : HasValue (Binary64.ofZ m) (m * weight 0)) by (apply HasValue_ofZ; lia).
  destruct (@HasValue_sub (Binary64.ofZ M) (Binary64.ofZ m) _ _
              ((M - m) * weight 0) ((M - m) * weight 0) HFM HFm)
    as (vd & Hd & Hvd); [apply Representable_scaled; lia | apply Representable_scaled; lia | lia |].
  assert (Hvd' : vd = (M - m) * weight 0) by lia. subst vd. clear Hvd.
  assert (Hc : HasValue (lit_0_05 (num:=float)) (7205759403792794 * weight (-57)))
    by reflexivity.
  destruct (Z.eq_dec M m) as [Heq | Hne].
  - subst M. rewrite Z.sub_diag, Z.mul_0_l in Hd.
    pose proof (HasValue_mul_zero Hd Hc) as Hp.
    fold (nsub (Binary64.ofZ m) (Binary64.ofZ m)) in Hp.
    change (HasValue p 0) in Hp.
    rewrite (HasValue_truthy Hp), (Z.eqb_refl m). change (0 =? 0) with true.
    cbn [negb]. split; [reflexivity|].
    exists (1 * weight 0). split; [apply HasValue_ofZ; lia|].
    change (2 ^ 52) with 4503599627370496 in Hpw5.
    change (2 ^ 57) with 144115188075855872 in Hpw0.
    change (2 ^ 28) with 268435456. lia.
  - destruct (@HasValue_mul (PrimFloat.sub (Binary64.ofZ M) (Binary64.ofZ m)) lit_0_05 _ _
                (1 * weight (-5)) (2 ^ 28 * weight 0) Hd Hc)
      as (vp & Hvp & Hb).
    + nia.
    + lia.
    + apply Representable_scaled; [reflexivity | lia].
    + apply Representable_scaled; [reflexivity | lia].
    + rewrite Hpw5, Hpw0.
      change (2 ^ 52) with 4503599627370496.
      change (2 ^ 57) with 144115188075855872.
      change (2 ^ 28) with 268435456.
      change (2 ^ 32) with 4294967296 in HM.
      split; nia.
    + change (HasValue p vp) in Hvp.
      rewrite (HasValue_truthy Hvp).
      assert (Hnz : (vp =? 0) = false) by (apply Z.eqb_neq; lia).
      assert (HMm : (M =? m) = false) by (apply Z.eqb_neq; lia).
      rewrite Hnz, HMm. cbn [negb]. split; [reflexivity|].
      exists vp. split; [exact Hvp | lia].
Qed.

(** The range computed in binary64 for a window of 32-bit values, by
    the values of its two ends. *)
Lemma computeYDomain_binary64 (window : list Z) (autoScale : bool) :
  Forall (fun v => 0 <= v <= 2 ^ 32 - 1) window ->
  exists vlow vhigh,
    HasValue (fst (computeYDomain (num:=float) (map fromZ window) autoScale)) vlow /\
    HasValue (snd (computeYDomain (num:=float) (map fromZ window) autoScale)) vhigh /\
    0 <= vlow /\ vhigh <= 2 ^ 32 * weight 0 /\ vlow < vhigh /\
    forall v, In v window -> vlow <= v * weight 0 <= vhigh.
Proof.
  intros Hall.
  assert (H32 : 2 ^ 32 < 2 ^ 53) by reflexivity.
  pose proof (@weight_pos 0 ltac:(lia)) as Hp0.
  pose proof (@weight_pos (-5) ltac:(lia)) as Hp5.
  assert (Hpw0 : weight 0 = weight (-5) * 2 ^ 5) by (apply weight_split; lia).
  change (2 ^ 5) with 32 in Hpw0.
  assert (Hzero : HasValue (fromZ (num:=float) 0) (0 * weight 0)) by (apply HasValue_ofZ; lia).
  assert (Htop : HasValue (Y_MAX (num:=float)) (2 ^ 32 * weight 0)) by (apply HasValue_ofZ; lia).
  assert (Hfixed : exists vlow vhigh,
             HasValue (fromZ (num:=float) 0) vlow /\ HasValue (Y_MAX (num:=float)) vhigh /\
             0 <= vlow /\ vhigh <= 2 ^ 32 * weight 0 /\ vlow < vhigh /\
             forall v, In v window -> vlow <= v * weight 0 <= vhigh).
  { exists (0 * weight 0), (2 ^ 32 * weight 0).
    split; [exact Hzero|]. split; [exact Htop|].
    split; [lia|]. split; [lia|]. split; [nia|].
    intros v Hv. rewrite Forall_forall in Hall. specialize (Hall v Hv). nia. }
  unfold computeYDomain.
  destruct (negb autoScale || (length (map (fromZ (num:=float)) window) =? 0)%nat);
    [exact Hfixed|].
  destruct window as [|first others]; [exact Hfixed|]. clear Hfixed.
  cbn [map].
  inversion Hall as [|? ? Hfirst Hothers]; subst.
  assert (Hothers' : Forall (fun v => 0 <= v < 2 ^ 53) others).
  { revert Hothers. apply Forall_impl. intros v Hv. lia. }
  change (fromZ (num:=float)) with Binary64.ofZ.
  rewrite (@scan_binary64 others Hothers' first first) by lia.
  fold (least first others). fold (greatest first others).
  destruct (least_spec others first) as [Hmin Hleast].
  destruct (greatest_spec others first) as [Hmax Hgreatest].
  set (m := least first others) in *. set (M := greatest first others) in *.
  rewrite Forall_forall in Hall.
  pose proof (Hall m Hmin) as Hm. pose proof (Hall M Hmax) as HM.
  pose proof (Hleast M Hmax) as HmM.
  destruct (@pad_binary64 m M ltac:(lia) ltac:(lia)) as (_ & vpad & Hpad & Hvpad).
  change (fromZ (num:=float)) with Binary64.ofZ in Hpad.
  set (pad := if truthy (nmul (nsub (Binary64.ofZ M) (Binary64.ofZ m)) lit_0_05)
              then nmul (nsub (Binary64.ofZ M) (Binary64.ofZ m)) lit_0_05
              else Binary64.ofZ 1) in *.
  assert (HFm : HasValue (Binary64.ofZ m) (m * weight 0)) by (apply HasValue_ofZ; lia).
  assert (HFM : HasValue (Binary64.ofZ M) (M * weight 0)) by (apply HasValue_ofZ; lia).
  change (2 ^ 28) with 268435456 in Hvpad.
  change (2 ^ 32) with 4294967296 in *.
  destruct (@HasValue_sub (Binary64.ofZ m) pad _ _
              ((m - 268435456) * weight 0) ((32 * m - 1) * weight (-5)) HFm Hpad)
    as (vx & Hx & Hvx).
  { apply Representable_scaled; [|lia]. change (2 ^ 53) with 9007199254740992. lia. }
  { apply Representable_scaled; [|lia]. change (2 ^ 53) with 9007199254740992. lia. }
  { lia. }
  destruct (@HasValue_add (Binary64.ofZ M) pad _ _
              ((32 * M + 1) * weight (-5)) ((M + 268435456) * weight 0) HFM Hpad)
    as (vy & Hy & Hvy).
  { apply Representable_scaled; [|lia]. change (2 ^ 53) with 9007199254740992. lia. }
  { apply Representable_scaled; [|lia]. change (2 ^ 53) with 9007199254740992. lia. }
  { lia. }
  cbn [Math_max Math_min nsub nadd Binary64.number fst snd].
  exists (Z.max (0 * weight 0) vx), (Z.min (4294967296 * weight 0) vy).
  split; [now apply HasValue_max|]. split; [now apply HasValue_min|].
  rewrite Hpw0 in *. set (P := weight (-5)) in *.
  assert (HmMP : m * P <= M * P) by nia.
  assert (HmP : 0 <= m * P) by nia.
  assert (HMP : M * P <= 4294967295 * P) by nia.
  split; [lia|]. split; [lia|]. split; [lia|].
  intros v Hv. pose proof (Hleast v Hv). pose proof (Hgreatest v Hv).
  assert (m * P <= v * P) by nia. assert (v * P <= M * P) by nia. lia.
Qed.

(** C7. In binary64, for every window of values in [0, 2^32 - 1] and
    every autoscale flag, the range (low, high) satisfies 0 <= low,
    high <= 2^32 and low <= high; in particular low is never below 0 and
    high never above 2^32 (neither is NaN). *)
Theorem computeYDomain_range (window : list Z) (autoScale : bool) :
  Forall (fun v => 0 <= v <= 2 ^ 32 - 1) window ->
  PrimFloat.leb (fromZ 0) (fst (computeYDomain (num:=float) (map fromZ window) autoScale))
  = true /\
  PrimFloat.leb (snd (computeYDomain (num:=float) (map fromZ window) autoScale))
                (fromZ (2 ^ 32))
  = true /\
  PrimFloat.leb (fst (computeYDomain (num:=float) (map fromZ window) autoScale))
                (snd (computeYDomain (num:=float) (map fromZ window) autoScale))
  = true /\
  PrimFloat.ltb (fst (computeYDomain (num:=float) (map fromZ window) autoScale))
                (fromZ 0)
  = false /\
  PrimFloat.ltb (fromZ (2 ^ 32))
                (snd (computeYDomain (num:=float) (map fromZ window) autoScale))
  = false.
Proof.
  intros Hall.
  destruct (computeYDomain_binary64 autoScale Hall)
    as (vlow & vhigh & Hlow & Hhigh & H0 & H32 & Hlt & _).
  assert (Hzero : HasValue (fromZ (num:=float) 0) (0 * weight 0)) by (apply HasValue_ofZ; lia).
  assert (Htop : HasValue (fromZ (num:=float) (2 ^ 32)) (2 ^ 32 * weight 0))
    by (apply HasValue_ofZ; split; [lia | reflexivity]).
  destruct (HasValue_compare Hzero Hlow) as (_ & -> & _).
  destruct (HasValue_compare Hhigh Htop) as (_ & -> & _).
  destruct (HasValue_compare Hlow Hhigh) as (_ & -> & _).
  destruct (HasValue_compare Hlow Hzero) as (-> & _ & _).
  destruct (HasValue_compare Htop Hhigh) as (-> & _ & _).
  repeat split;
    first [apply Z.leb_le | apply Z.ltb_ge]; lia.
Qed.

Lemma computeYDomain_range_witness :
  PrimFloat.leb (fromZ 0)
                (fst (computeYDomain (num:=float) (map fromZ [0; 4294967295]) true))
  = true /\
  PrimFloat.leb (snd (computeYDomain (num:=float) (map fromZ [0; 4294967295]) true))
                (fromZ (2 ^ 32))
  = true /\
  PrimFloat.leb (fst (computeYDomain (num:=float) (map fromZ [0; 4294967295]) true))
                (snd (computeYDomain (num:=float) (map fromZ [0; 4294967295]) true))
  = true /\
  PrimFloat.ltb (fst (computeYDomain (num:=float) (map fromZ [0; 4294967295]) true))
                (fromZ 0)
  = false /\
  PrimFloat.ltb (fromZ (2 ^ 32))
                (snd (computeYDomain (num:=float) (map fromZ [0; 4294967295]) true))
  = false.
Proof.
  apply (@computeYDomain_range [0; 4294967295] true).
  repeat constructor; lia.
Defined.

(** ** Channel window *)

Section Window.
Context {A : Type}.
Implicit Types (b vs : list A) (v : A).

Lemma pushSample_below b v :
  (length b < POINTS)%nat -> pushSample b v = b ++ [v].
Proof.
  intros Hlen. unfold pushSample, trim, push.
  destruct (POINTS <? length (b ++ [v]))%nat eqn:Hover; [|reflexivity].
  apply Nat.ltb_lt in Hover. rewrite length_app in Hover. cbn in Hover. lia.
Qed.

Lemma pushSample_full b v :
  length b = POINTS -> pushSample b v = tl b ++ [v].
Proof.
  intros Hlen. unfold pushSample, trim, push, shift.
  destruct (POINTS <? length (b ++ [v]))%nat eqn:Hover.
  - destruct b as [|x b]; [discriminate Hlen | reflexivity].
  - apply Nat.ltb_ge in Hover. rewrite length_app in Hover. cbn in Hover. lia.
Qed.

Lemma pushSample_length b v :
  (length b <= POINTS)%nat -> (length (pushSample b v) <= POINTS)%nat.
Proof.
  intros Hlen. destruct (Nat.eq_dec (length b) POINTS) as [Heq|Hne].
  - rewrite pushSample_full by exact Heq.
    destruct b as [|x b]; [discriminate Heq|].
    cbn [tl]. rewrite length_app. cbn in *. lia.
  - rewrite pushSample_below by lia. rewrite length_app. cbn. lia.
Qed.

(** A run of pushes leaves the last [POINTS] elements of everything that
    was ever in the buffer. *)
Lemma pushes_keep_last vs :
  forall b, (length b <= POINTS)%nat ->
            fold_left pushSample vs b
            = skipn (length (b ++ vs) - POINTS) (b ++ vs).
Proof.
  induction vs as [|v vs IH]; intros b Hlen.
  - rewrite app_nil_r. replace (length b - POINTS)%nat with 0%nat by lia.
    reflexivity.
  - cbn [fold_left]. rewrite IH by now apply pushSample_length.
    destruct (Nat.eq_dec (length b) POINTS) as [Heq|Hne].
    + rewrite pushSample_full by exact Heq.
      destruct b as [|x b]; [discriminate Heq|]. cbn [tl].
      rewrite <- app_assoc. cbn [app length].
      assert (Hn : (POINTS <= length (b ++ v :: vs))%nat).
      { rewrite length_app. cbn [length] in *. lia. }
      replace (S (length (b ++ v :: vs)) - POINTS)%nat
        with (S (length (b ++ v :: vs) - POINTS))%nat by lia.
      reflexivity.
    + rewrite pushSample_below by lia.
      rewrite <- app_assoc. reflexivity.
Qed.

Lemma buildChartData_length b : length (buildChartData b) = POINTS.
Proof. unfold buildChartData. now rewrite length_map, length_seq. Qed.

Lemma buildChartData_nth b (i : nat) :
  (i < POINTS)%nat ->
  nth_error (buildChartData b) i
  = Some (mkChartDatum i (if (i <? length b)%nat then nth_error b i else None)).
Proof.
  intros Hi. unfold buildChartData.
  rewrite nth_error_map, nth_error_seq.
  apply Nat.ltb_lt in Hi. rewrite Hi. reflexivity.
Qed.

Lemma map_nth_error_seq b :
  map (nth_error b) (seq 0 (length b)) = map Some b.
Proof.
  induction b as [|x b IH]; [reflexivity|].
  cbn [length seq map nth_error]. f_equal.
  rewrite <- seq_shift, map_map. exact IH.
Qed.

(** The snapshot of a full buffer shows every element, oldest first. *)
Lemma buildChartData_full b :
  length b = POINTS -> map (@value A) (buildChartData b) = map Some b.
Proof.
  intros Hlen. unfold buildChartData. rewrite map_map. cbn [value].
  rewrite <- map_nth_error_seq, Hlen.
  apply map_ext_in. intros i Hi. apply in_seq in Hi.
  destruct (i <? POINTS)%nat eqn:Hlt; [reflexivity|].
  apply Nat.ltb_ge in Hlt. lia.
Qed.

End Window.

(** C3. After any sequence of pushes into a channel buffer, the buffer
    holds at most 20 values; a push onto a full buffer removes exactly
    the oldest one; the snapshot has exactly 20 positions, position i
    holding the buffer's i-th element if i is below the current length
    and null otherwise; and after more than 20 pushes all 20 positions
    hold the last 20 pushed values, oldest first. *)
Theorem window_fifo (vs : list Z) :
  let b := fold_left pushSample vs [] in
  (length b <= 20)%nat /\
  b = skipn (length vs - 20) vs /\
  (forall (full : list Z) (v : Z),
      length full = 20%nat -> pushSample full v = tl full ++ [v]) /\
  (forall p buffers,
      onPacketChange buffers (Some p)
      = mkBuffers (pushSample (buf0 buffers) (ch0 p)) (pushSample (buf1 buffers) (ch1 p))
                  (pushSample (buf2 buffers) (ch2 p)) (pushSample (buf3 buffers) (ch3 p))) /\
  length (buildChartData b) = 20%nat /\
  (forall i, (i < 20)%nat ->
             nth_error (buildChartData b) i
             = Some (mkChartDatum i (if (i <? length b)%nat then nth_error b i else None))) /\
  ((20 < length vs)%nat ->
   map (@value Z) (buildChartData b) = map Some (skipn (length vs - 20) vs) /\
   length (skipn (length vs - 20) vs) = 20%nat).
Proof.
  intros b.
  assert (Hb : b = skipn (length vs - 20) vs).
  { unfold b. rewrite pushes_keep_last by (cbn; lia). reflexivity. }
  assert (Hlen : (length b <= 20)%nat).
  { rewrite Hb, length_skipn. lia. }
  split; [exact Hlen|]. split; [exact Hb|].
  split; [intros full v Hfull; now apply pushSample_full|].
  split; [reflexivity|].
  split; [apply buildChartData_length|].
  split; [intros i Hi; now apply buildChartData_nth|].
  intros Hmany.
  assert (Hfull : length b = POINTS).
  { rewrite Hb, length_skipn. unfold POINTS. lia. }
  split.
  - rewrite buildChartData_full by exact Hfull. now rewrite Hb.
  - rewrite <- Hb. exact Hfull.
Qed.

Lemma window_fifo_witness :
  map (@value Z) (buildChartData (fold_left pushSample (map Z.of_nat (seq 1 23)) []))
  = map Some (map Z.of_nat (seq 4 20)) /\
  pushSample (map Z.of_nat (seq 1 20)) 21 = map Z.of_nat (seq 2 20) /\
  nth_error (buildChartData (fold_left pushSample [7; 8] [])) 2
  = Some (mkChartDatum 2 None).
Proof.
  split; [|split].
  - apply (proj2 (proj2 (proj2 (proj2 (proj2 (proj2
             (window_fifo (map Z.of_nat (seq 1 23))))))))).
    cbn. lia.
  - apply (proj1 (proj2 (proj2 (window_fifo [])))). reflexivity.
  - apply (proj1 (proj2 (proj2 (proj2 (proj2 (proj2 (window_fifo [7; 8]))))))).
    lia.
Defined.

(** ** The read loop *)

(** *** The inner loop *)

Lemma drainPackets_unfold (hasOnError : bool) (buffer : list Z) :
  drainPackets hasOnError buffer
  = if PACKET_SIZE <=? Z.of_nat (length buffer)
    then
      match Uint8Array_set (new_ArrayBuffer PACKET_SIZE)
                           (fst (splice0 PACKET_SIZE buffer)) with
      | Throw e => mkDrained [] (snd (splice0 PACKET_SIZE buffer)) (Some e)
      | Ok ab =>
          andThen
            (match parsePacket ab 0 with
             | Ok data => [CallOnPacket data]
             | Throw e => callOnError hasOnError e
             end)
            (drainPackets hasOnError (snd (splice0 PACKET_SIZE buffer)))
      end
    else mkDrained [] buffer None.
Proof.
  funelim (drainPackets hasOnError buffer);
    match goal with Hc : (_ <=? _) = _ |- _ => rewrite Hc end; reflexivity.
Qed.

Lemma frames_unfold (bytes : list byte) :
  frames bytes
  = if PACKET_SIZE <=? Z.of_nat (length bytes)
    then fst (splice0 PACKET_SIZE bytes) :: frames (snd (splice0 PACKET_SIZE bytes))
    else [].
Proof.
  funelim (frames bytes);
    match goal with Hc : (_ <=? _) = _ |- _ => rewrite Hc end; reflexivity.
Qed.

(** Induction along the iterations of the inner loop. *)
Lemma splice_ind {A} (P : list A -> Prop) :
  (forall l, (length l < 16)%nat -> P l) ->
  (forall l, (16 <= length l)%nat -> P (skipn 16 l) -> P l) ->
  forall l, P l.
Proof.
  intros Hshort Hstep l.
  induction l as [l IH] using (induction_ltof1 _ (@length A)).
  destruct (Nat.lt_ge_cases (length l) 16) as [Hlt|Hge].
  - now apply Hshort.
  - apply Hstep; [exact Hge|]. apply IH. unfold ltof.
    rewrite length_skipn. lia.
Qed.

Lemma guard_true {A} (l : list A) :
  (16 <= length l)%nat -> (PACKET_SIZE <=? Z.of_nat (length l)) = true.
Proof. intros H. apply Z.leb_le. unfold PACKET_SIZE. lia. Qed.

Lemma guard_false {A} (l : list A) :
  (length l < 16)%nat -> (PACKET_SIZE <=? Z.of_nat (length l)) = false.
Proof. intros H. apply Z.leb_gt. unfold PACKET_SIZE. lia. Qed.

(** What the loop body builds from the splice: a 16-byte ArrayBuffer. *)
Lemma block_of_slice (buffer : list Z) :
  (16 <= length buffer)%nat ->
  Uint8Array_set (new_ArrayBuffer PACKET_SIZE) (fst (splice0 PACKET_SIZE buffer))
  = Ok (map Z_to_byte (firstn 16 buffer)) /\
  length (map Z_to_byte (firstn 16 buffer)) = 16%nat.
Proof.
  intros Hge.
  assert (Hlen : length (firstn 16 buffer) = 16%nat)
    by (rewrite length_firstn; lia).
  split; [|now rewrite length_map].
  unfold Uint8Array_set, splice0. cbn [fst].
  change (Z.to_nat PACKET_SIZE) with 16%nat.
  change (new_ArrayBuffer PACKET_SIZE) with (repeat x00 16).
  rewrite Hlen. cbn [length repeat Nat.ltb Nat.leb skipn].
  now rewrite app_nil_r.
Qed.

Lemma parsePacket_block (ab : ArrayBuffer) :
  length ab = 16%nat -> parsePacket ab 0 = Ok (decode ab).
Proof.
  intros Hlen.
  rewrite parsePacket_window by (unfold byteLength, PACKET_SIZE; lia).
  unfold window. cbn [Z.to_nat skipn]. rewrite <- Hlen. now rewrite firstn_all.
Qed.

Lemma drainPackets_step (hasOnError : bool) (buffer : list Z) :
  (16 <= length buffer)%nat ->
  drainPackets hasOnError buffer
  = andThen [CallOnPacket (decode (map Z_to_byte (firstn 16 buffer)))]
            (drainPackets hasOnError (skipn 16 buffer)).
Proof.
  intros Hge. rewrite drainPackets_unfold at 1.
  rewrite (guard_true buffer Hge).
  destruct (block_of_slice buffer Hge) as [Hset Hlen].
  rewrite Hset, (parsePacket_block _ Hlen). reflexivity.
Qed.

Lemma drainPackets_short (hasOnError : bool) (buffer : list Z) :
  (length buffer < 16)%nat ->
  drainPackets hasOnError buffer = mkDrained [] buffer None.
Proof.
  intros Hlt. rewrite drainPackets_unfold. now rewrite (guard_false buffer Hlt).
Qed.

(** Whatever the buffer holds, the inner loop ends normally, reports no
    error and leaves fewer than 16 numbers. *)
Lemma drainPackets_sound (hasOnError : bool) (buffer : list Z) :
  d_exn (drainPackets hasOnError buffer) = None /\
  errors (d_log (drainPackets hasOnError buffer)) = [] /\
  (length (d_buffer (drainPackets hasOnError buffer)) < 16)%nat.
Proof.
  induction buffer as [buffer Hlt | buffer Hge IH] using splice_ind.
  - rewrite drainPackets_short by exact Hlt. cbn. auto.
  - rewrite drainPackets_step by exact Hge. cbn. exact IH.
Qed.

(** *** Frames of a byte string *)

Lemma frames_step (bytes : list byte) :
  (16 <= length bytes)%nat ->
  frames bytes = firstn 16 bytes :: frames (skipn 16 bytes).
Proof.
  intros Hge. rewrite frames_unfold at 1. now rewrite (guard_true bytes Hge).
Qed.

Lemma frames_short (bytes : list byte) :
  (length bytes < 16)%nat -> frames bytes = [].
Proof.
  intros Hlt. rewrite frames_unfold. now rewrite (guard_false bytes Hlt).
Qed.

Lemma remainder_step (bytes : list byte) :
  (16 <= length bytes)%nat -> remainder bytes = remainder (skipn 16 bytes).
Proof.
  intros Hge. unfold remainder. rewrite (frames_step bytes Hge).
  cbn [concat]. rewrite length_app, length_firstn.
  replace (Nat.min 16 (length bytes)) with 16%nat by lia.
  rewrite Nat.add_comm, <- skipn_skipn. reflexivity.
Qed.

Lemma remainder_short (bytes : list byte) :
  (length bytes < 16)%nat -> remainder bytes = bytes.
Proof.
  intros Hlt. unfold remainder. now rewrite (frames_short bytes Hlt).
Qed.

(** The frames are the byte string cut into consecutive 16-byte pieces:
    nothing is lost, nothing reordered, and fewer than 16 bytes stay. *)
Lemma frames_partition (bytes : list byte) :
  concat (frames bytes) ++ remainder bytes = bytes /\
  Forall (fun frame => length frame = 16%nat) (frames bytes) /\
  (length (remainder bytes) < 16)%nat.
Proof.
  induction bytes as [bytes Hlt | bytes Hge (Hcat & Hall & Hrem)] using splice_ind.
  - rewrite frames_short, remainder_short by exact Hlt. cbn. auto.
  - rewrite frames_step, remainder_step by exact Hge. cbn [concat].
    repeat split.
    + rewrite <- app_assoc, Hcat. apply firstn_skipn.
    + constructor; [rewrite length_firstn; lia | exact Hall].
    + exact Hrem.
Qed.

Lemma frames_app (l r : list byte) :
  frames (l ++ r) = frames l ++ frames (remainder l ++ r) /\
  remainder (l ++ r) = remainder (remainder l ++ r).
Proof.
  induction l as [l Hlt | l Hge [IHf IHr]] using splice_ind.
  - rewrite (frames_short l Hlt), (remainder_short l Hlt). auto.
  - assert (Hlr : (16 <= length (l ++ r))%nat) by (rewrite length_app; lia).
    rewrite (frames_step (l ++ r) Hlr), (remainder_step (l ++ r) Hlr).
    rewrite (frames_step l Hge), (remainder_step l Hge).
    rewrite firstn_app, skipn_app.
    replace (16 - length l)%nat with 0%nat by lia.
    change (firstn 0 r) with (@nil byte). change (skipn 0 r) with r.
    rewrite app_nil_r, IHf, IHr. auto.
Qed.

(** On numbers that are bytes the inner loop hands over the decoding of
    every frame and keeps the remainder. *)
Lemma drainPackets_bytes (hasOnError : bool) (bytes : list byte) :
  drainPackets hasOnError (map byte_to_Z bytes)
  = mkDrained (map (fun frame => CallOnPacket (decode frame)) (frames bytes))
              (map byte_to_Z (remainder bytes)) None.
Proof.
  induction bytes as [bytes Hlt | bytes Hge IH] using splice_ind.
  - rewrite drainPackets_short by (now rewrite length_map).
    now rewrite frames_short, remainder_short.
  - rewrite drainPackets_step by (now rewrite length_map).
    rewrite skipn_map, IH, firstn_map, map_Z_to_byte_to_Z.
    rewrite (frames_step bytes Hge), (remainder_step bytes Hge).
    reflexivity.
Qed.

(** *** The outer loop *)

Lemma packets_app (fx fx' : list Effect) :
  packets (fx ++ fx') = packets fx ++ packets fx'.
Proof.
  induction fx as [|[] fx IH]; cbn; rewrite ?IH; reflexivity.
Qed.

Lemma errors_app (fx fx' : list Effect) :
  errors (fx ++ fx') = errors fx ++ errors fx'.
Proof.
  induction fx as [|[] fx IH]; cbn; rewrite ?IH; reflexivity.
Qed.

Lemma packets_calls {A} (f : A -> PacketData) (l : list A) :
  packets (map (fun a => CallOnPacket (f a)) l) = map f l.
Proof. induction l as [|a l IH]; cbn; rewrite ?IH; reflexivity. Qed.

Lemma errors_calls {A} (f : A -> PacketData) (l : list A) :
  errors (map (fun a => CallOnPacket (f a)) l) = [].
Proof. induction l as [|a l IH]; cbn; rewrite ?IH; reflexivity. Qed.

Lemma prepend_nil (o : Outcome) : prepend [] o = o.
Proof. destruct o; reflexivity. Qed.

Lemma prepend_prepend (fx fx' : list Effect) (o : Outcome) :
  prepend fx (prepend fx' o) = prepend (fx ++ fx') o.
Proof. unfold prepend. cbn. now rewrite app_assoc. Qed.

Lemma packets_finally (signal : option bool) (buffer : list Z) :
  packets (log (finally signal buffer)) = [].
Proof. destruct signal as [[|]|]; reflexivity. Qed.

Lemma errors_finally (signal : option bool) (buffer : list Z) :
  errors (log (finally signal buffer)) = [].
Proof. destruct signal as [[|]|]; reflexivity. Qed.

Lemma packets_catch (hasOnError : bool) (signal : option bool) (err : JsError)
      (buffer : list Z) :
  packets (log (catch hasOnError signal err buffer)) = [].
Proof.
  unfold catch. cbn [log prepend]. rewrite packets_app, packets_finally.
  destruct (negb (isAbort err) && hasOnError); reflexivity.
Qed.

Lemma errors_catch (hasOnError : bool) (signal : option bool) (err : JsError)
      (buffer : list Z) :
  errors (log (catch hasOnError signal err buffer))
  = if negb (isAbort err) && hasOnError then [err] else [].
Proof.
  unfold catch. cbn [log prepend]. rewrite errors_app, errors_finally.
  destruct (negb (isAbort err) && hasOnError); reflexivity.
Qed.

Lemma readLoop_aborted (hasOnError : bool) (events : list Event) (buffer : list Z) :
  readLoop hasOnError (Some true) events buffer = finally (Some true) buffer.
Proof. destruct events; reflexivity. Qed.

(** One delivered chunk: the loop appends it, drains, and reads on. *)
Lemma readLoop_chunk (hasOnError : bool) (signal : option bool)
      (chunk : Uint8Array) (events : list Event) (buffer : list Z) :
  signal <> Some true ->
  readLoop hasOnError signal
           (ReadFulfilled (mkReadResult (Some chunk) false) :: events) buffer
  = prepend (d_log (drainPackets hasOnError (buffer ++ map byte_to_Z chunk)))
            (readLoop hasOnError signal events
                      (d_buffer (drainPackets hasOnError (buffer ++ map byte_to_Z chunk)))).
Proof.
  intros Hs.
  destruct (drainPackets_sound hasOnError (buffer ++ map byte_to_Z chunk))
    as (Hexn & _ & _).
  destruct signal as [[|]|]; [congruence | |]; cbn [readLoop Serial.done Serial.value];
    rewrite Hexn; reflexivity.
Qed.

(** A run of delivered chunks, started with [carried] bytes in the
    buffer, hands over the frames of all the bytes and keeps their
    remainder. *)
Lemma readLoop_deliver (hasOnError : bool) (signal : option bool)
      (chunks : list Uint8Array) (tail : list Event) :
  signal <> Some true ->
  forall carried : list byte,
    (length carried < 16)%nat ->
    readLoop hasOnError signal (deliver chunks ++ tail) (map byte_to_Z carried)
    = prepend
        (map (fun frame => CallOnPacket (decode frame))
             (frames (carried ++ concat chunks)))
        (readLoop hasOnError signal tail
                  (map byte_to_Z (remainder (carried ++ concat chunks)))).
Proof.
  intros Hs. induction chunks as [|chunk chunks IH]; intros carried Hlen.
  - cbn [deliver map concat app]. rewrite app_nil_r.
    rewrite (frames_short carried Hlen), (remainder_short carried Hlen).
    cbn [map]. now rewrite prepend_nil.
  - cbn [deliver map concat app]. fold (deliver chunks).
    rewrite readLoop_chunk by exact Hs.
    rewrite <- map_app, drainPackets_bytes. cbn [d_log d_buffer].
    rewrite IH by apply frames_partition.
    rewrite prepend_prepend, <- map_app.
    destruct (frames_app (carried ++ chunk) (concat chunks)) as [Hf Hr].
    now rewrite app_assoc, Hf, Hr.
Qed.

Lemma frames_count (bytes : list byte) :
  length (frames bytes) = (length bytes / 16)%nat.
Proof.
  induction bytes as [bytes Hlt | bytes Hge IH] using splice_ind.
  - rewrite (frames_short bytes Hlt). now rewrite Nat.div_small.
  - rewrite (frames_step bytes Hge). cbn [length]. rewrite IH, length_skipn.
    replace (length bytes) with (1 * 16 + (length bytes - 16))%nat at 2 by lia.
    rewrite Nat.div_add_l by lia. lia.
Qed.

Lemma frames_decodable (bytes : list byte) :
  Forall (fun frame => length frame = 16%nat /\ parsePacket frame 0 = Ok (decode frame))
         (frames bytes).
Proof.
  destruct (frames_partition bytes) as (_ & Hall & _).
  revert Hall. apply Forall_impl. intros frame Hlen.
  split; [exact Hlen | now apply parsePacket_block].
Qed.

(** How the loop ends after the last delivered chunk: suspended at the
    next read, or returned on end of stream. *)
Lemma readLoop_tail (hasOnError : bool) (signal : option bool)
      (tail : list Event) (buffer : list Z) :
  signal <> Some true ->
  tail = [] \/ tail = [endOfStream] ->
  packets (log (readLoop hasOnError signal tail buffer)) = [] /\
  errors (log (readLoop hasOnError signal tail buffer)) = [] /\
  carry (readLoop hasOnError signal tail buffer) = buffer /\
  status (readLoop hasOnError signal tail buffer)
  = match tail with [] => AwaitingRead | _ => Returned end.
Proof.
  intros Hs [-> | ->]; destruct signal as [[|]|]; try congruence; cbn; auto.
Qed.

(** The callbacks of a run over delivered chunks. *)
Lemma startReadLoop_deliver (chunks : list Uint8Array) (hasOnError : bool)
      (signal : option bool) (tail : list Event) :
  signal <> Some true ->
  tail = [] \/ tail = [endOfStream] ->
  packets (log (startReadLoop (portOf (deliver chunks ++ tail)) hasOnError signal))
  = map decode (frames (concat chunks)) /\
  errors (log (startReadLoop (portOf (deliver chunks ++ tail)) hasOnError signal)) = [] /\
  carry (startReadLoop (portOf (deliver chunks ++ tail)) hasOnError signal)
  = map byte_to_Z (remainder (concat chunks)) /\
  status (startReadLoop (portOf (deliver chunks ++ tail)) hasOnError signal)
  = match tail with [] => AwaitingRead | _ => Returned end.
Proof.
  intros Hs Htail. unfold startReadLoop, portOf. cbn [readable].
  change (@nil Z) with (map byte_to_Z []).
  rewrite (@readLoop_deliver hasOnError signal chunks tail Hs [])
    by (cbn; lia).
  cbn [app].
  destruct (@readLoop_tail hasOnError signal tail
              (map byte_to_Z (remainder (concat chunks))) Hs Htail)
    as (Hp & He & Hc & Hst).
  cbn [log carry status prepend].
  rewrite !packets_app, !errors_app, packets_calls, errors_calls, Hp, He.
  repeat split.
  - destruct signal as [[|]|]; try congruence; cbn; apply app_nil_r.
  - destruct signal as [[|]|]; try congruence; reflexivity.
  - exact Hc.
  - exact Hst.
Qed.

(** C1. For every finite sequence of chunks delivered by the reader,
    onPacket is called exactly once per consecutive 16-byte frame of the
    concatenation of the received bytes, in stream order, with the
    decoding of that frame; no byte is lost or reordered (the frames
    followed by the fewer than 16 buffered bytes are the stream).  In
    particular chunks of 10 and 22 bytes yield exactly two samples, the
    same as the one 32-byte chunk. *)
Theorem startReadLoop_frames (hasOnError : bool) (signal : option bool)
        (tail : list Event) :
  signal <> Some true ->
  tail = [] \/ tail = [endOfStream] ->
  (forall chunks : list Uint8Array,
      let bytes := concat chunks in
      let run := startReadLoop (portOf (deliver chunks ++ tail)) hasOnError signal in
      packets (log run) = map decode (frames bytes) /\
      Forall (fun frame => length frame = 16%nat /\
                           parsePacket frame 0 = Ok (decode frame)) (frames bytes) /\
      length (packets (log run)) = (length bytes / 16)%nat /\
      concat (frames bytes) ++ remainder bytes = bytes /\
      (length (remainder bytes) < 16)%nat /\
      carry run = map byte_to_Z (remainder bytes) /\
      errors (log run) = []) /\
  (forall first second : Uint8Array,
      length first = 10%nat -> length second = 22%nat ->
      let split := startReadLoop (portOf (deliver [first; second] ++ tail))
                                 hasOnError signal in
      let whole := startReadLoop (portOf (deliver [first ++ second] ++ tail))
                                 hasOnError signal in
      length (packets (log split)) = 2%nat /\
      packets (log split) = packets (log whole)).
Proof.
  intros Hs Htail. split.
  - intros chunks bytes run.
    destruct (@startReadLoop_deliver chunks hasOnError signal tail Hs Htail)
      as (Hp & He & Hc & _).
    destruct (frames_partition bytes) as (Hcat & _ & Hrem).
    fold bytes in Hp, Hc. fold run in Hp, He, Hc.
    repeat split; try assumption.
    + apply frames_decodable.
    + rewrite Hp, length_map. apply frames_count.
  - intros first second H1 H2 split whole.
    destruct (@startReadLoop_deliver [first; second] hasOnError signal tail Hs Htail)
      as (Hp & _).
    destruct (@startReadLoop_deliver [first ++ second] hasOnError signal tail Hs Htail)
      as (Hp' & _).
    fold split in Hp. fold whole in Hp'. split.
    + rewrite Hp, length_map, frames_count. cbn [concat].
      rewrite !length_app, H1, H2. reflexivity.
    + rewrite Hp, Hp'. cbn [concat]. now rewrite !app_nil_r.
Qed.

Lemma startReadLoop_frames_witness :
  packets (log (startReadLoop
                  (portOf (deliver [repeat x01 10; repeat x02 22] ++ [endOfStream]))
                  true None))
  = packets (log (startReadLoop
                    (portOf (deliver [repeat x01 10 ++ repeat x02 22] ++ [endOfStream]))
                    true None)) /\
  packets (log (startReadLoop
                  (portOf (deliver [repeat x01 10; repeat x02 22] ++ [endOfStream]))
                  true None))
  = [mkPacketData 16843009 16843009 33685761 33686018;
     mkPacketData 33686018 33686018 33686018 33686018].
Proof.
  assert (Hs : @None bool <> Some true) by discriminate.
  pose proof (@startReadLoop_frames true None [endOfStream] Hs (or_intror eq_refl))
    as [Hgeneral Hsplit].
  split.
  - apply (Hsplit (repeat x01 10) (repeat x02 22) eq_refl eq_refl).
  - rewrite (proj1 (Hgeneral [repeat x01 10; repeat x02 22])). reflexivity.
Defined.

(** *** Prefixes of a script *)

(** A run that has returned ignores whatever the script says next. *)
Lemma readLoop_returned (hasOnError : bool) (signal : option bool)
      (pre post : list Event) :
  forall buffer,
    status (readLoop hasOnError signal pre buffer) = Returned ->
    readLoop hasOnError signal (pre ++ post) buffer
    = readLoop hasOnError signal pre buffer.
Proof.
  induction pre as [|ev pre IH]; intros buffer Hst.
  - destruct signal as [[|]|]; cbn in Hst; try discriminate.
    now rewrite !readLoop_aborted.
  - destruct signal as [[|]|]; [now rewrite !readLoop_aborted | |].
    all: destruct ev as [[v d] | err | ]; cbn [app readLoop Serial.done Serial.value] in *;
      try reflexivity.
    all: try (destruct d; [reflexivity|]; destruct v as [chunk|];
              [|now apply IH];
              destruct (d_exn (drainPackets hasOnError (buffer ++ map byte_to_Z chunk)));
              [reflexivity|]; cbn [status prepend] in Hst; now rewrite IH).
    now apply IH.
Qed.

(** A run suspended at a read continues with the rest of the script from
    the buffer it holds. *)
Lemma readLoop_awaiting (hasOnError : bool) (signal : option bool)
      (pre post : list Event) :
  forall buffer,
    status (readLoop hasOnError signal pre buffer) = AwaitingRead ->
    readLoop hasOnError signal (pre ++ post) buffer
    = prepend (log (readLoop hasOnError signal pre buffer))
              (readLoop hasOnError signal post
                        (carry (readLoop hasOnError signal pre buffer))).
Proof.
  induction pre as [|ev pre IH]; intros buffer Hst.
  - destruct signal as [[|]|]; cbn in Hst; try discriminate;
      cbn [app readLoop log carry]; now rewrite prepend_nil.
  - destruct signal as [[|]|];
      [rewrite readLoop_aborted in Hst; discriminate Hst | |].
    all: destruct ev as [[v d] | err | ]; cbn [app readLoop Serial.done Serial.value] in *;
      try discriminate Hst.
    all: try (destruct d; [discriminate Hst|]; destruct v as [chunk|];
              [|now apply IH];
              destruct (d_exn (drainPackets hasOnError (buffer ++ map byte_to_Z chunk)));
              [discriminate Hst|]; cbn [status prepend] in Hst;
              rewrite IH by exact Hst; cbn [log carry prepend];
              now rewrite prepend_prepend).
    now apply IH.
Qed.

Lemma status_cases (s : Status) : s = Returned \/ s = AwaitingRead.
Proof. destruct s; auto. Qed.

(** The buffer stays below one packet across every iteration. *)
Lemma readLoop_carry (hasOnError : bool) (signal : option bool) (events : list Event) :
  forall buffer,
    (length buffer < 16)%nat ->
    (length (carry (readLoop hasOnError signal events buffer)) < 16)%nat.
Proof.
  induction events as [|ev events IH]; intros buffer Hlen.
  - destruct signal as [[|]|]; exact Hlen.
  - destruct signal as [[|]|]; [exact Hlen | |].
    all: destruct ev as [[v d] | err | ]; cbn [readLoop Serial.done Serial.value];
      try exact Hlen.
    all: try (destruct d; [exact Hlen|]; destruct v as [chunk|];
              [|now apply IH];
              destruct (drainPackets_sound hasOnError (buffer ++ map byte_to_Z chunk))
                as (_ & _ & Hd);
              destruct (d_exn (drainPackets hasOnError (buffer ++ map byte_to_Z chunk)));
              [exact Hd | cbn [carry prepend]; now apply IH]).
    now apply IH.
Qed.

(** C8. At every iteration boundary of the read loop, that is wherever
    it is suspended at a read and when it has returned, the buffer holds
    at most 15 bytes: every run of the inner loop leaves fewer than 16,
    and a run over a prefix of the script is the state in which the rest
    of the script is read. *)
Theorem carry_bounded (hasOnError : bool) (signal : option bool) :
  (forall port : SerialPort,
      (length (carry (startReadLoop port hasOnError signal)) <= 15)%nat) /\
  (forall buffer : list Z,
      (length (d_buffer (drainPackets hasOnError buffer)) <= 15)%nat /\
      d_exn (drainPackets hasOnError buffer) = None) /\
  (forall pre post : list Event,
      status (startReadLoop (portOf pre) hasOnError signal) = AwaitingRead ->
      (length (carry (startReadLoop (portOf pre) hasOnError signal)) <= 15)%nat /\
      startReadLoop (portOf (pre ++ post)) hasOnError signal
      = prepend (log (startReadLoop (portOf pre) hasOnError signal))
                (readLoop hasOnError signal post
                          (carry (startReadLoop (portOf pre) hasOnError signal)))).
Proof.
  assert (Hall : forall port : SerialPort,
             (length (carry (startReadLoop port hasOnError signal)) <= 15)%nat).
  { intros [[events|]]; unfold startReadLoop; cbn [readable carry prepend].
    - pose proof (@readLoop_carry hasOnError signal events [] ltac:(cbn; lia)). lia.
    - cbn. lia. }
  split; [exact Hall|]. split.
  - intros buffer.
    destruct (drainPackets_sound hasOnError buffer) as (Hexn & _ & Hlen).
    split; [lia | exact Hexn].
  - intros pre post Hst. split; [apply Hall|].
    unfold startReadLoop, portOf in *. cbn [readable status carry log prepend] in *.
    rewrite (readLoop_awaiting hasOnError signal pre post [] Hst).
    now rewrite !prepend_prepend.
Qed.

Lemma carry_bounded_witness :
  (length (carry (startReadLoop (portOf (deliver [repeat x07 21])) true None)) <= 15)%nat /\
  startReadLoop (portOf (deliver [repeat x07 21] ++ deliver [repeat x08 11])) true None
  = prepend (log (startReadLoop (portOf (deliver [repeat x07 21])) true None))
            (readLoop true None (deliver [repeat x08 11])
                      (carry (startReadLoop (portOf (deliver [repeat x07 21])) true None))).
Proof.
  apply (proj2 (proj2 (carry_bounded true None))
               (deliver [repeat x07 21]) (deliver [repeat x08 11])).
  reflexivity.
Defined.

(** *** Errors reported by the loop *)

(** Every error handed to onError by the loop is a rejected read other
    than an abort. *)
Lemma readLoop_errors (hasOnError : bool) (signal : option bool) (events : list Event) :
  forall buffer e,
    In e (errors (log (readLoop hasOnError signal events buffer))) ->
    In (ReadRejected e) events /\ isAbort e = false.
Proof.
  induction events as [|ev events IH]; intros buffer e Hin.
  - destruct signal as [[|]|]; cbn in Hin; contradiction.
  - destruct signal as [[|]|]; [cbn in Hin; contradiction | |].
    all: destruct ev as [[v d] | err | ]; cbn [readLoop Serial.done Serial.value] in Hin.
    all: try (destruct d; [cbn in Hin; contradiction|]; destruct v as [chunk|];
              [|destruct (IH _ _ Hin); split; [now right | assumption]];
              destruct (drainPackets_sound hasOnError (buffer ++ map byte_to_Z chunk))
                as (Hexn & Herr & _);
              rewrite Hexn in Hin; cbn [log prepend] in Hin;
              rewrite errors_app, Herr in Hin; cbn [app] in Hin;
              destruct (IH _ _ Hin); split; [now right | assumption]).
    all: try (rewrite errors_catch in Hin;
              destruct (isAbort err) eqn:Hab; cbn [negb andb] in Hin;
              [contradiction|];
              destruct hasOnError; [|contradiction];
              destruct Hin as [<- | []]; split; [now left | exact Hab]).
    + cbn in Hin. contradiction.
    + destruct (IH _ _ Hin). split; [now right | assumption].
Qed.

(** C9. Inside the read loop every block handed to parsePacket has
    exactly 16 bytes (it is copied from a splice taken only when the
    buffer holds at least 16), so parsePacket succeeds on it and the
    inner catch never reports a decode failure: the only errors the loop
    reports are rejected reads. *)
Theorem decode_failure_unreachable (hasOnError : bool) :
  (forall buffer : list Z,
      PACKET_SIZE <= Z.of_nat (length buffer) ->
      exists ab,
        Uint8Array_set (new_ArrayBuffer PACKET_SIZE) (fst (splice0 PACKET_SIZE buffer))
        = Ok ab /\
        byteLength ab = PACKET_SIZE /\
        parsePacket ab 0 = Ok (decode ab)) /\
  (forall buffer : list Z,
      errors (d_log (drainPackets hasOnError buffer)) = [] /\
      d_exn (drainPackets hasOnError buffer) = None) /\
  (forall (events : list Event) (signal : option bool) (e : JsError),
      In e (errors (log (startReadLoop (portOf events) hasOnError signal))) ->
      In (ReadRejected e) events).
Proof.
  split; [|split].
  - intros buffer Hge.
    assert (Hlen : (16 <= length buffer)%nat) by (unfold PACKET_SIZE in Hge; lia).
    destruct (block_of_slice buffer Hlen) as [Hset Hab].
    exists (map Z_to_byte (firstn 16 buffer)). split; [exact Hset|]. split.
    + unfold byteLength. now rewrite Hab.
    + now apply parsePacket_block.
  - intros buffer.
    destruct (drainPackets_sound hasOnError buffer) as (Hexn & Herr & _). auto.
  - intros events signal e Hin.
    unfold startReadLoop, portOf in Hin. cbn [readable log prepend] in Hin.
    rewrite errors_app in Hin.
    assert (Hsetup : errors match signal with
                            | Some true => [ReaderCancel]
                            | Some false => [AddAbortListener]
                            | None => []
                            end = [])
      by (destruct signal as [[|]|]; reflexivity).
    rewrite Hsetup in Hin. cbn [app] in Hin.
    now apply readLoop_errors in Hin.
Qed.

Lemma decode_failure_unreachable_witness :
  (exists ab,
      Uint8Array_set (new_ArrayBuffer PACKET_SIZE)
                     (fst (splice0 PACKET_SIZE (repeat 255 20)))
      = Ok ab /\
      byteLength ab = PACKET_SIZE /\
      parsePacket ab 0 = Ok (decode ab)) /\
  In (ReadRejected (Error "device lost"))
     (deliver [repeat x01 40] ++ [ReadRejected (Error "device lost")]).
Proof.
  split.
  - apply (proj1 (decode_failure_unreachable true) (repeat 255 20)).
    cbv; congruence.
  - apply (proj2 (proj2 (decode_failure_unreachable true))
                 (deliver [repeat x01 40] ++ [ReadRejected (Error "device lost")])
                 None).
    cbn. left. reflexivity.
Defined.

(** *** Cancellation *)

(** An event that makes the loop return without a callback, wherever it
    is read, ends every run silently: nothing after it is delivered. *)
Lemma readLoop_silent_end (hasOnError : bool) (signal : option bool)
      (ev : Event) (pre post : list Event) (buffer : list Z) :
  (forall b,
      status (readLoop hasOnError signal (ev :: post) b) = Returned /\
      packets (log (readLoop hasOnError signal (ev :: post) b)) = [] /\
      errors (log (readLoop hasOnError signal (ev :: post) b)) = []) ->
  status (readLoop hasOnError signal (pre ++ ev :: post) buffer) = Returned /\
  packets (log (readLoop hasOnError signal (pre ++ ev :: post) buffer))
  = packets (log (readLoop hasOnError signal pre buffer)) /\
  errors (log (readLoop hasOnError signal (pre ++ ev :: post) buffer))
  = errors (log (readLoop hasOnError signal pre buffer)).
Proof.
  intros Hsilent.
  destruct (status_cases (status (readLoop hasOnError signal pre buffer)))
    as [Hst | Hst].
  - rewrite (readLoop_returned hasOnError signal pre (ev :: post) buffer Hst). auto.
  - rewrite (readLoop_awaiting hasOnError signal pre (ev :: post) buffer Hst).
    destruct (Hsilent (carry (readLoop hasOnError signal pre buffer)))
      as (Hs & Hp & He).
    cbn [status log prepend]. rewrite packets_app, errors_app, Hp, He, !app_nil_r.
    auto.
Qed.

Lemma abort_is_silent (hasOnError : bool) (post : list Event) (b : list Z) :
  status (readLoop hasOnError (Some false) (AbortSignalled :: post) b) = Returned /\
  packets (log (readLoop hasOnError (Some false) (AbortSignalled :: post) b)) = [] /\
  errors (log (readLoop hasOnError (Some false) (AbortSignalled :: post) b)) = [].
Proof. cbn. auto. Qed.

Lemma abort_error_is_silent (hasOnError : bool) (signal : option bool)
      (post : list Event) (b : list Z) :
  status (readLoop hasOnError signal
                   (ReadRejected (DOMException "AbortError") :: post) b) = Returned /\
  packets (log (readLoop hasOnError signal
                         (ReadRejected (DOMException "AbortError") :: post) b)) = [] /\
  errors (log (readLoop hasOnError signal
                        (ReadRejected (DOMException "AbortError") :: post) b)) = [].
Proof. destruct signal as [[|]|]; cbn; auto. Qed.

Lemma startReadLoop_log (hasOnError : bool) (signal : option bool) (events : list Event) :
  status (startReadLoop (portOf events) hasOnError signal)
  = status (readLoop hasOnError signal events []) /\
  packets (log (startReadLoop (portOf events) hasOnError signal))
  = packets (log (readLoop hasOnError signal events [])) /\
  errors (log (startReadLoop (portOf events) hasOnError signal))
  = errors (log (readLoop hasOnError signal events [])).
Proof.
  unfold startReadLoop, portOf. cbn [readable status log prepend].
  rewrite packets_app, errors_app.
  destruct signal as [[|]|]; auto.
Qed.

(** C6. Once the abort signal is set, the read loop returns without
    calling onPacket for anything the script holds after the abort, and
    the cancellation reaches onError neither when the signal fires during
    a read, nor when it was set before the start, nor when the read
    rejects with an AbortError. *)
Theorem cancellation_is_silent (hasOnError : bool) (pre post : list Event) :
  (let before := startReadLoop (portOf pre) hasOnError (Some false) in
   let run := startReadLoop (portOf (pre ++ AbortSignalled :: post))
                            hasOnError (Some false) in
   status run = Returned /\
   packets (log run) = packets (log before) /\
   errors (log run) = errors (log before)) /\
  (let run := startReadLoop (portOf post) hasOnError (Some true) in
   status run = Returned /\ packets (log run) = [] /\ errors (log run) = []) /\
  (forall signal : option bool,
      let before := startReadLoop (portOf pre) hasOnError signal in
      let run := startReadLoop
                   (portOf (pre ++ ReadRejected (DOMException "AbortError") :: post))
                   hasOnError signal in
      status run = Returned /\
      packets (log run) = packets (log before) /\
      errors (log run) = errors (log before)).
Proof.
  split; [|split].
  - cbv zeta.
    destruct (startReadLoop_log hasOnError (Some false) pre) as (_ & -> & ->).
    destruct (startReadLoop_log hasOnError (Some false) (pre ++ AbortSignalled :: post))
      as (-> & -> & ->).
    apply readLoop_silent_end. intros b. apply abort_is_silent.
  - cbv zeta.
    destruct (startReadLoop_log hasOnError (Some true) post) as (-> & -> & ->).
    rewrite readLoop_aborted. cbn. auto.
  - intros signal. cbv zeta.
    destruct (startReadLoop_log hasOnError signal pre) as (_ & -> & ->).
    destruct (startReadLoop_log hasOnError signal
                (pre ++ ReadRejected (DOMException "AbortError") :: post))
      as (-> & -> & ->).
    apply readLoop_silent_end. intros b. apply abort_error_is_silent.
Qed.

(* ===================================================================== *)
(** * Further properties *)
(* ===================================================================== *)

(** ** The packet format *)

Lemma numericLE_bound (bytes : list byte) :
  0 <= numericLE bytes < 256 ^ Z.of_nat (length bytes).
Proof.
  induction bytes as [|b bytes IH].
  - cbn. lia.
  - cbn [numericLE length]. rewrite Nat2Z.inj_succ, Z.pow_succ_r by lia.
    pose proof (byte_to_Z_range b). lia.
Qed.

Lemma numericLE_uint32 (bytes : list byte) :
  0 <= numericLE (firstn 4 bytes) < 2 ^ 32.
Proof.
  pose proof (numericLE_bound (firstn 4 bytes)) as Hb.
  assert (Hlen : (length (firstn 4 bytes) <= 4)%nat)
    by (rewrite length_firstn; lia).
  assert (Hpow : 256 ^ Z.of_nat (length (firstn 4 bytes)) <= 256 ^ 4)
    by (apply Z.pow_le_mono_r; lia).
  change (256 ^ 4) with (2 ^ 32) in Hpow. lia.
Qed.

(** Every outcome of parsePacket, by cases on the guard and the sign of
    the offset. *)
Lemma parsePacket_cases (buffer : ArrayBuffer) (offset : Z) :
  (byteLength buffer < offset + PACKET_SIZE /\
   parsePacket buffer offset
   = Throw (RangeError (FrameTooShort offset (byteLength buffer)))) \/
  (offset < 0 /\ parsePacket buffer offset = Throw (RangeError ViewBounds)) \/
  (0 <= offset /\ offset + PACKET_SIZE <= byteLength buffer /\
   parsePacket buffer offset = Ok (decode (window buffer offset))).
Proof.
  destruct (Z.lt_ge_cases (byteLength buffer) (offset + PACKET_SIZE)) as [Hlt|Hge].
  - left. split; [exact Hlt | now apply parsePacket_guard].
  - destruct (Z.lt_ge_cases offset 0) as [Hneg|Hpos].
    + right; left. split; [exact Hneg | now apply parsePacket_negative].
    + right; right. repeat split; try assumption. now apply parsePacket_window.
Qed.

(** X1. Whatever the buffer and the offset, each channel of a parsed
    packet is an unsigned 32-bit value. *)
Theorem parsePacket_channels_uint32 (buffer : ArrayBuffer) (offset : Z)
        (data : PacketData) :
  parsePacket buffer offset = Ok data ->
  0 <= ch0 data < 2 ^ 32 /\ 0 <= ch1 data < 2 ^ 32 /\
  0 <= ch2 data < 2 ^ 32 /\ 0 <= ch3 data < 2 ^ 32.
Proof.
  intros Hok.
  destruct (parsePacket_cases buffer offset)
    as [[_ Hthrow] | [[_ Hthrow] | (_ & _ & Hdec)]]; try congruence.
  rewrite Hdec in Hok. injection Hok as <-.
  unfold decode. cbn [ch0 ch1 ch2 ch3].
  repeat split; apply numericLE_uint32.
Qed.

Lemma parsePacket_channels_uint32_witness :
  0 <= ch0 (mkPacketData 4294967295 4278255360 16711935 252645135) < 2 ^ 32 /\
  0 <= ch1 (mkPacketData 4294967295 4278255360 16711935 252645135) < 2 ^ 32 /\
  0 <= ch2 (mkPacketData 4294967295 4278255360 16711935 252645135) < 2 ^ 32 /\
  0 <= ch3 (mkPacketData 4294967295 4278255360 16711935 252645135) < 2 ^ 32.
Proof.
  apply (@parsePacket_channels_uint32
           ([x07] ++ repeat xff 4 ++ [x00; xff; x00; xff; xff; x00; xff; x00]
                  ++ repeat x0f 4 ++ [x09; x09])
           1).
  reflexivity.
Defined.

Lemma Z_to_byte_of_residue (z : Z) (b : byte) :
  z mod 256 = byte_to_Z b -> Z_to_byte z = b.
Proof.
  intros Hres. unfold Z_to_byte. rewrite Hres.
  unfold byte_to_Z. now rewrite N2Z.id, Byte.of_to_N.
Qed.

(** Little-endian encoding inverts the decoding of four bytes. *)
Lemma bytesLE32_numericLE (b0 b1 b2 b3 : byte) :
  bytesLE32 (numericLE [b0; b1; b2; b3]) = [b0; b1; b2; b3].
Proof.
  pose proof (byte_to_Z_range b0) as H0. pose proof (byte_to_Z_range b1) as H1.
  pose proof (byte_to_Z_range b2) as H2. pose proof (byte_to_Z_range b3) as H3.
  unfold bytesLE32. cbn [numericLE].
  set (v := byte_to_Z b0 + 256 * (byte_to_Z b1 + 256 * (byte_to_Z b2
              + 256 * (byte_to_Z b3 + 256 * 0)))).
  assert (Hv : 0 <= v < 2 ^ 32) by (unfold v; lia).
  rewrite (Z.mod_small v) by exact Hv.
  change (2 ^ 8) with 256. change (2 ^ 16) with (256 * 256).
  change (2 ^ 24) with (256 * (256 * 256)).
  rewrite <- !Z.div_div by lia.
  assert (Hq1 : v / 256 = byte_to_Z b1 + 256 * (byte_to_Z b2 + 256 * byte_to_Z b3)).
  { symmetry. apply (Z.div_unique _ _ _ (byte_to_Z b0)); [lia | unfold v; lia]. }
  assert (Hq2 : v / 256 / 256 = byte_to_Z b2 + 256 * byte_to_Z b3).
  { rewrite Hq1. symmetry.
    apply (Z.div_unique _ _ _ (byte_to_Z b1)); [lia | lia]. }
  assert (Hq3 : v / 256 / 256 / 256 = byte_to_Z b3).
  { rewrite Hq2. symmetry.
    apply (Z.div_unique _ _ _ (byte_to_Z b2)); [lia | lia]. }
  f_equal; [|f_equal; [|f_equal; [|f_equal]]]; apply Z_to_byte_of_residue.
  - symmetry. apply (Z.mod_unique _ _ (v / 256)); [lia|].
    pose proof (Z.div_mod v 256 ltac:(lia)) as Hd.
    assert (v mod 256 = byte_to_Z b0); [|lia].
    symmetry. apply (Z.mod_unique _ _
      (byte_to_Z b1 + 256 * (byte_to_Z b2 + 256 * byte_to_Z b3))); [lia | unfold v; lia].
  - rewrite Hq1. symmetry.
    apply (Z.mod_unique _ _ (byte_to_Z b2 + 256 * byte_to_Z b3)); [lia | lia].
  - rewrite Hq2. symmetry. apply (Z.mod_unique _ _ (byte_to_Z b3)); [lia | lia].
  - rewrite Hq3. apply Z.mod_small. lia.
Qed.

(** X2. Decoding loses nothing: writing the four channels parsed from a
    16-byte frame back, little-endian at offsets 0, 4, 8 and 12 of any
    16-byte block, rebuilds the frame byte for byte; so two different
    frames never parse to the same packet. *)
Theorem parsePacket_lossless (frame block : ArrayBuffer) :
  length frame = 16%nat -> length block = 16%nat ->
  exists data,
    parsePacket frame 0 = Ok data /\
    writeChannels block (ch0 data) (ch1 data) (ch2 data) (ch3 data) = Ok frame /\
    (forall frame' : ArrayBuffer,
        length frame' = 16%nat -> parsePacket frame' 0 = Ok data -> frame' = frame).
Proof.
  intros Hframe Hblock.
  assert (Hback : forall f : ArrayBuffer,
             length f = 16%nat ->
             bytesLE32 (ch0 (decode f)) ++ bytesLE32 (ch1 (decode f))
               ++ bytesLE32 (ch2 (decode f)) ++ bytesLE32 (ch3 (decode f)) = f).
  { intros f Hf. explode f Hf. unfold decode. cbn [ch0 ch1 ch2 ch3 firstn skipn].
    now rewrite !bytesLE32_numericLE. }
  exists (decode frame). split; [now apply parsePacket_block|]. split.
  - rewrite writeChannels_block by exact Hblock. now rewrite Hback.
  - intros frame' Hframe' Hparse.
    rewrite parsePacket_block in Hparse by exact Hframe'.
    assert (Hdec : decode frame' = decode frame) by congruence.
    rewrite <- (Hback frame' Hframe'), Hdec.
    now apply Hback.
Qed.

Lemma parsePacket_lossless_witness :
  exists data,
    parsePacket (repeat x5a 16) 0 = Ok data /\
    writeChannels (new_ArrayBuffer 16) (ch0 data) (ch1 data) (ch2 data) (ch3 data)
    = Ok (repeat x5a 16) /\
    (forall frame' : ArrayBuffer,
        length frame' = 16%nat -> parsePacket frame' 0 = Ok data ->
        frame' = repeat x5a 16).
Proof.
  apply (@parsePacket_lossless (repeat x5a 16) (new_ArrayBuffer 16));
    reflexivity.
Defined.

Lemma concat_frames_length (fs : list (list byte)) :
  Forall (fun frame => length frame = 16%nat) fs ->
  length (concat fs) = (16 * length fs)%nat.
Proof.
  induction 1 as [|frame fs Hframe _ IH]; [reflexivity|].
  cbn [concat length]. rewrite length_app, Hframe, IH. lia.
Qed.

(** X3. Frames stored back to back in one buffer are retrieved by their
    offsets: parsing at offset 16 * i returns the decoding of frame i. *)
Theorem parsePacket_indexed (fs : list (list byte)) (i : nat) (frame : list byte) :
  Forall (fun f => length f = 16%nat) fs ->
  nth_error fs i = Some frame ->
  parsePacket (concat fs) (PACKET_SIZE * Z.of_nat i) = Ok (decode frame).
Proof.
  intros Hall Hnth.
  destruct (nth_error_split fs i Hnth) as (pre & post & -> & Hi).
  apply Forall_app in Hall. destruct Hall as [Hpre Hrest].
  inversion Hrest as [|? ? Hframe Hpost]; subst.
  rewrite concat_app. cbn [concat].
  replace (PACKET_SIZE * Z.of_nat (length pre))
    with (Z.of_nat (length (concat pre)))
    by (rewrite (concat_frames_length Hpre); unfold PACKET_SIZE; lia).
  rewrite parsePacket_window.
  - now rewrite window_app.
  - lia.
  - unfold byteLength, PACKET_SIZE. rewrite !length_app. lia.
Qed.

Lemma parsePacket_indexed_witness :
  parsePacket (concat [repeat x01 16; repeat x02 16; repeat x03 16])
              (PACKET_SIZE * Z.of_nat 2)
  = Ok (decode (repeat x03 16)).
Proof.
  apply (@parsePacket_indexed [repeat x01 16; repeat x02 16; repeat x03 16] 2).
  - repeat constructor.
  - reflexivity.
Defined.

(** X4. Reading at a non-negative offset is reading the buffer sliced at
    that offset from its start: the two succeed together and return the
    same packet. *)
Theorem parsePacket_offset_slice (buffer : ArrayBuffer) (offset : Z)
        (data : PacketData) :
  0 <= offset ->
  (parsePacket buffer offset = Ok data
   <-> parsePacket (skipn (Z.to_nat offset) buffer) 0 = Ok data).
Proof.
  intros Ho.
  assert (Hlen : byteLength (skipn (Z.to_nat offset) buffer)
                 = Z.max 0 (byteLength buffer - offset)).
  { unfold byteLength. rewrite length_skipn. lia. }
  assert (Hwin : window (skipn (Z.to_nat offset) buffer) 0 = window buffer offset)
    by reflexivity.
  destruct (parsePacket_cases buffer offset)
    as [[Hshort Hthrow] | [[Hneg _] | (_ & Hfits & Hdec)]]; [| lia |].
  - rewrite Hthrow.
    rewrite parsePacket_guard by (unfold PACKET_SIZE in *; lia).
    split; discriminate.
  - rewrite Hdec.
    rewrite parsePacket_window by (unfold PACKET_SIZE in *; lia).
    now rewrite Hwin.
Qed.

Lemma parsePacket_offset_slice_witness :
  parsePacket (repeat x00 3 ++ repeat x11 16 ++ [x22]) 3 = Ok (decode (repeat x11 16))
  <-> parsePacket (skipn (Z.to_nat 3) (repeat x00 3 ++ repeat x11 16 ++ [x22])) 0
      = Ok (decode (repeat x11 16)).
Proof.
  apply (@parsePacket_offset_slice (repeat x00 3 ++ repeat x11 16 ++ [x22]) 3).
  lia.
Defined.

(** ** The shape of a run of the read loop *)

Lemma startReadLoop_unfold (events : list Event) (hasOnError : bool)
      (signal : option bool) :
  startReadLoop (portOf events) hasOnError signal
  = prepend (setup signal) (readLoop hasOnError signal events []).
Proof. reflexivity. Qed.

Lemma log_finally (signal : option bool) (buffer : list Z) :
  log (finally signal buffer) = log (finally signal []).
Proof. reflexivity. Qed.

(** The inner loop only ever calls onPacket. *)
Lemma drainPackets_log (hasOnError : bool) (buffer : list Z) :
  exists ps, d_log (drainPackets hasOnError buffer) = map CallOnPacket ps.
Proof.
  induction buffer as [buffer Hlt | buffer Hge [ps IH]] using splice_ind.
  - exists []. now rewrite drainPackets_short.
  - exists (decode (map Z_to_byte (firstn 16 buffer)) :: ps).
    rewrite drainPackets_step by exact Hge. cbn [andThen d_log app map].
    now rewrite IH.
Qed.

(** Every run is a series of onPacket calls followed by one ending. *)
Lemma readLoop_shape (hasOnError : bool) (signal : option bool) (events : list Event) :
  forall buffer,
  exists ps tail,
    log (readLoop hasOnError signal events buffer) = map CallOnPacket ps ++ tail /\
    Ending hasOnError signal (status (readLoop hasOnError signal events buffer)) tail.
Proof.
  induction events as [|ev events IH]; intros buffer.
  - exists [], (log (readLoop hasOnError signal [] buffer)). split; [reflexivity|].
    destruct signal as [[|]|]; cbn; try apply EndBreak;
      apply EndAwaiting; discriminate.
  - destruct signal as [[|]|] eqn:Hsig.
    { exists [], (log (finally (Some true) [])). split; [reflexivity|]. apply EndBreak. }
    all: destruct ev as [[v d] | err | ]; cbn [readLoop Serial.done Serial.value].
    all: try (destruct d;
              [exists [], (log (finally signal [])); subst signal;
               split; [reflexivity | apply EndBreak] |];
              destruct v as [chunk|]; [|apply IH];
              destruct (drainPackets_sound hasOnError (buffer ++ map byte_to_Z chunk))
                as (Hexn & _ & _);
              destruct (drainPackets_log hasOnError (buffer ++ map byte_to_Z chunk))
                as [ps1 Hlog];
              rewrite Hexn;
              destruct (IH (d_buffer (drainPackets hasOnError
                                        (buffer ++ map byte_to_Z chunk))))
                as (ps2 & tail & Hlog2 & Hend);
              exists (ps1 ++ ps2), tail; cbn [log status prepend];
              rewrite Hlog, Hlog2, map_app, app_assoc; split; [reflexivity | exact Hend]).
    all: try (unfold catch; cbn [log status prepend finally];
              destruct (isAbort err) eqn:Hab; cbn [negb andb];
              [exists [], (log (finally signal [])); subst signal;
               split; [reflexivity | apply EndBreak] |];
              destruct hasOnError;
              [exists [], (CallOnError err :: log (finally signal [])); subst signal;
               split; [reflexivity | now apply EndError]
              |exists [], (log (finally signal [])); subst signal;
               split; [reflexivity | apply EndBreak]]).
    + exists [], (ReaderCancel :: log (finally (Some true) [])).
      split; [reflexivity | now apply EndAbort].
    + apply IH.
Qed.

Lemma startReadLoop_shape (events : list Event) (hasOnError : bool)
      (signal : option bool) :
  exists ps tail,
    log (startReadLoop (portOf events) hasOnError signal)
    = setup signal ++ map CallOnPacket ps ++ tail /\
    Ending hasOnError signal
           (status (startReadLoop (portOf events) hasOnError signal)) tail.
Proof.
  rewrite startReadLoop_unfold. cbn [log status prepend].
  destruct (readLoop_shape hasOnError signal events []) as (ps & tail & Hlog & Hend).
  exists ps, tail. now rewrite Hlog.
Qed.

Lemma occurrences_app (kind : Effect -> bool) (fx fx' : list Effect) :
  occurrences kind (fx ++ fx') = (occurrences kind fx + occurrences kind fx')%nat.
Proof. unfold occurrences. now rewrite filter_app, length_app. Qed.

Lemma occurrences_packets (kind : Effect -> bool) (ps : list PacketData) :
  (forall p, kind (CallOnPacket p) = false) ->
  occurrences kind (map CallOnPacket ps) = 0%nat.
Proof.
  intros Hkind. unfold occurrences.
  induction ps as [|p ps IH]; [reflexivity|]. cbn [map filter]. now rewrite Hkind.
Qed.

(** ** Fatal errors, cleanup and listeners *)

(** With callbacks that only observe, a read rejected with anything but
    an AbortError ends the loop after one report. *)
Lemma observed_fatal (chunks : list Uint8Array) (err : JsError)
        (post : list Event) (hasOnError : bool) (signal : option bool) :
  signal <> Some true -> isAbort err = false ->
  startReadLoop (portOf (deliver chunks ++ ReadRejected err :: post)) hasOnError signal
  = mkOutcome
      (setup signal
       ++ map (fun frame => CallOnPacket (decode frame)) (frames (concat chunks))
       ++ (if hasOnError then [CallOnError err] else [])
       ++ log (finally signal []))
      (map byte_to_Z (remainder (concat chunks)))
      Returned.
Proof.
  intros Hs Hab. rewrite startReadLoop_unfold.
  change (@nil Z) with (map byte_to_Z []) at 1.
  rewrite (@readLoop_deliver hasOnError signal chunks (ReadRejected err :: post) Hs [])
    by (cbn; lia).
  cbn [app].
  assert (Hcatch : forall b,
             readLoop hasOnError signal (ReadRejected err :: post) b
             = catch hasOnError signal err b)
    by (intros b; destruct signal as [[|]|]; [congruence | reflexivity | reflexivity]).
  rewrite Hcatch. unfold catch, prepend. rewrite Hab.
  cbn [negb andb log carry status finally].
  destruct hasOnError; reflexivity.
Qed.

(** X6. The reader's lock is released exactly once, as the last thing a
    run does, whenever startReadLoop returns on a port with a readable
    stream; while the loop is waiting for a read the lock is held; and
    without a readable stream no lock is taken or released. *)
Theorem startReadLoop_releases_lock (events : list Event) (hasOnError : bool)
        (signal : option bool) :
  (status (startReadLoop (portOf events) hasOnError signal) = Returned ->
   (exists fx, log (startReadLoop (portOf events) hasOnError signal)
               = fx ++ [ReleaseLock]) /\
   occurrences isReleaseLock (log (startReadLoop (portOf events) hasOnError signal))
   = 1%nat) /\
  (status (startReadLoop (portOf events) hasOnError signal) = AwaitingRead ->
   occurrences isReleaseLock (log (startReadLoop (portOf events) hasOnError signal))
   = 0%nat) /\
  occurrences isReleaseLock (log (startReadLoop (mkSerialPort None) hasOnError signal))
  = 0%nat.
Proof.
  destruct (startReadLoop_shape events hasOnError signal) as (ps & tail & Hlog & Hend).
  rewrite Hlog.
  assert (Hsetup : occurrences isReleaseLock (setup signal) = 0%nat)
    by (destruct signal as [[|]|]; reflexivity).
  rewrite !occurrences_app, Hsetup, occurrences_packets by reflexivity.
  split; [|split].
  - intros Hst. rewrite Hst in Hend.
    inversion Hend as [ | Htail | err Hab Hh Htail | Hs Htail ]; subst.
    + split.
      * exists (setup signal ++ map CallOnPacket ps
                  ++ match signal with Some false => [RemoveAbortListener] | _ => [] end).
        rewrite <- !app_assoc. reflexivity.
      * destruct signal as [[|]|]; reflexivity.
    + split.
      * exists (setup signal ++ map CallOnPacket ps ++ CallOnError err
                  :: match signal with Some false => [RemoveAbortListener] | _ => [] end).
        rewrite <- !app_assoc. reflexivity.
      * destruct signal as [[|]|]; reflexivity.
    + split.
      * exists (setup (Some false) ++ map CallOnPacket ps ++ [ReaderCancel]).
        rewrite <- !app_assoc. reflexivity.
      * reflexivity.
  - intros Hst. rewrite Hst in Hend.
    inversion Hend; subst. reflexivity.
  - destruct hasOnError; reflexivity.
Qed.

Lemma startReadLoop_releases_lock_witness :
  ((exists fx, log (startReadLoop (portOf (deliver [repeat x01 16] ++ [endOfStream]))
                                  true (Some false))
               = fx ++ [ReleaseLock]) /\
   occurrences isReleaseLock
     (log (startReadLoop (portOf (deliver [repeat x01 16] ++ [endOfStream]))
                         true (Some false))) = 1%nat) /\
  occurrences isReleaseLock
    (log (startReadLoop (portOf (deliver [repeat x01 16])) true (Some false))) = 0%nat.
Proof.
  split.
  - apply (proj1 (startReadLoop_releases_lock
                    (deliver [repeat x01 16] ++ [endOfStream]) true (Some false))).
    reflexivity.
  - apply (proj1 (proj2 (startReadLoop_releases_lock
                           (deliver [repeat x01 16]) true (Some false)))).
    reflexivity.
Defined.

(** X7. Abort listener bookkeeping: a listener is added exactly when a
    signal that is not yet aborted is passed; when such a run returns,
    either the listener has fired and cancelled the reader or it has been
    removed, never both and never neither; the reader is cancelled once
    when the signal was aborted from the start; without a signal none of
    this happens. *)
Theorem startReadLoop_listener (events : list Event) (hasOnError : bool)
        (signal : option bool) :
  let fx := log (startReadLoop (portOf events) hasOnError signal) in
  let st := status (startReadLoop (portOf events) hasOnError signal) in
  occurrences isAddAbortListener fx
  = match signal with Some false => 1%nat | _ => 0%nat end /\
  (occurrences isReaderCancel fx + occurrences isRemoveAbortListener fx)%nat
  = match signal, st with
    | Some true, _ => 1%nat
    | Some false, Returned => 1%nat
    | _, _ => 0%nat
    end /\
  (occurrences isRemoveAbortListener fx <= occurrences isAddAbortListener fx)%nat.
Proof.
  intros fx st. subst fx st.
  destruct (startReadLoop_shape events hasOnError signal) as (ps & tail & Hlog & Hend).
  rewrite Hlog. rewrite !occurrences_app, !occurrences_packets by reflexivity.
  destruct (status (startReadLoop (portOf events) hasOnError signal));
    inversion Hend as [ Hs Htail | Htail | err Hab Hh Htail | Hs Htail ]; subst tail;
    destruct signal as [[|]|]; try congruence; cbn; auto.
Qed.

(** With callbacks that only observe, onError is called at most once in
    a run, and last of all callbacks. *)
Lemma observed_one_error (events : list Event) (hasOnError : bool)
        (signal : option bool) :
  (length (errors (log (startReadLoop (portOf events) hasOnError signal))) <= 1)%nat /\
  (forall e,
      In e (errors (log (startReadLoop (portOf events) hasOnError signal))) ->
      hasOnError = true /\ isAbort e = false /\
      status (startReadLoop (portOf events) hasOnError signal) = Returned /\
      exists before after,
        log (startReadLoop (portOf events) hasOnError signal)
        = before ++ CallOnError e :: after /\
        errors before = [] /\ packets after = [] /\ errors after = []) /\
  (hasOnError = false ->
   forall port,
     errors (log (startReadLoop port hasOnError signal)) = []).
Proof.
  assert (Hsetup : forall s, errors (setup s) = [] /\ packets (setup s) = [])
    by (intros [[|]|]; split; reflexivity).
  assert (Hfin : forall s, errors (log (finally s [])) = []
                           /\ packets (log (finally s [])) = [])
    by (intros [[|]|]; split; reflexivity).
  assert (Hcalls : forall ps, errors (map CallOnPacket ps) = []).
  { intros ps. induction ps as [|p ps IH]; [reflexivity | exact IH]. }
  assert (Hshape : forall evs,
             exists ps tail,
               log (startReadLoop (portOf evs) hasOnError signal)
               = setup signal ++ map CallOnPacket ps ++ tail /\
               Ending hasOnError signal
                      (status (startReadLoop (portOf evs) hasOnError signal)) tail)
    by (intros evs; apply startReadLoop_shape).
  split; [|split].
  - destruct (Hshape events) as (ps & tail & Hlog & Hend).
    rewrite Hlog, !errors_app, (proj1 (Hsetup signal)), Hcalls. cbn [app].
    inversion Hend; subst; cbn [errors]; rewrite ?errors_finally; cbn; lia.
  - intros e Hin.
    destruct (Hshape events) as (ps & tail & Hlog & Hend).
    rewrite Hlog, !errors_app, (proj1 (Hsetup signal)), Hcalls in Hin.
    cbn [app] in Hin.
    inversion Hend as [ Hs Htail Hst | Htail Hst | err Hab Hh Htail Hst | Hs Htail Hst ];
      subst tail; cbn [errors] in Hin; rewrite ?errors_finally in Hin;
      try contradiction.
    destruct Hin as [<- | []].
    split; [exact Hh|]. split; [exact Hab|]. split; [symmetry; exact Htail|].
    exists (setup signal ++ map CallOnPacket ps), (log (finally signal [])).
    rewrite Hlog, <- app_assoc. split; [reflexivity|].
    rewrite errors_app, (proj1 (Hsetup signal)), Hcalls.
    destruct (Hfin signal) as [He Hp]. auto.
  - intros Hno [[evs|]].
    + destruct (Hshape evs) as (ps & tail & Hlog & Hend).
      change (mkSerialPort (Some evs)) with (portOf evs).
      rewrite Hlog, !errors_app, (proj1 (Hsetup signal)), Hcalls. cbn [app].
      inversion Hend; subst; cbn [errors]; rewrite ?errors_finally;
        try reflexivity; congruence.
    + subst hasOnError. reflexivity.
Qed.

(** ** When the loop stops, and what it ignores *)

Lemma readLoop_returns_iff (hasOnError : bool) (signal : option bool)
      (events : list Event) :
  forall buffer,
    status (readLoop hasOnError signal events buffer) = Returned
    <-> signal = Some true \/ existsb (stopsLoop signal) events = true.
Proof.
  induction events as [|ev events IH]; intros buffer.
  - destruct signal as [[|]|]; cbn; split; intros H; auto;
      try discriminate; destruct H; congruence.
  - destruct signal as [[|]|] eqn:Hsig.
    { rewrite readLoop_aborted. cbn. split; auto. }
    all: destruct ev as [[v d] | err | ];
      cbn [readLoop existsb stopsLoop Serial.done Serial.value orb].
    all: try (destruct d; cbn [orb];
              [split; cbn; auto |];
              destruct v as [chunk|]; [|apply IH];
              destruct (drainPackets_sound hasOnError (buffer ++ map byte_to_Z chunk))
                as (Hexn & _ & _);
              rewrite Hexn; cbn [status prepend]; apply IH).
    all: try apply IH.
    all: split; cbn; auto.
Qed.

(** With callbacks that only observe, the loop returns exactly at the
    first event that stops it. *)
Lemma observed_returns_iff (events : list Event) (hasOnError : bool)
        (signal : option bool) :
  (status (startReadLoop (portOf events) hasOnError signal) = Returned
   <-> signal = Some true \/ existsb (stopsLoop signal) events = true) /\
  (status (startReadLoop (portOf events) hasOnError signal) = AwaitingRead
   <-> signal <> Some true /\ existsb (stopsLoop signal) events = false).
Proof.
  rewrite startReadLoop_unfold. cbn [status prepend].
  pose proof (readLoop_returns_iff hasOnError signal events []) as Hiff.
  split; [exact Hiff|].
  destruct (status (readLoop hasOnError signal events [])).
  - split; [discriminate|]. intros [Hs Hex].
    destruct (proj1 Hiff eq_refl) as [H | H]; congruence.
  - split; [|reflexivity]. intros _.
    split.
    + intros Hs. assert (AwaitingRead = Returned) by (apply Hiff; auto). discriminate.
    + destruct (existsb (stopsLoop signal) events) eqn:Hex; [|reflexivity].
      assert (AwaitingRead = Returned) by (apply Hiff; auto). discriminate.
Qed.

(** Two continuations the loop treats alike from every buffer are
    treated alike after any common beginning of the script. *)
Lemma readLoop_suffix (hasOnError : bool) (signal : option bool)
      (pre here there : list Event) :
  (forall b, readLoop hasOnError signal here b = readLoop hasOnError signal there b) ->
  forall buffer,
    readLoop hasOnError signal (pre ++ here) buffer
    = readLoop hasOnError signal (pre ++ there) buffer.
Proof.
  intros Hsame buffer.
  destruct (status_cases (status (readLoop hasOnError signal pre buffer)))
    as [Hst | Hst].
  - now rewrite !(readLoop_returned hasOnError signal pre _ buffer Hst).
  - rewrite !(readLoop_awaiting hasOnError signal pre _ buffer Hst).
    now rewrite Hsame.
Qed.

(** X10. A fulfilled read without a value and without done is skipped:
    taking it out of the stream changes nothing.  A read that has done
    set ends the loop like the end of the stream even when it carries a
    chunk: that chunk is dropped and nothing after it is read. *)
Theorem startReadLoop_ignored_reads (pre post : list Event) (hasOnError : bool)
        (signal : option bool) :
  startReadLoop (portOf (pre ++ ReadFulfilled (mkReadResult None false) :: post))
                hasOnError signal
  = startReadLoop (portOf (pre ++ post)) hasOnError signal /\
  (forall chunk : Uint8Array,
      startReadLoop (portOf (pre ++ ReadFulfilled (mkReadResult (Some chunk) true) :: post))
                    hasOnError signal
      = startReadLoop (portOf (pre ++ [endOfStream])) hasOnError signal).
Proof.
  rewrite !startReadLoop_unfold. split.
  - f_equal. apply readLoop_suffix. intros b.
    destruct signal as [[|]|]; [now rewrite !readLoop_aborted | |]; reflexivity.
  - intros chunk. rewrite !startReadLoop_unfold. f_equal.
    apply readLoop_suffix. intros b.
    destruct signal as [[|]|]; reflexivity.
Qed.

(** With callbacks that only observe, only the bytes matter, not how the
    reader cuts them into chunks. *)
Lemma observed_rechunk (chunks chunks' : list Uint8Array) (tail : list Event)
        (hasOnError : bool) (signal : option bool) :
  concat chunks = concat chunks' ->
  startReadLoop (portOf (deliver chunks ++ tail)) hasOnError signal
  = startReadLoop (portOf (deliver chunks' ++ tail)) hasOnError signal.
Proof.
  intros Hsame. rewrite !startReadLoop_unfold. f_equal.
  assert (Hcarried : (length (@nil byte) < 16)%nat) by (cbn; lia).
  destruct signal as [[|]|].
  - now rewrite !readLoop_aborted.
  - assert (Hs : Some false <> Some true) by discriminate.
    change (@nil Z) with (map byte_to_Z []).
    rewrite (@readLoop_deliver hasOnError (Some false) chunks tail Hs [] Hcarried).
    rewrite (@readLoop_deliver hasOnError (Some false) chunks' tail Hs [] Hcarried).
    cbn [app]. now rewrite Hsame.
  - assert (Hs : @None bool <> Some true) by discriminate.
    change (@nil Z) with (map byte_to_Z []).
    rewrite (@readLoop_deliver hasOnError None chunks tail Hs [] Hcarried).
    rewrite (@readLoop_deliver hasOnError None chunks' tail Hs [] Hcarried).
    cbn [app]. now rewrite Hsame.
Qed.

(** ** Callbacks that act on the loop *)

Lemma acting_drainPackets_unfold (h : Callbacks.Handlers) (history : list Effect)
      (signal : option bool) (buffer : list Z) :
  Callbacks.drainPackets h history signal buffer
  = if PACKET_SIZE <=? Z.of_nat (length buffer)
    then
      match Uint8Array_set (new_ArrayBuffer PACKET_SIZE)
                           (fst (splice0 PACKET_SIZE buffer)) with
      | Throw e =>
          Callbacks.mkDrain [] (snd (splice0 PACKET_SIZE buffer)) signal (Some e)
      | Ok ab =>
          let c := Callbacks.handleBlock h history signal ab in
          match Callbacks.c_exn c with
          | Some e =>
              Callbacks.mkDrain (Callbacks.c_log c) (snd (splice0 PACKET_SIZE buffer))
                                (Callbacks.c_signal c) (Some e)
          | None =>
              let d := Callbacks.drainPackets h (history ++ Callbacks.c_log c)
                                              (Callbacks.c_signal c)
                                              (snd (splice0 PACKET_SIZE buffer)) in
              Callbacks.mkDrain (Callbacks.c_log c ++ Callbacks.dr_log d)
                                (Callbacks.dr_buffer d) (Callbacks.dr_signal d)
                                (Callbacks.dr_exn d)
          end
      end
    else Callbacks.mkDrain [] buffer signal None.
Proof.
  funelim (Callbacks.drainPackets h history signal buffer);
    match goal with Hc : (_ <=? _) = _ |- _ => rewrite Hc end; reflexivity.
Qed.

(** The body of the inner loop on a block of 16 bytes: parsePacket
    succeeds, so what happens is up to onPacket. *)
Lemma handleBlock_frame (h : Callbacks.Handlers) (history : list Effect)
      (signal : option bool) (ab : ArrayBuffer) :
  length ab = 16%nat ->
  Callbacks.handleBlock h history signal ab
  = match Callbacks.c_exn (Callbacks.call (Callbacks.onPacket h) CallOnPacket
                                          history signal (decode ab)),
          Callbacks.onError h with
    | None, _ =>
        Callbacks.call (Callbacks.onPacket h) CallOnPacket history signal (decode ab)
    | Some e, None =>
        Callbacks.mkCalled
          (Callbacks.c_log (Callbacks.call (Callbacks.onPacket h) CallOnPacket
                                           history signal (decode ab)))
          (Callbacks.c_signal (Callbacks.call (Callbacks.onPacket h) CallOnPacket
                                              history signal (decode ab)))
          None
    | Some e, Some f =>
        Callbacks.mkCalled
          (Callbacks.c_log (Callbacks.call (Callbacks.onPacket h) CallOnPacket
                                           history signal (decode ab))
           ++ Callbacks.c_log
                (Callbacks.call f CallOnError
                   (history ++ Callbacks.c_log
                                 (Callbacks.call (Callbacks.onPacket h) CallOnPacket
                                                 history signal (decode ab)))
                   (Callbacks.c_signal
                      (Callbacks.call (Callbacks.onPacket h) CallOnPacket
                                      history signal (decode ab)))
                   e))
          (Callbacks.c_signal
             (Callbacks.call f CallOnError
                (history ++ Callbacks.c_log
                              (Callbacks.call (Callbacks.onPacket h) CallOnPacket
                                              history signal (decode ab)))
                (Callbacks.c_signal
                   (Callbacks.call (Callbacks.onPacket h) CallOnPacket
                                   history signal (decode ab)))
                e))
          (Callbacks.c_exn
             (Callbacks.call f CallOnError
                (history ++ Callbacks.c_log
                              (Callbacks.call (Callbacks.onPacket h) CallOnPacket
                                              history signal (decode ab)))
                (Callbacks.c_signal
                   (Callbacks.call (Callbacks.onPacket h) CallOnPacket
                                   history signal (decode ab)))
                e))
    end.
Proof.
  intros Hlen. unfold Callbacks.handleBlock.
  rewrite (parsePacket_block _ Hlen). reflexivity.
Qed.

(** One iteration of the inner loop on a buffer that holds a frame. *)
Lemma acting_drainPackets_step (h : Callbacks.Handlers) (history : list Effect)
      (signal : option bool) (buffer : list Z) :
  (16 <= length buffer)%nat ->
  Callbacks.drainPackets h history signal buffer
  = match Callbacks.c_exn (Callbacks.handleBlock h history signal
                             (map Z_to_byte (firstn 16 buffer))) with
    | Some e =>
        Callbacks.mkDrain
          (Callbacks.c_log (Callbacks.handleBlock h history signal
                              (map Z_to_byte (firstn 16 buffer))))
          (skipn 16 buffer)
          (Callbacks.c_signal (Callbacks.handleBlock h history signal
                                 (map Z_to_byte (firstn 16 buffer))))
          (Some e)
    | None =>
        Callbacks.mkDrain
          (Callbacks.c_log (Callbacks.handleBlock h history signal
                              (map Z_to_byte (firstn 16 buffer)))
           ++ Callbacks.dr_log
                (Callbacks.drainPackets h
                   (history ++ Callbacks.c_log
                                 (Callbacks.handleBlock h history signal
                                    (map Z_to_byte (firstn 16 buffer))))
                   (Callbacks.c_signal (Callbacks.handleBlock h history signal
                                          (map Z_to_byte (firstn 16 buffer))))
                   (skipn 16 buffer)))
          (Callbacks.dr_buffer
             (Callbacks.drainPackets h
                (history ++ Callbacks.c_log
                              (Callbacks.handleBlock h history signal
                                 (map Z_to_byte (firstn 16 buffer))))
                (Callbacks.c_signal (Callbacks.handleBlock h history signal
                                       (map Z_to_byte (firstn 16 buffer))))
                (skipn 16 buffer)))
          (Callbacks.dr_signal
             (Callbacks.drainPackets h
                (history ++ Callbacks.c_log
                              (Callbacks.handleBlock h history signal
                                 (map Z_to_byte (firstn 16 buffer))))
                (Callbacks.c_signal (Callbacks.handleBlock h history signal
                                       (map Z_to_byte (firstn 16 buffer))))
                (skipn 16 buffer)))
          (Callbacks.dr_exn
             (Callbacks.drainPackets h
                (history ++ Callbacks.c_log
                              (Callbacks.handleBlock h history signal
                                 (map Z_to_byte (firstn 16 buffer))))
                (Callbacks.c_signal (Callbacks.handleBlock h history signal
                                       (map Z_to_byte (firstn 16 buffer))))
                (skipn 16 buffer)))
    end.
Proof.
  intros Hge.
  destruct (block_of_slice buffer Hge) as [Hset Hlen].
  rewrite acting_drainPackets_unfold at 1.
  rewrite (guard_true buffer Hge), Hset. reflexivity.
Qed.

Lemma acting_drainPackets_short (h : Callbacks.Handlers) (history : list Effect)
      (signal : option bool) (buffer : list Z) :
  (length buffer < 16)%nat ->
  Callbacks.drainPackets h history signal buffer
  = Callbacks.mkDrain [] buffer signal None.
Proof.
  intros Hlt. rewrite acting_drainPackets_unfold. now rewrite (guard_false buffer Hlt).
Qed.

(** *** Callbacks that only take what they are given *)

Lemma call_returns {A} (f : Callbacks.Callback A) (entry : A -> Effect)
      (history : list Effect) (signal : option bool) (arg : A) :
  Callbacks.returns f ->
  Callbacks.call f entry history signal arg
  = Callbacks.mkCalled [entry arg] signal None.
Proof. intros Hf. unfold Callbacks.call. cbv zeta. rewrite !(Hf history arg). reflexivity. Qed.

Lemma drainPackets_passive (h : Callbacks.Handlers) :
  Callbacks.passive h ->
  forall (buffer : list Z) (history : list Effect) (signal : option bool),
    Callbacks.drainPackets h history signal buffer
    = Callbacks.mkDrain (d_log (drainPackets (Callbacks.hasOnError h) buffer))
                        (d_buffer (drainPackets (Callbacks.hasOnError h) buffer))
                        signal
                        (d_exn (drainPackets (Callbacks.hasOnError h) buffer)).
Proof.
  intros [Hpacket Herror] buffer.
  induction buffer as [buffer Hlt | buffer Hge IH] using splice_ind;
    intros history signal.
  - rewrite acting_drainPackets_short, drainPackets_short by exact Hlt. reflexivity.
  - destruct (block_of_slice buffer Hge) as [_ Hlen].
    rewrite (@acting_drainPackets_step h history signal buffer Hge).
    rewrite (@handleBlock_frame h history signal _ Hlen).
    rewrite (call_returns _ _ _ _ Hpacket).
    cbn [Callbacks.c_exn Callbacks.c_log Callbacks.c_signal].
    rewrite IH, (@drainPackets_step (Callbacks.hasOnError h) buffer Hge). reflexivity.
Qed.

Lemma catch_passive (h : Callbacks.Handlers) (history : list Effect)
      (signal : option bool) (err : JsError) (buffer : list Z) :
  Callbacks.passive h ->
  Callbacks.catch h history signal err buffer
  = Callbacks.observed (catch (Callbacks.hasOnError h) signal err buffer).
Proof.
  intros [_ Herror]. unfold Callbacks.catch, catch, Callbacks.hasOnError.
  destruct (isAbort err); [destruct (Callbacks.onError h); reflexivity|].
  destruct (Callbacks.onError h) as [f|] eqn:Hf; [|reflexivity].
  rewrite (call_returns _ _ _ _ (Herror f eq_refl)). reflexivity.
Qed.

Lemma observed_prepend (fx : list Effect) (o : Outcome) :
  Callbacks.before fx (Callbacks.observed o) = Callbacks.observed (prepend fx o).
Proof. reflexivity. Qed.

Lemma readLoop_passive (h : Callbacks.Handlers) :
  Callbacks.passive h ->
  forall (events : list Event) (history : list Effect) (signal : option bool)
         (buffer : list Z),
    Callbacks.readLoop h history signal events buffer
    = Callbacks.observed (readLoop (Callbacks.hasOnError h) signal events buffer).
Proof.
  intros Hp events.
  induction events as [|ev events IH]; intros history signal buffer.
  - destruct signal as [[|]|]; reflexivity.
  - destruct signal as [[|]|]; [reflexivity | |].
    all: destruct ev as [[v d] | err |]; cbn [Callbacks.readLoop readLoop Serial.done Serial.value].
    all: try (destruct d; [reflexivity|];
              destruct v as [chunk|]; [|apply IH];
              rewrite (drainPackets_passive Hp);
              cbn [Callbacks.dr_exn Callbacks.dr_log Callbacks.dr_signal
                   Callbacks.dr_buffer];
              destruct (d_exn (drainPackets (Callbacks.hasOnError h)
                                            (buffer ++ map byte_to_Z chunk)));
              [rewrite (catch_passive _ _ _ _ Hp) | rewrite IH];
              apply observed_prepend).
    all: try apply (catch_passive _ _ _ _ Hp).
    + reflexivity.
    + apply IH.
Qed.

(** With callbacks that return and leave the signal alone the loop runs
    as [Serial.startReadLoop] has it. *)
Lemma startReadLoop_passive (h : Callbacks.Handlers) (port : SerialPort)
      (signal : option bool) :
  Callbacks.passive h ->
  Callbacks.startReadLoop port h signal
  = Callbacks.observed (startReadLoop port (Callbacks.hasOnError h) signal).
Proof.
  intros Hp. unfold Callbacks.startReadLoop, startReadLoop, Callbacks.hasOnError.
  destruct (readable port) as [events|].
  - rewrite (readLoop_passive Hp). apply observed_prepend.
  - destruct Hp as [_ Herror].
    destruct (Callbacks.onError h) as [f|] eqn:Hf; [|reflexivity].
    rewrite (Herror f eq_refl). reflexivity.
Qed.

Lemma passive_ignore :
  Callbacks.passive (Callbacks.mkHandlers Callbacks.ignore (Some Callbacks.ignore)) /\
  Callbacks.passive (Callbacks.mkHandlers Callbacks.ignore None).
Proof.
  split; split; try (intros history arg; reflexivity).
  - intros f Hf. injection Hf as <-. intros history arg. reflexivity.
  - intros f Hf. discriminate Hf.
Qed.

(** X5. With callbacks that return and leave the signal alone, a read
    rejected with anything but an AbortError ends the loop: after the
    packets of the chunks delivered before, onError is called once with
    that error (if an onError was passed), the [finally] block runs, the
    promise is fulfilled, and nothing that follows in the stream is
    read. *)
Theorem startReadLoop_fatal (chunks : list Uint8Array) (err : JsError)
        (post : list Event) (h : Callbacks.Handlers) (signal : option bool) :
  Callbacks.passive h -> signal <> Some true -> isAbort err = false ->
  Callbacks.startReadLoop (portOf (deliver chunks ++ ReadRejected err :: post)) h signal
  = Callbacks.mkRun
      (setup signal
       ++ map (fun frame => CallOnPacket (decode frame)) (frames (concat chunks))
       ++ (if Callbacks.hasOnError h then [CallOnError err] else [])
       ++ log (finally signal []))
      (map byte_to_Z (remainder (concat chunks)))
      Callbacks.Fulfilled.
Proof.
  intros Hp Hs Hab.
  rewrite (startReadLoop_passive _ _ Hp).
  rewrite (@observed_fatal chunks err post (Callbacks.hasOnError h) signal Hs Hab).
  reflexivity.
Qed.

Lemma startReadLoop_fatal_witness :
  Callbacks.startReadLoop
    (portOf (deliver [repeat x01 20] ++ ReadRejected (Error "device lost")
                     :: deliver [repeat x02 16]))
    (Callbacks.mkHandlers Callbacks.ignore (Some Callbacks.ignore)) (Some false)
  = Callbacks.mkRun
      (setup (Some false)
       ++ map (fun frame => CallOnPacket (decode frame))
              (frames (concat [repeat x01 20]))
       ++ [CallOnError (Error "device lost")]
       ++ log (finally (Some false) []))
      (map byte_to_Z (remainder (concat [repeat x01 20])))
      Callbacks.Fulfilled.
Proof.
  apply (@startReadLoop_fatal [repeat x01 20] (Error "device lost")
           (deliver [repeat x02 16])
           (Callbacks.mkHandlers Callbacks.ignore (Some Callbacks.ignore)) (Some false)).
  - exact (proj1 passive_ignore).
  - discriminate.
  - reflexivity.
Defined.

(** X8. With callbacks that return and leave the signal alone, onError
    is called at most once in a run; when it is called, an onError was
    passed, the error is not an AbortError, the promise is fulfilled,
    and no callback follows it. *)
Theorem startReadLoop_one_error (events : list Event) (h : Callbacks.Handlers)
        (signal : option bool) :
  Callbacks.passive h ->
  (length (errors (Callbacks.effects
                     (Callbacks.startReadLoop (portOf events) h signal))) <= 1)%nat /\
  (forall e,
      In e (errors (Callbacks.effects
                      (Callbacks.startReadLoop (portOf events) h signal))) ->
      Callbacks.hasOnError h = true /\ isAbort e = false /\
      Callbacks.promise (Callbacks.startReadLoop (portOf events) h signal)
      = Callbacks.Fulfilled /\
      exists before after,
        Callbacks.effects (Callbacks.startReadLoop (portOf events) h signal)
        = before ++ CallOnError e :: after /\
        errors before = [] /\ packets after = [] /\ errors after = []) /\
  (Callbacks.hasOnError h = false ->
   forall port,
     errors (Callbacks.effects (Callbacks.startReadLoop port h signal)) = []).
Proof.
  intros Hp.
  destruct (observed_one_error events (Callbacks.hasOnError h) signal)
    as (Hone & Hlast & Hnone).
  split; [|split].
  - rewrite (startReadLoop_passive _ _ Hp). exact Hone.
  - intros e He. rewrite (startReadLoop_passive _ _ Hp) in *.
    destruct (Hlast e He) as (Hh & Hab & Hst & Hsplit).
    split; [exact Hh|]. split; [exact Hab|]. split; [|exact Hsplit].
    cbn [Callbacks.promise Callbacks.observed]. now rewrite Hst.
  - intros Hno port. rewrite (startReadLoop_passive _ _ Hp). now apply Hnone.
Qed.

Lemma startReadLoop_one_error_witness :
  (length (errors (Callbacks.effects
                     (Callbacks.startReadLoop
                        (portOf (deliver [repeat x01 16] ++ [ReadRejected (Error "lost")]))
                        (Callbacks.mkHandlers Callbacks.ignore (Some Callbacks.ignore))
                        None))) <= 1)%nat.
Proof.
  apply (proj1 (@startReadLoop_one_error
                  (deliver [repeat x01 16] ++ [ReadRejected (Error "lost")])
                  (Callbacks.mkHandlers Callbacks.ignore (Some Callbacks.ignore))
                  None (proj1 passive_ignore))).
Defined.

(** X9. With callbacks that return and leave the signal alone, on a port
    with a readable stream the promise of startReadLoop is fulfilled
    exactly when the signal was aborted from the start or the reader
    delivers a read with done set, a rejected read, or (a signal being
    passed) an abort; as long as reads only deliver chunks the loop
    keeps waiting for the next one. *)
Theorem startReadLoop_returns_iff (events : list Event) (h : Callbacks.Handlers)
        (signal : option bool) :
  Callbacks.passive h ->
  (Callbacks.promise (Callbacks.startReadLoop (portOf events) h signal)
   = Callbacks.Fulfilled
   <-> signal = Some true \/ existsb (stopsLoop signal) events = true) /\
  (Callbacks.promise (Callbacks.startReadLoop (portOf events) h signal)
   = Callbacks.Pending
   <-> signal <> Some true /\ existsb (stopsLoop signal) events = false).
Proof.
  intros Hp. rewrite (startReadLoop_passive _ _ Hp).
  destruct (observed_returns_iff events (Callbacks.hasOnError h) signal)
    as [Hret Hwait].
  cbn [Callbacks.promise Callbacks.observed].
  destruct (status (startReadLoop (portOf events) (Callbacks.hasOnError h) signal)).
  - split.
    + split; [intros _; now apply Hret | reflexivity].
    + split; [discriminate|]. intros H. apply Hwait in H. discriminate H.
  - split.
    + split; [discriminate|]. intros H. apply Hret in H. discriminate H.
    + split; [intros _; now apply Hwait | reflexivity].
Qed.

Lemma startReadLoop_returns_iff_witness :
  Callbacks.promise
    (Callbacks.startReadLoop (portOf (deliver [repeat x01 40]))
       (Callbacks.mkHandlers Callbacks.ignore (Some Callbacks.ignore)) (Some false))
  = Callbacks.Pending /\
  Callbacks.promise
    (Callbacks.startReadLoop (portOf (deliver [repeat x01 40] ++ [AbortSignalled]))
       (Callbacks.mkHandlers Callbacks.ignore (Some Callbacks.ignore)) (Some false))
  = Callbacks.Fulfilled.
Proof.
  split.
  - apply (proj2 (@startReadLoop_returns_iff (deliver [repeat x01 40])
                    (Callbacks.mkHandlers Callbacks.ignore (Some Callbacks.ignore))
                    (Some false) (proj1 passive_ignore))).
    split; [discriminate | reflexivity].
  - apply (proj1 (@startReadLoop_returns_iff
                    (deliver [repeat x01 40] ++ [AbortSignalled])
                    (Callbacks.mkHandlers Callbacks.ignore (Some Callbacks.ignore))
                    (Some false) (proj1 passive_ignore))).
    right. reflexivity.
Defined.

(** X11. With callbacks that return and leave the signal alone, only the
    bytes matter, not how the reader cuts them into chunks: two chunk
    sequences with the same concatenation, followed by the same events,
    give the same run, callback for callback. *)
Theorem startReadLoop_rechunk (chunks chunks' : list Uint8Array) (tail : list Event)
        (h : Callbacks.Handlers) (signal : option bool) :
  Callbacks.passive h ->
  concat chunks = concat chunks' ->
  Callbacks.startReadLoop (portOf (deliver chunks ++ tail)) h signal
  = Callbacks.startReadLoop (portOf (deliver chunks' ++ tail)) h signal.
Proof.
  intros Hp Hsame. rewrite !(startReadLoop_passive _ _ Hp).
  now rewrite (@observed_rechunk chunks chunks' tail (Callbacks.hasOnError h) signal Hsame).
Qed.

Lemma startReadLoop_rechunk_witness :
  Callbacks.startReadLoop
    (portOf (deliver [repeat x01 5; []; repeat x01 11; repeat x02 3]
               ++ [ReadRejected (Error "lost")]))
    (Callbacks.mkHandlers Callbacks.ignore (Some Callbacks.ignore)) None
  = Callbacks.startReadLoop
      (portOf (deliver [repeat x01 16 ++ repeat x02 3]
                 ++ [ReadRejected (Error "lost")]))
      (Callbacks.mkHandlers Callbacks.ignore (Some Callbacks.ignore)) None.
Proof.
  apply (@startReadLoop_rechunk
           [repeat x01 5; []; repeat x01 11; repeat x02 3]
           [repeat x01 16 ++ repeat x02 3]
           [ReadRejected (Error "lost")]
           (Callbacks.mkHandlers Callbacks.ignore (Some Callbacks.ignore)) None
           (proj1 passive_ignore)).
  reflexivity.
Defined.

(** *** Callbacks that throw *)

Lemma call_neverAborts {A} (f : Callbacks.Callback A) (entry : A -> Effect)
      (history : list Effect) (signal : option bool) (arg : A) :
  Callbacks.neverAborts f ->
  Callbacks.call f entry history signal arg
  = Callbacks.mkCalled [entry arg] signal (Callbacks.throws (f history arg)).
Proof.
  intros Hf. unfold Callbacks.call. cbv zeta. rewrite (Hf history arg). reflexivity.
Qed.

Section Isolation.

Variable h : Callbacks.Handlers.
Hypothesis Hquiet : Callbacks.neverAborts (Callbacks.onPacket h).
Hypothesis Hreport : forall f, Callbacks.onError h = Some f -> Callbacks.returns f.

(** The try/catch around one frame contains whatever onPacket throws. *)
Lemma handleBlock_isolated (history : list Effect) (signal : option bool)
      (frame : list byte) :
  length frame = 16%nat ->
  Callbacks.handleBlock h history signal frame
  = Callbacks.mkCalled (frameCalls h history frame) signal None.
Proof.
  intros Hlen. rewrite (@handleBlock_frame h history signal frame Hlen).
  rewrite (call_neverAborts _ _ _ _ Hquiet).
  cbn [Callbacks.c_exn Callbacks.c_log Callbacks.c_signal]. unfold frameCalls.
  destruct (Callbacks.throws (Callbacks.onPacket h history (decode frame))) as [e|];
    [|reflexivity].
  destruct (Callbacks.onError h) as [f|] eqn:Hf; [|reflexivity].
  rewrite (call_returns _ _ _ _ (Hreport eq_refl)). reflexivity.
Qed.

Lemma drainPackets_isolated (bytes : list byte) :
  forall (history : list Effect) (signal : option bool),
  exists segments,
    Callbacks.drainPackets h history signal (map byte_to_Z bytes)
    = Callbacks.mkDrain (concat segments) (map byte_to_Z (remainder bytes))
                        signal None /\
    Forall2 (fun frame calls => exists before, calls = frameCalls h before frame)
            (frames bytes) segments.
Proof.
  induction bytes as [bytes Hlt | bytes Hge IH] using splice_ind;
    intros history signal.
  - exists []. rewrite acting_drainPackets_short by (now rewrite length_map).
    rewrite (frames_short bytes Hlt), (remainder_short bytes Hlt).
    split; [reflexivity | constructor].
  - assert (HgeZ : (16 <= length (map byte_to_Z bytes))%nat) by (now rewrite length_map).
    assert (Hlen : length (firstn 16 bytes) = 16%nat) by (rewrite length_firstn; lia).
    rewrite (@acting_drainPackets_step h history signal _ HgeZ).
    rewrite firstn_map, map_Z_to_byte_to_Z, skipn_map.
    rewrite (@handleBlock_isolated history signal _ Hlen).
    cbn [Callbacks.c_exn Callbacks.c_log Callbacks.c_signal].
    destruct (IH (history ++ frameCalls h history (firstn 16 bytes)) signal)
      as (segments & -> & Hall).
    exists (frameCalls h history (firstn 16 bytes) :: segments).
    rewrite (frames_step bytes Hge), (remainder_step bytes Hge).
    split; [reflexivity|]. constructor; [now exists history | exact Hall].
Qed.

Lemma readLoop_isolated (signal : option bool) (chunks : list Uint8Array)
      (tail : list Event) :
  signal <> Some true ->
  forall (carried : list byte) (history : list Effect),
    (length carried < 16)%nat ->
    exists segments,
      Callbacks.readLoop h history signal (deliver chunks ++ tail)
                         (map byte_to_Z carried)
      = Callbacks.before
          (concat segments)
          (Callbacks.readLoop h (history ++ concat segments) signal tail
             (map byte_to_Z (remainder (carried ++ concat chunks)))) /\
      Forall2 (fun frame calls => exists before, calls = frameCalls h before frame)
              (frames (carried ++ concat chunks)) segments.
Proof.
  intros Hs. induction chunks as [|chunk chunks IH]; intros carried history Hlen.
  - exists []. cbn [deliver map concat app]. rewrite !app_nil_r.
    rewrite (frames_short carried Hlen), (remainder_short carried Hlen).
    split; [|constructor].
    destruct (Callbacks.readLoop h history signal tail (map byte_to_Z carried));
      reflexivity.
  - cbn [deliver map concat app]. fold (deliver chunks).
    destruct (drainPackets_isolated (carried ++ chunk) history signal)
      as (here & Hdrain & Hhere).
    destruct (frames_partition (carried ++ chunk)) as (_ & _ & Hrem).
    destruct (IH (remainder (carried ++ chunk)) (history ++ concat here) Hrem)
      as (later & Hlater & Hall).
    exists (here ++ later).
    destruct (frames_app (carried ++ chunk) (concat chunks)) as [Hf Hr].
    rewrite app_assoc, Hf, Hr. split; [|now apply Forall2_app].
    assert (Hstep :
      Callbacks.readLoop h history signal
        (ReadFulfilled (mkReadResult (Some chunk) false) :: deliver chunks ++ tail)
        (map byte_to_Z carried)
      = Callbacks.before (concat here)
          (Callbacks.readLoop h (history ++ concat here) signal (deliver chunks ++ tail)
             (map byte_to_Z (remainder (carried ++ chunk))))).
    { destruct signal as [[|]|]; [congruence | |];
        cbn [Callbacks.readLoop Serial.done Serial.value];
        rewrite <- map_app, Hdrain; reflexivity. }
    rewrite Hstep, Hlater, concat_app, app_assoc.
    unfold Callbacks.before. cbn [Callbacks.effects Callbacks.leftover Callbacks.promise].
    now rewrite app_assoc.
Qed.

End Isolation.

Lemma packets_frameCalls (h : Callbacks.Handlers) (fs : list (list byte))
      (segments : list (list Effect)) :
  Forall2 (fun frame calls => exists before, calls = frameCalls h before frame)
          fs segments ->
  packets (concat segments) = map decode fs /\
  (length (errors (concat segments)) <= length fs)%nat.
Proof.
  induction 1 as [|frame calls fs segments [before ->] _ [IHp IHe]].
  - split; [reflexivity | cbn; lia].
  - cbn [concat map length]. rewrite packets_app, errors_app, length_app, IHp.
    unfold frameCalls.
    destruct (Callbacks.throws _) as [e|]; [destruct (Callbacks.onError h)|];
      cbn; split; try reflexivity; lia.
Qed.



(** *** Callbacks that abort *)

Lemma drainPackets_aborted (h : Callbacks.Handlers) (bytes : list byte) :
  Callbacks.neverThrows (Callbacks.onPacket h) ->
  forall history : list Effect,
    Callbacks.drainPackets h history (Some true) (map byte_to_Z bytes)
    = Callbacks.mkDrain
        (map (fun frame => CallOnPacket (decode frame)) (frames bytes))
        (map byte_to_Z (remainder bytes)) (Some true) None.
Proof.
  intros Hreturns.
  induction bytes as [bytes Hlt | bytes Hge IH] using splice_ind; intros history.
  - rewrite acting_drainPackets_short by (now rewrite length_map).
    now rewrite (frames_short bytes Hlt), (remainder_short bytes Hlt).
  - assert (HgeZ : (16 <= length (map byte_to_Z bytes))%nat) by (now rewrite length_map).
    assert (Hlen : length (firstn 16 bytes) = 16%nat) by (rewrite length_firstn; lia).
    rewrite (@acting_drainPackets_step h history (Some true) _ HgeZ).
    rewrite firstn_map, map_Z_to_byte_to_Z, skipn_map.
    rewrite (@handleBlock_frame h history (Some true) _ Hlen).
    assert (Hcall : Callbacks.call (Callbacks.onPacket h) CallOnPacket history
                                   (Some true) (decode (firstn 16 bytes))
                    = Callbacks.mkCalled [CallOnPacket (decode (firstn 16 bytes))]
                                         (Some true) None).
    { unfold Callbacks.call. cbv zeta.
      rewrite !(Hreturns history (decode (firstn 16 bytes))).
      destruct (Callbacks.aborts _); reflexivity. }
    rewrite Hcall. cbn [Callbacks.c_exn Callbacks.c_log Callbacks.c_signal].
    rewrite IH, (frames_step bytes Hge), (remainder_step bytes Hge). reflexivity.
Qed.



(** ** Chart data *)

Lemma nth_error_prefix {A} (b : list A) :
  forall k, map (nth_error b) (seq 0 k)
            = map Some (firstn k b) ++ repeat None (k - length b).
Proof.
  induction b as [|x b IH]; intros k.
  - rewrite firstn_nil. cbn [map app length]. rewrite Nat.sub_0_r.
    generalize 0%nat. induction k as [|k IHk]; intros start; [reflexivity|].
    cbn [seq map repeat]. rewrite IHk. now destruct start.
  - destruct k as [|k]; [reflexivity|].
    cbn [seq map firstn nth_error length app Nat.sub]. f_equal.
    rewrite <- seq_shift, map_map. cbn [nth_error]. apply IH.
Qed.

Lemma chart_values {A} (b : list A) :
  map (fun i => if (i <? length b)%nat then nth_error b i else None) (seq 0 POINTS)
  = map Some (firstn POINTS b) ++ repeat None (POINTS - length b).
Proof.
  rewrite <- nth_error_prefix. apply map_ext. intros i.
  destruct (i <? length b)%nat eqn:Hi; [reflexivity|].
  apply Nat.ltb_ge in Hi. symmetry. now apply nth_error_None.
Qed.

(** X12. Whatever the length of the buffer, the chart data has the
    points 0 .. 19 in order, and its values are the first 20 elements of
    the buffer, oldest first, followed by null up to 20 entries; no value
    is altered and none beyond the twentieth is shown. *)
Theorem buildChartData_shape (b : list Z) :
  map (@point Z) (buildChartData b) = seq 0 20 /\
  map (@value Z) (buildChartData b)
  = map Some (firstn 20 b) ++ repeat None (20 - length b) /\
  (forall i v, nth_error (map (@value Z) (buildChartData b)) i = Some (Some v) ->
               (i < 20)%nat /\ nth_error b i = Some v).
Proof.
  assert (Hvalues : map (@value Z) (buildChartData b)
                    = map Some (firstn 20 b) ++ repeat None (20 - length b)).
  { unfold buildChartData. rewrite map_map. cbn [value]. apply chart_values. }
  split; [|split].
  - unfold buildChartData. rewrite map_map. cbn [point]. apply map_id.
  - exact Hvalues.
  - intros i v Hnth.
    assert (Hi : (i < 20)%nat).
    { assert (Hne : nth_error (map (@value Z) (buildChartData b)) i <> None)
        by congruence.
      apply nth_error_Some in Hne.
      rewrite length_map, buildChartData_length in Hne. exact Hne. }
    split; [exact Hi|].
    unfold buildChartData in Hnth. rewrite map_map in Hnth. cbn [value] in Hnth.
    rewrite nth_error_map, nth_error_seq in Hnth.
    apply Nat.ltb_lt in Hi. unfold POINTS in Hnth. rewrite Hi in Hnth.
    cbn [option_map Nat.add] in Hnth.
    destruct (i <? length b)%nat; congruence.
Qed.

Lemma buildChartData_shape_witness :
  (3 < 20)%nat /\ nth_error [10; 11; 12; 13; 14] 3 = Some 13.
Proof.
  apply (proj2 (proj2 (buildChartData_shape [10; 11; 12; 13; 14])) 3%nat 13).
  reflexivity.
Defined.

(** The two effects of the uPlot variant compute the range as
    computeYDomain does. *)
Lemma uplot_ranges {num : Type} `{JsNumber num} (arr : list num) (autoScale : bool) :
  Uplot.scaleOnAutoScaleChange arr autoScale = computeYDomain arr autoScale /\
  Uplot.scaleOnPacket arr autoScale
  = (if autoScale && negb (length arr =? 0)%nat
     then Some (computeYDomain arr autoScale) else None).
Proof.
  split.
  - unfold Uplot.scaleOnAutoScaleChange, computeYDomain.
    destruct autoScale, arr; reflexivity.
  - unfold Uplot.scaleOnPacket, computeYDomain.
    destruct autoScale, arr; reflexivity.
Qed.

Lemma uplot_series (b : list Z) :
  Uplot.buildX = map (@point Z) (buildChartData b) /\
  Uplot.buildY b = map (@value Z) (buildChartData b).
Proof.
  split.
  - unfold Uplot.buildX, buildChartData. rewrite map_map. cbn [point].
    symmetry. apply map_id.
  - unfold Uplot.buildY, buildChartData. now rewrite map_map.
Qed.

(** ** The buffers of the component *)

Lemma onPacketChange_fold (pkts : list (option PacketData)) :
  forall buffers,
    fold_left onPacketChange pkts buffers
    = mkBuffers (fold_left pushSample (map ch0 (nonNull pkts)) (buf0 buffers))
                (fold_left pushSample (map ch1 (nonNull pkts)) (buf1 buffers))
                (fold_left pushSample (map ch2 (nonNull pkts)) (buf2 buffers))
                (fold_left pushSample (map ch3 (nonNull pkts)) (buf3 buffers)).
Proof.
  induction pkts as [|[p|] pkts IH]; intros buffers.
  - now destruct buffers.
  - cbn [fold_left nonNull map]. now rewrite IH.
  - cbn [fold_left nonNull]. apply IH.
Qed.

(** X14. After the packet effect has run for a series of values of the
    packet prop, null among them, the buffer of channel ch holds that
    channel's field of the last 20 non-null packets (of all of them if
    they are fewer), oldest first; a null packet changes nothing, and the
    four buffers always have the same length. *)
Theorem component_buffers (pkts : list (option PacketData)) (ch : nat) :
  (ch < 4)%nat ->
  let received := nonNull pkts in
  let buffers := fold_left onPacketChange pkts initialBuffers in
  channel buffers ch
  = Some (skipn (length received - 20) (map (fun p => sample p ch) received)) /\
  length (buf0 buffers) = Nat.min (length received) 20 /\
  length (buf1 buffers) = length (buf0 buffers) /\
  length (buf2 buffers) = length (buf0 buffers) /\
  length (buf3 buffers) = length (buf0 buffers) /\
  fold_left onPacketChange (pkts ++ [None]) initialBuffers = buffers.
Proof.
  intros Hch received buffers.
  assert (Hkeep : forall f : PacketData -> Z,
             fold_left pushSample (map f received) []
             = skipn (length received - 20) (map f received)).
  { intros f. rewrite pushes_keep_last by (cbn; lia).
    cbn [app]. now rewrite length_map. }
  assert (Hlen : forall f : PacketData -> Z,
             length (skipn (length received - 20) (map f received))
             = Nat.min (length received) 20).
  { intros f. rewrite length_skipn, length_map. lia. }
  unfold buffers. rewrite fold_left_app, onPacketChange_fold.
  cbn [initialBuffers buf0 buf1 buf2 buf3 fold_left onPacketChange].
  fold received. rewrite !Hkeep, !Hlen.
  repeat split.
  destruct ch as [|[|[|[|ch]]]]; try reflexivity. lia.
Qed.

Lemma component_buffers_witness :
  channel (fold_left onPacketChange
                     [Some (mkPacketData 1 2 3 4); None; Some (mkPacketData 5 6 7 8)]
                     initialBuffers) 2
  = Some [3; 7].
Proof.
  apply (proj1 (@component_buffers
                  [Some (mkPacketData 1 2 3 4); None; Some (mkPacketData 5 6 7 8)] 2
                  ltac:(lia))).
Defined.

(** ** The uPlot variant of the component *)

Section UplotComponent.
Context {num : Type} `{JsNumber num}.

Lemma packetEffect_state (c : Uplot.Component num) :
  Uplot.packetProp (Uplot.packetEffect c) = Uplot.packetProp c /\
  Uplot.autoScaleState (Uplot.packetEffect c) = Uplot.autoScaleState c /\
  Uplot.buffersRef (Uplot.packetEffect c)
  = onPacketChange (Uplot.buffersRef c) (Uplot.packetProp c).
Proof.
  unfold Uplot.packetEffect. destruct (Uplot.packetProp c) eqn:Hp; cbn; auto.
Qed.

Lemma trim_push_nonempty {A} (b : list A) (v : A) : trim (push b v) <> [].
Proof.
  unfold trim, push, shift. intros Hnil.
  apply (f_equal (@length A)) in Hnil.
  destruct (POINTS <? length (b ++ [v]))%nat eqn:Hfull.
  - apply Nat.ltb_lt in Hfull. unfold POINTS in Hfull.
    destruct (b ++ [v]) as [|y l]; cbn [length tl] in *; lia.
  - rewrite length_app in Hnil. cbn [length] in Hnil. lia.
Qed.

Lemma onPacketChange_channel (buffers : Buffers) (p : PacketData) (ch : nat)
      (b : list Z) :
  channel (onPacketChange buffers (Some p)) ch = Some b ->
  exists old, channel buffers ch = Some old /\ b = trim (push old (sample p ch)).
Proof.
  destruct ch as [|[|[|[|ch]]]]; cbn; intros Hb; try discriminate;
    injection Hb as <-; eexists; split; reflexivity.
Qed.

Lemma computeYDomain_fixed (arr arr' : list num) :
  computeYDomain arr false = computeYDomain arr' false.
Proof. reflexivity. Qed.

Lemma packetEffect_upToDate (c : Uplot.Component num) :
  upToDate c -> upToDate (Uplot.packetEffect c).
Proof.
  intros Hc. unfold Uplot.packetEffect.
  destruct (Uplot.packetProp c) as [p|] eqn:Hp; [|exact Hc].
  intros ch b Hb.
  cbn [Uplot.buffersRef Uplot.plotRefs Uplot.autoScaleState] in *.
  change (mkBuffers _ _ _ _) with (onPacketChange (Uplot.buffersRef c) (Some p)) in *.
  rewrite Hb. cbn [Uplot.xs Uplot.series Uplot.yrange].
  split; [reflexivity|]. split; [reflexivity|].
  destruct (onPacketChange_channel _ _ _ Hb) as (old & Hold & ->).
  destruct (uplot_ranges (map fromZ (trim (push old (sample p ch))))
                         (Uplot.autoScaleState c)) as [_ ->].
  assert (Hne : (length (map (fromZ (num:=num)) (trim (push old (sample p ch)))) =? 0)%nat
                = false).
  { apply Nat.eqb_neq. rewrite length_map. intros Hlen.
    apply (@trim_push_nonempty Z old (sample p ch)). now apply length_zero_iff_nil. }
  rewrite Hne. destruct (Hc ch old Hold) as (_ & _ & ->).
  destruct (Uplot.autoScaleState c); cbn [andb negb]; [reflexivity|].
  apply computeYDomain_fixed.
Qed.

Lemma render_upToDate (c : Uplot.Component num) (r : Uplot.Render) :
  upToDate c -> upToDate (Uplot.render c r).
Proof.
  intros Hc. destruct r as [p | checked]; cbn [Uplot.render].
  - apply packetEffect_upToDate. exact Hc.
  - destruct (Bool.eqb checked (Uplot.autoScaleState c)); [exact Hc|].
    apply packetEffect_upToDate.
    intros ch b Hb. cbn [Uplot.autoScaleEffect Uplot.buffersRef Uplot.plotRefs
                         Uplot.autoScaleState Uplot.packetProp] in *.
    rewrite Hb. cbn [Uplot.xs Uplot.series Uplot.yrange].
    split; [apply (Hc ch b Hb)|]. split; [apply (Hc ch b Hb) | apply uplot_ranges].
Qed.

Lemma renders_upToDate (renders : list Uplot.Render) :
  forall c, upToDate c -> upToDate (fold_left Uplot.render renders c).
Proof.
  induction renders as [|r renders IH]; intros c Hc; [exact Hc|].
  cbn [fold_left]. apply IH. now apply render_upToDate.
Qed.

Lemma mounted_upToDate : upToDate Uplot.mounted.
Proof.
  intros ch b Hb.
  destruct ch as [|[|[|[|ch]]]]; cbn in Hb; try discriminate;
    injection Hb as <-; repeat split; reflexivity.
Qed.

Lemma render_state (c : Uplot.Component num) (r : Uplot.Render) :
  Uplot.buffersRef (Uplot.render c r)
  = fold_left onPacketChange
              (Uplot.effectRuns (Uplot.packetProp c) (Uplot.autoScaleState c) [r])
              (Uplot.buffersRef c) /\
  Uplot.packetProp (Uplot.render c r)
  = match r with
    | Uplot.NewPacket p => Some p
    | Uplot.SetAutoScale _ => Uplot.packetProp c
    end /\
  Uplot.autoScaleState (Uplot.render c r)
  = match r with
    | Uplot.NewPacket _ => Uplot.autoScaleState c
    | Uplot.SetAutoScale checked => checked
    end.
Proof.
  destruct r as [p | checked]; cbn [Uplot.render Uplot.effectRuns fold_left].
  - destruct (packetEffect_state
                (Uplot.mkComponent (Some p) (Uplot.autoScaleState c)
                                   (Uplot.buffersRef c) (Uplot.plotRefs c)))
      as (Hp & Ha & Hb).
    rewrite Hp, Ha, Hb. auto.
  - destruct (Bool.eqb checked (Uplot.autoScaleState c)) eqn:Hsame.
    + apply Bool.eqb_prop in Hsame. subst checked. auto.
    + destruct (packetEffect_state
                  (Uplot.autoScaleEffect
                     (Uplot.mkComponent (Uplot.packetProp c) checked
                                        (Uplot.buffersRef c) (Uplot.plotRefs c))))
        as (Hp & Ha & Hb).
      rewrite Hp, Ha, Hb. auto.
Qed.

Lemma renders_buffers (renders : list Uplot.Render) :
  forall c,
    Uplot.buffersRef (fold_left Uplot.render renders c)
    = fold_left onPacketChange
                (Uplot.effectRuns (Uplot.packetProp c) (Uplot.autoScaleState c) renders)
                (Uplot.buffersRef c).
Proof.
  induction renders as [|r renders IH]; intros c; [reflexivity|].
  cbn [fold_left]. rewrite IH.
  destruct (render_state c r) as (Hb & Hp & Ha). rewrite Hb, Hp, Ha.
  destruct r as [p | checked]; cbn [Uplot.effectRuns fold_left]; [reflexivity|].
  destruct (Bool.eqb checked (Uplot.autoScaleState c)) eqn:Hsame; [|reflexivity].
  apply Bool.eqb_prop in Hsame. now subst checked.
Qed.

End UplotComponent.

(** X13. The uPlot variant of WaveformChart, rendered any number of
    times after its mount with a null packet: each chart has last been
    given the series that buildChartData shows for its buffer and the
    range computeYDomain computes for it; but its buffers are those of
    the Recharts variant for a longer series of packets, because the
    packet effect also runs when autoscale is switched: switching it
    while a packet is present pushes that packet onto the buffers once
    more. *)
Theorem uplot_component {num : Type} `{JsNumber num} (renders : list Uplot.Render) :
  (forall ch b,
      channel (Uplot.buffersRef (fold_left Uplot.render renders Uplot.mounted)) ch
      = Some b ->
      Uplot.xs (Uplot.plotRefs (fold_left Uplot.render renders Uplot.mounted) ch)
      = map (@point Z) (buildChartData b) /\
      Uplot.series (Uplot.plotRefs (fold_left Uplot.render renders Uplot.mounted) ch)
      = map (@value Z) (buildChartData b) /\
      Uplot.yrange (Uplot.plotRefs (fold_left Uplot.render renders Uplot.mounted) ch)
      = computeYDomain
          (map fromZ b)
          (Uplot.autoScaleState (fold_left Uplot.render renders Uplot.mounted))) /\
  Uplot.buffersRef (fold_left Uplot.render renders Uplot.mounted)
  = fold_left onPacketChange (Uplot.effectRuns None false renders) initialBuffers /\
  (forall p,
      Uplot.packetProp (fold_left Uplot.render renders Uplot.mounted) = Some p ->
      Uplot.buffersRef
        (Uplot.render
           (fold_left Uplot.render renders Uplot.mounted)
           (Uplot.SetAutoScale
              (negb (Uplot.autoScaleState
                       (fold_left Uplot.render renders Uplot.mounted)))))
      = onPacketChange
          (Uplot.buffersRef (fold_left Uplot.render renders Uplot.mounted))
          (Some p)).
Proof.
  split; [|split].
  - intros ch b Hb.
    destruct (@renders_upToDate _ _ renders Uplot.mounted mounted_upToDate ch b Hb)
      as (Hxs & Hseries & Hrange).
    rewrite Hxs, Hseries, Hrange.
    split; [apply uplot_series|]. split; [apply uplot_series | reflexivity].
  - apply (renders_buffers renders Uplot.mounted).
  - intros p Hp.
    destruct (render_state (fold_left Uplot.render renders Uplot.mounted)
                (Uplot.SetAutoScale
                   (negb (Uplot.autoScaleState
                            (fold_left Uplot.render renders Uplot.mounted)))))
      as (Hb & _ & _).
    rewrite Hb, Hp. cbn [Uplot.effectRuns].
    destruct (Uplot.autoScaleState (fold_left Uplot.render renders Uplot.mounted));
      reflexivity.
Qed.

(** ** The autoscale range *)

(** X15. In binary64, for a window of values in [0, 2^32 - 1] and
    either autoscale setting, the range contains every value of the
    window and is never empty: low < high, also for a flat signal and at
    both ends of the value range. *)
Theorem computeYDomain_covers (window : list Z) (autoScale : bool) :
  Forall (fun v => 0 <= v <= 2 ^ 32 - 1) window ->
  PrimFloat.ltb (fst (computeYDomain (num:=float) (map fromZ window) autoScale))
                (snd (computeYDomain (num:=float) (map fromZ window) autoScale))
  = true /\
  (forall v, In v window ->
     PrimFloat.leb (fst (computeYDomain (num:=float) (map fromZ window) autoScale))
                   (fromZ v) = true /\
     PrimFloat.leb (fromZ v)
                   (snd (computeYDomain (num:=float) (map fromZ window) autoScale))
     = true).
Proof.
  intros Hall.
  destruct (computeYDomain_binary64 autoScale Hall)
    as (vlow & vhigh & Hlow & Hhigh & H0 & H32 & Hlt & Hcover).
  destruct (HasValue_compare Hlow Hhigh) as (-> & _ & _).
  split; [apply Z.ltb_lt; lia|].
  intros v Hv.
  assert (Hrange : 0 <= v < 2 ^ 53).
  { rewrite Forall_forall in Hall. specialize (Hall v Hv).
    assert (2 ^ 32 < 2 ^ 53) by reflexivity. lia. }
  assert (HFv : HasValue (fromZ (num:=float) v) (v * weight 0)) by now apply HasValue_ofZ.
  destruct (HasValue_compare Hlow HFv) as (_ & -> & _).
  destruct (HasValue_compare HFv Hhigh) as (_ & -> & _).
  specialize (Hcover v Hv). split; apply Z.leb_le; lia.
Qed.

Lemma computeYDomain_covers_witness :
  PrimFloat.ltb (fst (computeYDomain (num:=float) (map fromZ [7; 7; 7]) true))
                (snd (computeYDomain (num:=float) (map fromZ [7; 7; 7]) true))
  = true /\
  (forall v, In v [7; 7; 7] ->
     PrimFloat.leb (fst (computeYDomain (num:=float) (map fromZ [7; 7; 7]) true))
                   (fromZ v) = true /\
     PrimFloat.leb (fromZ v)
                   (snd (computeYDomain (num:=float) (map fromZ [7; 7; 7]) true))
     = true).
Proof.
  apply (@computeYDomain_covers [7; 7; 7] true).
  repeat constructor; lia.
Defined.

(** X16. In binary64, with autoscale on, the range of a non-empty
    window of values in [0, 2^32 - 1] is computed from its least value m
    and its greatest value M alone: it is (Math.max(0, m - pad),
    Math.min(2^32, M + pad)), where pad is the rounded product
    (M - m) * 0.05, or 1 exactly when M = m; the pad lies between 2^-5
    and 2^28. *)
Theorem computeYDomain_formula (first : Z) (others : list Z) :
  Forall (fun v => 0 <= v <= 2 ^ 32 - 1) (first :: others) ->
  let m := least first others in
  let M := greatest first others in
  let pad : float :=
    if M =? m then fromZ 1 else nmul (nsub (fromZ M) (fromZ m)) lit_0_05 in
  computeYDomain (num:=float) (map fromZ (first :: others)) true
  = (Math_max (fromZ 0) (nsub (fromZ m) pad),
     Math_min Y_MAX (nadd (fromZ M) pad)) /\
  PrimFloat.leb 0x1p-5 pad = true /\
  PrimFloat.leb pad (fromZ (2 ^ 28)) = true /\
  In m (first :: others) /\ In M (first :: others) /\
  (forall v, In v (first :: others) -> m <= v <= M).
Proof.
  intros Hall m M pad.
  assert (H32 : 2 ^ 32 < 2 ^ 53) by reflexivity.
  destruct (least_spec others first) as [Hmin Hleast].
  destruct (greatest_spec others first) as [Hmax Hgreatest].
  fold m in Hmin, Hleast. fold M in Hmax, Hgreatest.
  pose proof Hall as Hall'. rewrite Forall_forall in Hall'.
  pose proof (Hall' m Hmin) as Hm. pose proof (Hall' M Hmax) as HM.
  pose proof (Hleast M Hmax) as HmM.
  inversion Hall as [|? ? Hfirst Hothers]; subst.
  assert (Hothers' : Forall (fun v => 0 <= v < 2 ^ 53) others).
  { revert Hothers. apply Forall_impl. intros v Hv. lia. }
  destruct (@pad_binary64 m M ltac:(lia) ltac:(lia)) as (Htruthy & vpad & Hpad & Hvpad).
  assert (Hpadeq : (if truthy (nmul (nsub (fromZ (num:=float) M) (fromZ m)) lit_0_05)
                    then nmul (nsub (fromZ M) (fromZ m)) lit_0_05
                    else fromZ 1) = pad).
  { unfold pad. rewrite Htruthy. destruct (M =? m); reflexivity. }
  rewrite Hpadeq in Hpad.
  split; [|split; [|split; [|split; [|split]]]]; try assumption.
  - unfold computeYDomain. cbn [negb orb map length Nat.eqb].
    change (fromZ (num:=float)) with Binary64.ofZ.
    rewrite (@scan_binary64 others Hothers' first first) by lia.
    fold (least first others). fold (greatest first others). fold m. fold M.
    change Binary64.ofZ with (fromZ (num:=float)).
    rewrite Hpadeq. reflexivity.
  - assert (H5 : HasValue 0x1p-5%float (weight (-5))) by reflexivity.
    destruct (HasValue_compare H5 Hpad) as (_ & -> & _). apply Z.leb_le. lia.
  - assert (H28 : HasValue (fromZ (num:=float) (2 ^ 28)) (2 ^ 28 * weight 0))
      by (apply HasValue_ofZ; split; [lia | reflexivity]).
    destruct (HasValue_compare Hpad H28) as (_ & -> & _). apply Z.leb_le. lia.
  - intros v Hv. split; [now apply Hleast | now apply Hgreatest].
Qed.

Lemma computeYDomain_formula_witness :
  computeYDomain (num:=float) (map fromZ [10; 20; 30]) true
  = (Math_max (fromZ 0) (nsub (fromZ 10) (nmul (nsub (fromZ 30) (fromZ 10)) lit_0_05)),
     Math_min Y_MAX (nadd (fromZ 30) (nmul (nsub (fromZ 30) (fromZ 10)) lit_0_05))).
Proof.
  apply (proj1 (@computeYDomain_formula 10 [20; 30] ltac:(repeat constructor; lia))).
Defined.

(** ** Channel visibility *)

Lemma toggles_fold (clicks : list nat) :
  Forall (fun ch => (ch < 4)%nat) clicks ->
  forall a b c d : bool,
    fold_left App.clickToggle clicks [Some a; Some b; Some c; Some d]
    = [Some (xorb a (Nat.odd (count_occ Nat.eq_dec clicks 0%nat)));
       Some (xorb b (Nat.odd (count_occ Nat.eq_dec clicks 1%nat)));
       Some (xorb c (Nat.odd (count_occ Nat.eq_dec clicks 2%nat)));
       Some (xorb d (Nat.odd (count_occ Nat.eq_dec clicks 3%nat)))].
Proof.
  induction 1 as [|ch clicks Hch _ IH]; intros a b c d.
  - cbn. now rewrite !xorb_false_r.
  - cbn [fold_left].
    destruct ch as [|[|[|[|ch]]]]; [| | | |exfalso; lia].
    all: change (App.clickToggle [Some a; Some b; Some c; Some d] _)
      with [Some (negb a); Some b; Some c; Some d]
      || change (App.clickToggle [Some a; Some b; Some c; Some d] _)
           with [Some a; Some (negb b); Some c; Some d]
      || change (App.clickToggle [Some a; Some b; Some c; Some d] _)
           with [Some a; Some b; Some (negb c); Some d]
      || change (App.clickToggle [Some a; Some b; Some c; Some d] _)
           with [Some a; Some b; Some c; Some (negb d)].
    all: rewrite IH; cbn [count_occ Nat.eq_dec nat_rec nat_rect];
      repeat match goal with
             | |- context [Nat.eq_dec ?x ?y] => destruct (Nat.eq_dec x y); try lia
             end;
      rewrite ?Nat.odd_succ, <- ?Nat.negb_odd;
      generalize (Nat.odd (count_occ Nat.eq_dec clicks 0%nat))
                 (Nat.odd (count_occ Nat.eq_dec clicks 1%nat))
                 (Nat.odd (count_occ Nat.eq_dec clicks 2%nat))
                 (Nat.odd (count_occ Nat.eq_dec clicks 3%nat));
      intros o0 o1 o2 o3; destruct a, b, c, d, o0, o1, o2, o3; reflexivity.
Qed.

(** X17. Starting from all four channels visible, after any series of
    clicks on the channel toggles the array still has four defined
    entries, so the toggles stay rendered, and the chart of a channel is
    displayed exactly when its toggle was clicked an even number of
    times; clicks on one toggle never affect another channel. *)
Theorem channel_visibility_parity (clicks : list nat) (ch : nat) :
  Forall (fun c => (c < 4)%nat) clicks -> (ch < 4)%nat ->
  let channelVisible := fold_left App.clickToggle clicks App.initialChannelVisible in
  length channelVisible = 4%nat /\
  App.togglesRendered channelVisible = true /\
  App.chartDisplayed channelVisible ch
  = Nat.even (count_occ Nat.eq_dec clicks ch).
Proof.
  intros Hclicks Hch channelVisible. unfold channelVisible, App.initialChannelVisible.
  rewrite (toggles_fold Hclicks). split; [reflexivity|]. split; [reflexivity|].
  destruct ch as [|[|[|[|ch]]]]; [| | | |exfalso; lia];
    rewrite <- Nat.negb_odd;
    generalize (Nat.odd (count_occ Nat.eq_dec clicks 0%nat))
               (Nat.odd (count_occ Nat.eq_dec clicks 1%nat))
               (Nat.odd (count_occ Nat.eq_dec clicks 2%nat))
               (Nat.odd (count_occ Nat.eq_dec clicks 3%nat));
    intros o0 o1 o2 o3; destruct o0, o1, o2, o3; reflexivity.
Qed.

Lemma channel_visibility_parity_witness :
  length (fold_left App.clickToggle [1; 3; 1; 1]%nat App.initialChannelVisible) = 4%nat /\
  App.togglesRendered
    (fold_left App.clickToggle [1; 3; 1; 1]%nat App.initialChannelVisible) = true /\
  App.chartDisplayed
    (fold_left App.clickToggle [1; 3; 1; 1]%nat App.initialChannelVisible) 1
  = Nat.even (count_occ Nat.eq_dec [1; 3; 1; 1]%nat 1%nat).
Proof.
  apply (@channel_visibility_parity [1; 3; 1; 1]%nat 1%nat).
  - repeat constructor.
  - lia.
Defined.
